(** * The block importer of thanos-kit: bucketing, coordinator, import pipeline

    A shallow embedding of
      - importer/blocks/multi.go   (errAppender, rangeForTimestamp, MultiWriter),
      - importer/blocks/writer.go  (Writer, TSDBWriter),
      - importer/import.go         (Import),
    together with the properties of the design document that concern them. *)

From stdpp Require Import base numbers option list strings gmap fin_maps.
From Stdlib Require Import ZArith Lia.

Set Default Proof Using "Type".
Set Warnings "-register-all".

(** ** Machine integers *)

(** Go's [int64]: a mathematical integer reduced to the interval
    [-2^63, 2^63) after every arithmetic operation. *)
Module Int64.

Definition min_int : Z := (- 2 ^ 63)%Z.
Definition max_int : Z := (2 ^ 63 - 1)%Z.

Definition in_range (z : Z) : Prop := (min_int ≤ z ≤ max_int)%Z.

(** Two's complement wrap-around. *)
Definition wrap (z : Z) : Z := ((z + 2 ^ 63) `mod` 2 ^ 64 - 2 ^ 63)%Z.

Definition add (a b : Z) : Z := wrap (a + b).
Definition sub (a b : Z) : Z := wrap (a - b).
Definition mul (a b : Z) : Z := wrap (a * b).

(** Integer division truncates toward zero; a zero divisor is a run-time
    panic, reported here as [None]. *)
Definition quo (a b : Z) : option Z :=
  if decide (b = 0%Z) then None else Some (wrap (a `quot` b)).

End Int64.

(** ** Time ranges (index.Range) *)

Record Range := mkRange { Start : Z; End : Z }.

Global Instance Range_eq_dec : EqDecision Range.
Proof. solve_decision. Defined.

Global Instance Range_countable : Countable Range.
Proof.
  refine (inj_countable' (λ r, (Start r, End r)) (λ p, mkRange p.1 p.2) _).
  by intros [].
Defined.

(** [rangeForTimestamp] of multi.go: the exclusive upper end of the bucket
    of width [width] that the code assigns to [t]. *)
Definition rangeForTimestamp (t width : Z) : option Z :=
  q ← Int64.quo t width;
  Some (Int64.add (Int64.mul q width) width).

(** The map key built in the first two lines of [MultiWriter.getOrCreate]. *)
Definition rangeKey (sizeMillis t : Z) : option Range :=
  maxt ← rangeForTimestamp t sizeMillis;
  Some {| Start := Int64.sub maxt sizeMillis; End := maxt |}.

(** The property of the design document: a half-open interval of the given
    width that contains the timestamp. *)
Definition bucket_of (w t : Z) (r : Range) : Prop :=
  (Start r ≤ t < End r)%Z ∧ (End r - Start r = w)%Z.


(** ** Values carried through the pipeline *)

(** labels.Labels is a slice of (Name, Value) pairs. *)
Definition Labels : Type := list (string * string).

(** storage.SeriesRef is a uint64. *)
Definition SeriesRef : Type := N.

(** A float64 sample value is only carried, never computed with: it is kept
    as its 64-bit pattern. *)
Definition float64 : Type := N.

(** ulid.ULID is a 16-byte array, kept as the number it encodes. *)
Definition ULID : Type := N.

(** exemplar.Exemplar. *)
Record Exemplar := mkExemplar {
  ex_Labels : Labels;
  ex_Value : float64;
  ex_Ts : Z;
  ex_HasTs : bool
}.

(** labels.Labels.Map: later pairs overwrite earlier ones. *)
Definition Labels_Map (ls : Labels) : gmap string string :=
  fold_left (λ m l, <[l.1 := l.2]> m) ls ∅.

(** ** Errors *)

(** Error values as the three files build and inspect them: [io.EOF],
    [errors.New], [errors.Errorf] (format and argument kept apart),
    [errors.Wrap], and the non-empty aggregate that [tsdb_errors] returns
    from [Err].  Failures of the collaborators are arbitrary values of
    this type. *)
Inductive error : Type :=
| io_EOF
| errors_New (msg : string)
| errors_Errorf (format : string) (arg : Labels)
| errors_Wrap (err : error) (msg : string)
| nonNilMultiError (e : error) (es : list error).

(** tsdb_errors.multiError is a slice of errors. *)
Definition multiError : Type := list error.

Definition NewMulti : multiError := [].

(** [Add] skips nil, splices the members of an aggregate, appends anything
    else. *)
Definition multiError_Add (es : multiError) (err : option error) : multiError :=
  match err with
  | None => es
  | Some (nonNilMultiError e es') => es ++ e :: es'
  | Some e => es ++ [e]
  end.

(** [Err] is nil for the empty slice and the aggregate otherwise. *)
Definition multiError_Err (es : multiError) : option error :=
  match es with
  | [] => None
  | e :: es' => Some (nonNilMultiError e es')
  end.

(** The errors an aggregate stands for. *)
Definition error_members (e : option error) : list error :=
  multiError_Add NewMulti e.

(** ** Objects of the blocks package *)

(** Heads live behind pointers that a builder and its append handle share. *)
Definition loc : Type := nat.

(** TSDBWriter; the logger is a diagnostic sink and is left out. A nil
    [head] is [None]. *)
Record TSDBWriter := mkTSDBWriter {
  tw_dir : string;
  tw_labels : Labels;
  tw_head : option loc;
  tw_tmpDir : string
}.

Global Instance TSDBWriter_eq_dec : EqDecision TSDBWriter.
Proof. solve_decision. Defined.

(** The two implementations of storage.Appender that the coordinator
    stores or hands out: the error placeholder of multi.go and the handle
    that [tsdb.Head.Appender] returns. *)
Inductive Appender : Type :=
| errAppender (err : error)
| headAppender (h : loc).

(** MultiWriter; the logger is left out. *)
Record MultiWriter := mkMultiWriter {
  blocks : gmap Range TSDBWriter;
  activeAppenders : gmap Range Appender;
  mw_dir : string;
  sizeMillis : Z;
  mw_labels : Labels
}.

Definition NewMultiWriter (dir : string) (sizeMillis : Z) (lbls : Labels) : MultiWriter :=
  {| mw_dir := dir; sizeMillis := sizeMillis; mw_labels := lbls;
     blocks := ∅; activeAppenders := ∅ |}.

(** Calls the coordinator makes on its collaborators, each with what it
    returned, in program order. *)
Inductive Event : Type :=
| EvNewTSDBWriter (res : TSDBWriter * option error)
| EvAppend (a : Appender) (ref : SeriesRef) (l : Labels) (t : Z) (v : float64)
    (res : SeriesRef * option error)
| EvAppendExemplar (a : Appender) (ref : SeriesRef) (l : Labels) (e : Exemplar)
    (res : SeriesRef * option error)
| EvCommit (a : Appender) (res : option error)
| EvRollback (a : Appender) (res : option error)
| EvFlush (b : TSDBWriter) (res : list ULID * option error)
| EvClose (b : TSDBWriter) (res : option error).

(** ** The storage engine and the operating system *)

(** The fields of tsdb.HeadOptions that [initHead] sets. *)
Record HeadOptions := mkHeadOptions { ChunkRange : Z; ChunkDirRoot : string }.

(** [DurToMillis] goes through float64 seconds; for the two durations the
    code passes the product is an integer that float64 holds exactly. *)
Definition DurToMillis_9999h : Z := 35996400000%Z.
Definition DurToMillis_2h : Z := 7200000%Z.

(** metadata.Meta: the block's own metadata, and the Thanos section of
    which [Flush] sets the source tag and the labels. *)
Record Meta (B : Type) := mkMeta {
  meta_block : B;
  Thanos_Source : string;
  Thanos_Labels : gmap string string
}.
Arguments mkMeta {B}.
Arguments meta_block {B}.
Arguments Thanos_Source {B}.
Arguments Thanos_Labels {B}.

(** Everything the three files call but do not define: the Prometheus
    head and compactor, the Thanos metadata file, the file system, and the
    order in which the Go runtime walks a map.  [World] is the state of the
    operating system and runtime, [Head] the state of one tsdb.Head together
    with the append session opened on it. *)
Class Engine := {
  World : Type;
  Head : Type;
  Compactor : Type;
  BlockMeta : Type;
  os_TempDir : World → string;
  ioutil_TempDir : string → string → World → World * (error + string);
  os_RemoveAll : string → World → World * option error;
  filepath_Join : string → string → string;
  ULID_String : ULID → string;
  tsdb_NewHead : HeadOptions → World → World * (error + Head);
  Head_Init : Z → Head → World → Head * World * option error;
  Head_Appender : Head → World → Head * World * unit;
  Head_NumSeries : Head → Z;
  Head_MinTime : Head → Z;
  Head_MaxTime : Head → Z;
  Head_Close : Head → World → Head * World * option error;
  headAppender_Append :
    SeriesRef → Labels → Z → float64 → Head → World →
    Head * World * (SeriesRef * option error);
  headAppender_AppendExemplar :
    SeriesRef → Labels → Exemplar → Head → World →
    Head * World * (SeriesRef * option error);
  headAppender_Commit : Head → World → Head * World * option error;
  headAppender_Rollback : Head → World → Head * World * option error;
  tsdb_NewLeveledCompactor : list Z → World → World * (error + Compactor);
  Compactor_Write : Compactor → string → Head → Z → Z → World → World * (error + ULID);
  metadata_ReadFromDir : string → World → World * (error + Meta BlockMeta);
  Meta_WriteToDir : Meta BlockMeta → string → World → World * option error;
  (** [for k, v := range m] visits every entry once, in an order the
      runtime picks. *)
  map_range : ∀ {A : Type}, gmap Range A → World → list (Range * A);
  map_range_perm : ∀ (A : Type) (m : gmap Range A) (σ : World),
    map_range m σ ≡ₚ map_to_list m
}.

(** ** The machine: operating system, heap of heads, call trace *)

Section Model.
Context `{E : Engine}.

Record Machine := mkMachine {
  os : World;
  heads : gmap loc Head;
  trace : list Event
}.

(** Computations read and change the machine; [None] is a run-time panic
    (division by zero, nil or dangling pointer), after which no state is
    tracked. *)
Definition M (A : Type) : Type := Machine → option (Machine * A).

Definition ret {A} (a : A) : M A := λ m, Some (m, a).

Definition bind {A B} (c : M A) (k : A → M B) : M B :=
  λ m, match c m with
       | Some (m', a) => k a m'
       | None => None
       end.

Definition panic {A} : M A := λ _, None.

Global Instance M_ret : MRet M := @ret.
Global Instance M_bind : MBind M := λ A B k c, bind c k.

Definition emit (e : Event) : M unit :=
  λ m, Some (mkMachine (os m) (heads m) (trace m ++ [e]), tt).

(** A call that only concerns the operating system. *)
Definition sys {A} (f : World → World * A) : M A :=
  λ m, let '(σ, a) := f (os m) in Some (mkMachine σ (heads m) (trace m), a).

(** A method call through a [*tsdb.Head]. *)
Definition onHead {A} (h : option loc) (f : Head → World → Head * World * A) : M A :=
  λ m, match h with
       | None => None
       | Some l =>
         match heads m !! l with
         | None => None
         | Some hd =>
           let '(hd', σ, a) := f hd (os m) in
           Some (mkMachine σ (<[l := hd']> (heads m)) (trace m), a)
         end
       end.

(** Reading a field of a head. *)
Definition readHead {A} (h : option loc) (f : Head → A) : M A :=
  λ m, match h with
       | None => None
       | Some l =>
         match heads m !! l with
         | None => None
         | Some hd => Some (m, f hd)
         end
       end.

(** [tsdb.NewHead] allocates the head it returns. *)
Definition newHead (opts : HeadOptions) : M (error + loc) :=
  λ m, let '(σ, r) := tsdb_NewHead opts (os m) in
       match r with
       | inl err => Some (mkMachine σ (heads m) (trace m), inl err)
       | inr hd =>
         let l := fresh (dom (heads m)) in
         Some (mkMachine σ (<[l := hd]> (heads m)) (trace m), inr l)
       end.

(** The entries of a map in the order the runtime walks them. *)
Definition rangeOver {A} (mp : gmap Range A) : M (list (Range * A)) :=
  λ m, Some (m, map_range mp (os m)).

End Model.


(** ** writer.go: the single-bucket block builder *)

Section TSDBWriter.
Context `{E : Engine}.

(** [initHead]; the receiver's fields are set through the pointer, so the
    updated record is returned with the error. *)
Definition initHead (w : TSDBWriter) : M (TSDBWriter * option error) :=
  r ← sys (λ σ, ioutil_TempDir (os_TempDir σ) "head" σ);
  match r with
  | inl err => mret (w, Some (errors_Wrap err "create temp dir"))
  | inr tmpDir =>
    let w := mkTSDBWriter (tw_dir w) (tw_labels w) (tw_head w) tmpDir in
    let opts := {| ChunkRange := DurToMillis_9999h; ChunkDirRoot := tw_tmpDir w |} in
    r ← newHead opts;
    match r with
    | inl err => mret (w, Some (errors_Wrap err "tsdb.NewHead"))
    | inr h =>
      let w := mkTSDBWriter (tw_dir w) (tw_labels w) (Some h) (tw_tmpDir w) in
      err ← onHead (tw_head w) (Head_Init Int64.min_int);
      mret (w, err)
    end
  end.

Definition NewTSDBWriter (dir : string) (labels : Labels) : M (TSDBWriter * option error) :=
  initHead {| tw_dir := dir; tw_labels := labels; tw_head := None; tw_tmpDir := "" |}.

Definition TSDBWriter_Appender (w : TSDBWriter) : M Appender :=
  match tw_head w with
  | None => panic
  | Some h => _ ← onHead (Some h) Head_Appender; mret (headAppender h)
  end.

Definition TSDBWriter_Flush (w : TSDBWriter) : M (list ULID * option error) :=
  seriesCount ← readHead (tw_head w) Head_NumSeries;
  n ← readHead (tw_head w) Head_NumSeries;
  if decide (n = 0%Z) then
    mret ([], Some (errors_New "no series appended; aborting."))
  else
    mint ← readHead (tw_head w) Head_MinTime;
    maxt ← readHead (tw_head w) (λ hd, Int64.add (Head_MaxTime hd) 1);
    r ← sys (tsdb_NewLeveledCompactor [DurToMillis_2h]);
    match r with
    | inl err => mret ([], Some (errors_Wrap err "create leveled compactor"))
    | inr compactor =>
      hd ← readHead (tw_head w) id;
      r ← sys (Compactor_Write compactor (tw_dir w) hd mint maxt);
      match r with
      | inl err => mret ([], Some (errors_Wrap err "compactor write"))
      | inr id =>
        r ← sys (metadata_ReadFromDir (filepath_Join (tw_dir w) (ULID_String id)));
        match r with
        | inl err => mret ([], Some (errors_Wrap err "metadata read"))
        | inr meta =>
          let meta := mkMeta (meta_block meta) "thanos-kit" (Thanos_Labels meta) in
          let meta := mkMeta (meta_block meta) (Thanos_Source meta)
                             (Labels_Map (tw_labels w)) in
          err ← sys (Meta_WriteToDir meta (filepath_Join (tw_dir w) (ULID_String id)));
          match err with
          | Some err => mret ([], Some (errors_Wrap err "metadata write"))
          | None => mret ([id], None)
          end
        end
      end
    end.

Definition TSDBWriter_Close (w : TSDBWriter) : M (option error) :=
  _ ← sys (os_RemoveAll (tw_tmpDir w));
  onHead (tw_head w) Head_Close.

End TSDBWriter.

(** ** multi.go: the coordinator *)

Section MultiWriter.
Context `{E : Engine}.

(** Calls through the storage.Appender interface.  [errAppender] answers
    every method with the error it holds; the head's handle forwards to
    the engine. *)
Definition Appender_Append (a : Appender) (ref : SeriesRef) (l : Labels) (t : Z)
    (v : float64) : M (SeriesRef * option error) :=
  res ← match a with
        | errAppender err => mret (0%N, Some err)
        | headAppender h => onHead (Some h) (headAppender_Append ref l t v)
        end;
  _ ← emit (EvAppend a ref l t v res);
  mret res.

Definition Appender_AppendExemplar (a : Appender) (ref : SeriesRef) (l : Labels)
    (e : Exemplar) : M (SeriesRef * option error) :=
  res ← match a with
        | errAppender err => mret (0%N, Some err)
        | headAppender h => onHead (Some h) (headAppender_AppendExemplar ref l e)
        end;
  _ ← emit (EvAppendExemplar a ref l e res);
  mret res.

Definition Appender_Commit (a : Appender) : M (option error) :=
  res ← match a with
        | errAppender err => mret (Some err)
        | headAppender h => onHead (Some h) headAppender_Commit
        end;
  _ ← emit (EvCommit a res);
  mret res.

Definition Appender_Rollback (a : Appender) : M (option error) :=
  res ← match a with
        | errAppender err => mret (Some err)
        | headAppender h => onHead (Some h) headAppender_Rollback
        end;
  _ ← emit (EvRollback a res);
  mret res.

(** Calls through the Writer interface on a stored builder. *)
Definition Writer_Flush (b : TSDBWriter) : M (list ULID * option error) :=
  res ← TSDBWriter_Flush b;
  _ ← emit (EvFlush b res);
  mret res.

Definition Writer_Close (b : TSDBWriter) : M (option error) :=
  res ← TSDBWriter_Close b;
  _ ← emit (EvClose b res);
  mret res.

Definition getOrCreate (w : MultiWriter) (t : Z) : M (MultiWriter * Appender) :=
  match rangeKey (sizeMillis w) t with
  | None => panic
  | Some hash =>
    match activeAppenders w !! hash with
    | Some a => mret (w, a)
    | None =>
      res ← NewTSDBWriter (mw_dir w) (mw_labels w);
      _ ← emit (EvNewTSDBWriter res);
      match res with
      | (nw, Some err) => mret (w, errAppender (errors_Wrap err "new tsdb writer"))
      | (nw, None) =>
        let w := mkMultiWriter (<[hash := nw]> (blocks w)) (activeAppenders w)
                               (mw_dir w) (sizeMillis w) (mw_labels w) in
        a ← TSDBWriter_Appender nw;
        let w := mkMultiWriter (blocks w) (<[hash := a]> (activeAppenders w))
                               (mw_dir w) (sizeMillis w) (mw_labels w) in
        (* w.activeAppenders[hash], the handle stored on the line before *)
        mret (w, a)
      end
    end
  end.

Definition MultiWriter_AppendExemplar (w : MultiWriter) (ref : SeriesRef) (l : Labels)
    (e : Exemplar) : M (MultiWriter * (SeriesRef * option error)) :=
  '(w, a) ← getOrCreate w (ex_Ts e);
  res ← Appender_AppendExemplar a ref l e;
  mret (w, res).

Definition MultiWriter_Append (w : MultiWriter) (ref : SeriesRef) (l : Labels) (t : Z)
    (v : float64) : M (MultiWriter * (SeriesRef * option error)) :=
  '(w, a) ← getOrCreate w t;
  res ← Appender_Append a ref l t v;
  mret (w, res).

(** The body of [for _, a := range w.activeAppenders { merr.Add(a.Commit()) }]
    over the entries still to visit. *)
Fixpoint commitEach (entries : list (Range * Appender)) (merr : multiError)
    : M multiError :=
  match entries with
  | [] => mret merr
  | (_, a) :: rest =>
    err ← Appender_Commit a;
    commitEach rest (multiError_Add merr err)
  end.

Definition MultiWriter_Commit (w : MultiWriter) : M (option error) :=
  entries ← rangeOver (activeAppenders w);
  merr ← commitEach entries NewMulti;
  mret (multiError_Err merr).

Fixpoint rollbackEach (entries : list (Range * Appender)) (merr : multiError)
    : M multiError :=
  match entries with
  | [] => mret merr
  | (_, a) :: rest =>
    err ← Appender_Rollback a;
    rollbackEach rest (multiError_Add merr err)
  end.

Definition MultiWriter_Rollback (w : MultiWriter) : M (option error) :=
  entries ← rangeOver (activeAppenders w);
  merr ← rollbackEach entries NewMulti;
  mret (multiError_Err merr).

(** The loop of [Flush]: the first failing builder ends it. *)
Fixpoint flushEach (entries : list (Range * TSDBWriter)) (ids : list ULID)
    : M (list ULID * option error) :=
  match entries with
  | [] => mret (ids, None)
  | (_, b) :: rest =>
    '(id, err) ← Writer_Flush b;
    match err with
    | Some err => mret ([], Some err)
    | None => flushEach rest (ids ++ id)
    end
  end.

Definition MultiWriter_Flush (w : MultiWriter) : M (list ULID * option error) :=
  entries ← rangeOver (blocks w);
  flushEach entries [].

Fixpoint closeEach (entries : list (Range * TSDBWriter)) (merr : multiError)
    : M multiError :=
  match entries with
  | [] => mret merr
  | (_, b) :: rest =>
    err ← Writer_Close b;
    closeEach rest (multiError_Add merr err)
  end.

Definition MultiWriter_Close (w : MultiWriter) : M (option error) :=
  entries ← rangeOver (blocks w);
  merr ← closeEach entries NewMulti;
  mret (multiError_Err merr).

End MultiWriter.

(** ** import.go: the import pipeline *)

(** textparse.Entry is an int; the pipeline only compares it with
    [EntrySeries]. *)
Definition EntrySeries : Z := 2%Z.

(** What a textparse.Parser yields over a finite input: each element is
    one answer of [Next], either an error or an entry together with what
    [Metric] and [Series] report for it (labels, optional timestamp, value).
    Past the last element [Next] answers [io.EOF]. *)
Inductive Step : Type :=
| StepErr (err : error)
| StepEntry (e : Z) (l : Labels) (ts : option Z) (v : float64).

Definition Parser : Type := list Step.

(** The blocks.Writer interface together with the storage.Appender it
    hands out, as operations on the state [S] of whatever implements it.
    [None] is a panic of the implementation. *)
Record Writer (S : Type) := mkWriter {
  w_Appender : S → option S;
  a_Append : SeriesRef → Labels → Z → float64 → S → option (S * (SeriesRef * option error));
  a_Commit : S → option (S * option error);
  w_Flush : S → option (S * (list ULID * option error));
  w_Close : S → option (S * option error)
}.
Arguments w_Appender {S}.
Arguments a_Append {S}.
Arguments a_Commit {S}.
Arguments w_Flush {S}.
Arguments w_Close {S}.

Section Pipeline.
Context {S : Type} (W : Writer S).

(** The [for] loop of [Import].  The result is [None] when the loop is
    left by [break] and [Some err] when it is left by [return nil, err]. *)
Fixpoint Import_loop (p : Parser) (ref : SeriesRef) (s : S) : option (S * option error) :=
  match p with
  | [] => Some (s, None)
  | StepErr io_EOF :: _ => Some (s, None)
  | StepErr err :: _ => Some (s, Some (errors_Wrap err "parse"))
  | StepEntry e l ts v :: p =>
    if decide (e ≠ EntrySeries) then Import_loop p ref s
    else
      match ts with
      | None =>
        Some (s, Some (errors_Errorf "expected timestamp for series %v, got none" l))
      | Some t =>
        '(s, (ref, err)) ← a_Append W ref l t v s;
        match err with
        | Some err => Some (s, Some (errors_Wrap err "add sample"))
        | None => Import_loop p ref s
        end
      end
  end.

(** The function body up to its [return] statements: the values the
    named results [ids] and [err] hold when the deferred function starts. *)
Definition Import_body (p : Parser) (s : S) : option (S * (list ULID * option error)) :=
  '(s, r) ← Import_loop p 0%N s;
  match r with
  | Some err => Some (s, ([], Some err))
  | None =>
    '(s, err) ← a_Commit W s;
    match err with
    | Some err => Some (s, ([], Some (errors_Wrap err "commit")))
    | None =>
      '(s, (ids, err)) ← w_Flush W s;
      match err with
      | Some err => Some (s, ([], Some (errors_Wrap err "flush")))
      | None => Some (s, (ids, None))
      end
    end
  end.

(** [Import]: open the append session, run the body, then the deferred
    function, which closes the writer and rewrites [err]. *)
Definition Import (p : Parser) (s : S) : option (S * (list ULID * option error)) :=
  s ← w_Appender W s;
  '(s, (ids, err)) ← Import_body p s;
  let merr := NewMulti in
  let merr := multiError_Add merr err in
  '(s, cerr) ← w_Close W s;
  let merr := multiError_Add merr cerr in
  Some (s, (ids, multiError_Err merr)).

End Pipeline.

(** *** Observing the calls of the pipeline *)

(** The calls [Import] makes on its target, with their results. *)
Inductive Call : Type :=
| CallAppender
| CallAppend (ref : SeriesRef) (l : Labels) (t : Z) (v : float64)
    (res : SeriesRef * option error)
| CallCommit (res : option error)
| CallFlush (res : list ULID * option error)
| CallClose (res : option error).

(** Any writer, with a log of the calls made on it. *)
Definition spy {S : Type} (W : Writer S) : Writer (S * list Call) := {|
  w_Appender := λ '(s, log), s ← w_Appender W s; Some (s, log ++ [CallAppender]);
  a_Append := λ ref l t v '(s, log),
    '(s, res) ← a_Append W ref l t v s; Some ((s, log ++ [CallAppend ref l t v res]), res);
  a_Commit := λ '(s, log),
    '(s, res) ← a_Commit W s; Some ((s, log ++ [CallCommit res]), res);
  w_Flush := λ '(s, log),
    '(s, res) ← w_Flush W s; Some ((s, log ++ [CallFlush res]), res);
  w_Close := λ '(s, log),
    '(s, res) ← w_Close W s; Some ((s, log ++ [CallClose res]), res)
|}.

Definition is_CallClose (c : Call) : bool :=
  match c with CallClose _ => true | _ => false end.
Definition is_CallCommit (c : Call) : bool :=
  match c with CallCommit _ => true | _ => false end.
Definition is_CallFlush (c : Call) : bool :=
  match c with CallFlush _ => true | _ => false end.
Definition is_CallAppend (c : Call) : bool :=
  match c with CallAppend _ _ _ _ _ => true | _ => false end.

(** *** The two writers of the blocks package as targets *)

Section Targets.
Context `{E : Engine}.

Definition run {A B} (c : M (A * B)) (m : Machine) : option ((A * Machine) * B) :=
  '(m, (a, b)) ← c m; Some ((a, m), b).

(** [MultiWriter.Appender] returns the coordinator itself. *)
Definition MultiWriter_Writer : Writer (MultiWriter * Machine) := {|
  w_Appender := λ s, Some s;
  a_Append := λ ref l t v '(w, m), run (MultiWriter_Append w ref l t v) m;
  a_Commit := λ '(w, m), run (res ← MultiWriter_Commit w; mret (w, res)) m;
  w_Flush := λ '(w, m), run (res ← MultiWriter_Flush w; mret (w, res)) m;
  w_Close := λ '(w, m), run (res ← MultiWriter_Close w; mret (w, res)) m
|}.

(** A single builder as target: the append session is the head's own
    handle. *)
Definition TSDBWriter_Writer : Writer (TSDBWriter * Machine) := {|
  w_Appender := λ '(w, m), run (a ← TSDBWriter_Appender w; mret (w, a)) m
                           ≫= λ '(w, m, _), Some (w, m);
  a_Append := λ ref l t v '(w, m),
    run (res ← onHead (tw_head w) (headAppender_Append ref l t v); mret (w, res)) m;
  a_Commit := λ '(w, m), run (res ← onHead (tw_head w) headAppender_Commit; mret (w, res)) m;
  w_Flush := λ '(w, m), run (res ← TSDBWriter_Flush w; mret (w, res)) m;
  w_Close := λ '(w, m), run (res ← TSDBWriter_Close w; mret (w, res)) m
|}.

End Targets.

(** ** Coordinator states *)

Section Invariant.
Context `{E : Engine}.

(** The two maps have the same keys. *)
Definition same_keys (w : MultiWriter) : Prop :=
  dom (blocks w) = dom (activeAppenders w).

(** What holds of a coordinator between calls: the maps have the same
    keys, the handle stored under a range is the handle of the head of
    the builder stored under it, that head is allocated, and no two
    ranges share a head. *)
Record coherent (w : MultiWriter) (m : Machine) : Prop := {
  coh_keys : same_keys w;
  coh_handle : ∀ r b, blocks w !! r = Some b →
    ∃ h, tw_head b = Some h ∧ is_Some (heads m !! h) ∧
         activeAppenders w !! r = Some (headAppender h);
  coh_distinct : ∀ r1 r2 b1 b2,
    blocks w !! r1 = Some b1 → blocks w !! r2 = Some b2 →
    tw_head b1 = tw_head b2 → r1 = r2
}.

(** The operations a client can apply to a coordinator. *)
Inductive Op : Type :=
| OpAppend (ref : SeriesRef) (l : Labels) (t : Z) (v : float64)
| OpAppendExemplar (ref : SeriesRef) (l : Labels) (e : Exemplar)
| OpCommit
| OpRollback
| OpFlush
| OpClose.

Definition apply_op (o : Op) (w : MultiWriter) : M MultiWriter :=
  match o with
  | OpAppend ref l t v => '(w, _) ← MultiWriter_Append w ref l t v; mret w
  | OpAppendExemplar ref l e => '(w, _) ← MultiWriter_AppendExemplar w ref l e; mret w
  | OpCommit => _ ← MultiWriter_Commit w; mret w
  | OpRollback => _ ← MultiWriter_Rollback w; mret w
  | OpFlush => _ ← MultiWriter_Flush w; mret w
  | OpClose => _ ← MultiWriter_Close w; mret w
  end.

(** States reached from a new coordinator by the public operations. *)
Inductive reachable : MultiWriter → Machine → Prop :=
| reach_new dir size lbls σ :
    reachable (NewMultiWriter dir size lbls) (mkMachine σ ∅ [])
| reach_step o w m w' m' :
    reachable w m → apply_op o w m = Some (m', w') → reachable w' m'.

(** The calls a client can make on one append handle. *)
Inductive HandleCall : Type :=
| DoAppend (ref : SeriesRef) (l : Labels) (t : Z) (v : float64)
| DoAppendExemplar (ref : SeriesRef) (l : Labels) (e : Exemplar)
| DoCommit
| DoRollback.

(** Applying a sequence of calls to a handle; the result counts the
    samples that were accepted. *)
Fixpoint drive (a : Appender) (cs : list HandleCall) : M nat :=
  match cs with
  | [] => mret 0
  | DoAppend ref l t v :: cs =>
    '(_, err) ← Appender_Append a ref l t v;
    n ← drive a cs;
    mret (match err with None => Datatypes.S n | Some _ => n end)
  | DoAppendExemplar ref l e :: cs =>
    _ ← Appender_AppendExemplar a ref l e; drive a cs
  | DoCommit :: cs => _ ← Appender_Commit a; drive a cs
  | DoRollback :: cs => _ ← Appender_Rollback a; drive a cs
  end.

Definition projT {A B C} (x : A * B * C) : A := x.1.1.

(** What the builder relies on from tsdb.Head: [NumSeries] is zero on a
    new head, stays unchanged by everything except an accepted sample,
    and is positive once a sample was accepted. *)
Class HeadContract : Prop := {
  NumSeries_NewHead : ∀ opts σ σ' hd,
    tsdb_NewHead opts σ = (σ', inr hd) → Head_NumSeries hd = 0%Z;
  NumSeries_Init : ∀ t hd σ,
    Head_NumSeries (projT (Head_Init t hd σ)) = Head_NumSeries hd;
  NumSeries_Appender : ∀ hd σ,
    Head_NumSeries (projT (Head_Appender hd σ)) = Head_NumSeries hd;
  NumSeries_Commit : ∀ hd σ,
    Head_NumSeries (projT (headAppender_Commit hd σ)) = Head_NumSeries hd;
  NumSeries_Rollback : ∀ hd σ,
    Head_NumSeries (projT (headAppender_Rollback hd σ)) = Head_NumSeries hd;
  NumSeries_AppendExemplar : ∀ ref l e hd σ,
    Head_NumSeries (projT (headAppender_AppendExemplar ref l e hd σ)) = Head_NumSeries hd;
  NumSeries_Append_rejected : ∀ ref l t v hd σ hd' σ' ref' err,
    headAppender_Append ref l t v hd σ = (hd', σ', (ref', Some err)) →
    Head_NumSeries hd' = Head_NumSeries hd;
  NumSeries_Append_accepted : ∀ ref l t v hd σ hd' σ' ref',
    headAppender_Append ref l t v hd σ = (hd', σ', (ref', None)) →
    (0 < Head_NumSeries hd' ∧ Head_NumSeries hd ≤ Head_NumSeries hd')%Z
}.

End Invariant.

(** The error of [Flush] on a builder without series. *)
Definition EmptyBuilderError : error := errors_New "no series appended; aborting.".

(** The error of [Import] for a series entry without timestamp. *)
Definition MissingTimestampError (l : Labels) : error :=
  errors_Errorf "expected timestamp for series %v, got none" l.

(** ** A reference engine *)

(** A small deterministic engine for running the model on examples: the
    world scripts the outcome of each [tsdb.NewHead], a head records its
    series and time bounds and carries the failures it will report. *)
Module Ref.

(** The failures a head will report. *)
Record faults := new {
  failAppend : option error;
  failCommit : option error;
  failWrite : option error;
  failClose : option error
}.

Definition healthy : faults := new None None None None.

Record head := mkHead {
  series : list Labels;
  mint : Z;
  maxt : Z;
  plan : faults
}.

Record world := mkWorld {
  script : list (error + faults);
  nextID : N;
  backwards : bool
}.

(** A head as [tsdb.NewHead] leaves it: no series, empty time bounds. *)
Definition NewHead (_ : HeadOptions) (σ : world) : world * (error + head) :=
  match script σ with
  | [] => (σ, inr (mkHead [] Int64.max_int Int64.min_int healthy))
  | inl err :: rest => (mkWorld rest (nextID σ) (backwards σ), inl err)
  | inr f :: rest =>
    (mkWorld rest (nextID σ) (backwards σ), inr (mkHead [] Int64.max_int Int64.min_int f))
  end.

Definition Append (ref : SeriesRef) (l : Labels) (t : Z) (v : float64)
    (hd : head) (σ : world) : head * world * (SeriesRef * option error) :=
  match failAppend (plan hd) with
  | Some err => (hd, σ, (0%N, Some err))
  | None =>
    let ss := if decide (l ∈ series hd) then series hd else series hd ++ [l] in
    (mkHead ss (Z.min (mint hd) t) (Z.max (maxt hd) t) (plan hd),
     σ, (N.of_nat (length ss), None))
  end.

Definition Write (_ : unit) (dir : string) (hd : head) (mint maxt : Z) (σ : world)
    : world * (error + ULID) :=
  match failWrite (plan hd) with
  | Some err => (σ, inl err)
  | None => (mkWorld (script σ) (N.succ (nextID σ)) (backwards σ), inr (nextID σ))
  end.

Definition order {A} (mp : gmap Range A) (σ : world) : list (Range * A) :=
  if backwards σ then reverse (map_to_list mp) else map_to_list mp.

Global Instance engine : Engine.
Proof.
  refine {|
  World := world;
  Head := head;
  Compactor := unit;
  BlockMeta := unit;
  os_TempDir := λ _, "/tmp";
  ioutil_TempDir := λ d pat σ, (σ, inr (d +:+ "/" +:+ pat));
  os_RemoveAll := λ _ σ, (σ, None);
  filepath_Join := λ a b, a +:+ "/" +:+ b;
  ULID_String := λ _, "01";
  tsdb_NewHead := NewHead;
  Head_Init := λ _ hd σ, (hd, σ, None);
  Head_Appender := λ hd σ, (hd, σ, tt);
  Head_NumSeries := λ hd, Z.of_nat (length (series hd));
  Head_MinTime := mint;
  Head_MaxTime := maxt;
  Head_Close := λ hd σ, (hd, σ, failClose (plan hd));
  headAppender_Append := Append;
  headAppender_AppendExemplar := λ _ _ _ hd σ, (hd, σ, (0%N, None));
  headAppender_Commit := λ hd σ, (hd, σ, failCommit (plan hd));
  headAppender_Rollback := λ hd σ, (hd, σ, None);
  tsdb_NewLeveledCompactor := λ _ σ, (σ, inr tt);
  Compactor_Write := Write;
  metadata_ReadFromDir := λ _ σ, (σ, inr (mkMeta tt "" ∅));
  Meta_WriteToDir := λ _ _ σ, (σ, None);
  map_range := @order;
  map_range_perm := _
|}.
  intros A mp σ. unfold order.
  destruct (backwards σ); [apply reverse_Permutation | reflexivity].
Defined.

Definition machine (sc : list (error + faults)) : Machine :=
  mkMachine (mkWorld sc 1%N false) ∅ [].

End Ref.

(** ** Runs of the pipeline *)

Section Runs.
Context {S : Type} (W : Writer S).

(** The loop passes over a prefix of the input without leaving: every
    step is an entry that is skipped, or a series entry with a timestamp
    whose sample the target accepts. *)
Fixpoint consume (p : Parser) (ref : SeriesRef) (s : S) : option (S * SeriesRef) :=
  match p with
  | [] => Some (s, ref)
  | StepErr _ :: _ => None
  | StepEntry e l ts v :: p =>
    if decide (e ≠ EntrySeries) then consume p ref s
    else
      match ts with
      | None => None
      | Some t =>
        match a_Append W ref l t v s with
        | Some (s, (ref, None)) => consume p ref s
        | _ => None
        end
      end
  end.

(** A target that does not panic on the states satisfying [I]. *)
Record safe (I : S → Prop) : Prop := {
  safe_Appender : ∀ s, I s → ∃ s', w_Appender W s = Some s' ∧ I s';
  safe_Append : ∀ ref l t v s, I s →
    ∃ s' res, a_Append W ref l t v s = Some (s', res) ∧ I s';
  safe_Commit : ∀ s, I s → ∃ s' res, a_Commit W s = Some (s', res) ∧ I s';
  safe_Flush : ∀ s, I s → ∃ s' res, w_Flush W s = Some (s', res) ∧ I s';
  safe_Close : ∀ s, I s → ∃ s' res, w_Close W s = Some (s', res) ∧ I s'
}.

End Runs.

(** The timestamps of the series entries of an input. *)
Definition series_timestamps (p : Parser) : list (option Z) :=
  omap (λ st, match st with
              | StepEntry e _ ts _ => if decide (e = EntrySeries) then Some ts else None
              | StepErr _ => None
              end) p.

(** The timestamps passed to [Append] in a log. *)
Definition appended_timestamps (log : list Call) : list (option Z) :=
  omap (λ c, match c with CallAppend _ _ t _ _ => Some (Some t) | _ => None end) log.

(** A writer for examples that accepts everything, flushes to the given
    identifiers and closes with the given result. *)
Definition stub (ids : list ULID) (cerr : option error) : Writer unit := {|
  w_Appender := λ s, Some s;
  a_Append := λ ref _ _ _ s, Some (s, (ref, None));
  a_Commit := λ s, Some (s, None);
  w_Flush := λ s, Some (s, (ids, None));
  w_Close := λ s, Some (s, cerr)
|}.

(** ** Observations on machines and traces *)

Section Observations.
Context `{E : Engine}.

(** [m'] is [m] after the calls [new]: the trace grew by [new] and every
    allocated head is still allocated. *)
Definition extends (m m' : Machine) (new : list Event) : Prop :=
  trace m' = trace m ++ new ∧ dom (heads m) ⊆ dom (heads m').

End Observations.

Definition is_EvClose (e : Event) : bool :=
  match e with EvClose _ _ => true | _ => false end.

(** The number of close calls on the builder [b] in a trace. *)
Definition closes_of (b : TSDBWriter) (tr : list Event) : nat :=
  length (List.filter (λ e, match e with
                            | EvClose b' _ => bool_decide (b' = b)
                            | _ => false
                            end) tr).

(** The number of flush calls on the builder [b] in a trace. *)
Definition flushes_of (b : TSDBWriter) (tr : list Event) : nat :=
  length (List.filter (λ e, match e with
                            | EvFlush b' _ => bool_decide (b' = b)
                            | _ => false
                            end) tr).

(** The number of commit calls on the handle of the head [h] in a trace. *)
Definition commits_of (h : loc) (tr : list Event) : nat :=
  length (List.filter (λ e, match e with
                            | EvCommit (headAppender h') _ => bool_decide (h' = h)
                            | _ => false
                            end) tr).

Section Scripts.
Context `{E : Engine}.

(** A sequence of operations applied to a coordinator. *)
Fixpoint apply_ops (ops : list Op) (w : MultiWriter) : M MultiWriter :=
  match ops with
  | [] => mret w
  | o :: ops => w ← apply_op o w; apply_ops ops w
  end.

End Scripts.

(** Example runs on the reference engine: a coordinator of width 10 that
    receives one sample in each of three buckets. *)
Module Examples.

Definition up : Labels := [("__name__", "up")].

Definition start : MultiWriter := NewMultiWriter "out" 10 [].

Definition three_buckets : list Op :=
  [OpAppend 0%N up 5%Z 1%N; OpAppend 0%N up 15%Z 2%N; OpAppend 0%N up 25%Z 3%N].

(** The second head created fails to commit. *)
Definition commit_fails : Machine :=
  Ref.machine [inr Ref.healthy;
               inr (Ref.new None (Some (errors_New "out of order")) None None);
               inr Ref.healthy].

(** The second head created fails in the compactor. *)
Definition write_fails : Machine :=
  Ref.machine [inr Ref.healthy;
               inr (Ref.new None None (Some (errors_New "disk full")) None);
               inr Ref.healthy].

(** The first head created fails to close. *)
Definition close_fails : Machine :=
  Ref.machine [inr (Ref.new None None None (Some (errors_New "disk full")))].

(** The first [tsdb.NewHead] fails, the next one succeeds. *)
Definition creation_fails : Machine :=
  Ref.machine [inl (errors_New "no space left"); inr Ref.healthy].

(** The state a sequence of operations leaves, started on a machine. *)
Definition after (ops : list Op) (m0 : Machine) : Machine * MultiWriter :=
  default (m0, start) (apply_ops ops start m0).

(** A coordinator with buckets of one hour. *)
Definition hourly : MultiWriter := NewMultiWriter "out" 3600000 [].

(** A single builder, as [NewTSDBWriter] returns it on a healthy engine. *)
Definition single : TSDBWriter * Machine :=
  match NewTSDBWriter "out" [] (Ref.machine []) with
  | Some (m, (b, _)) => (b, m)
  | None => (mkTSDBWriter "out" [] None "", Ref.machine [])
  end.

End Examples.

Section RunInvariant.
Context `{E : Engine}.

(** The states of a coordinator on which the pipeline does not panic. *)
Definition ready (s : MultiWriter * Machine) : Prop :=
  coherent s.1 s.2 ∧ sizeMillis s.1 ≠ 0%Z.


End RunInvariant.

(** ** Inputs and logs of the pipeline *)

(** The entries the loop of [Import] passes over without looking at them:
    every entry whose kind is not [EntrySeries]. *)
Definition skipped (st : Step) : bool :=
  match st with
  | StepEntry e _ _ _ => bool_decide (e ≠ EntrySeries)
  | StepErr _ => false
  end.

(** An input without the entries that are skipped. *)
Definition drop_skipped (p : Parser) : Parser :=
  List.filter (λ st, negb (skipped st)) p.

(** The series reference given to each append in a log is the one the
    append before it returned, beginning with [r]. *)
Fixpoint chained (r : SeriesRef) (log : list Call) : Prop :=
  match log with
  | [] => True
  | CallAppend ref _ _ _ (ref', _) :: log => ref = r ∧ chained ref' log
  | _ :: log => chained r log
  end.

(** The calls after the loop: none when the loop returned, a failed
    commit, or a commit followed by a flush. *)
Inductive epilogue : list Call → Prop :=
| epilogue_return : epilogue []
| epilogue_commit_failed err : epilogue [CallCommit (Some err)]
| epilogue_flushed res : epilogue [CallCommit None; CallFlush res].

(** A writer for examples that answers with the given results: appends
    with [aerr], commit with [cerr], flush with [fl], close with [clerr];
    its state counts the samples it accepted. *)
Definition scripted (aerr cerr : option error) (fl : list ULID * option error)
    (clerr : option error) : Writer nat := {|
  w_Appender := λ n, Some n;
  a_Append := λ ref _ _ _ n,
    match aerr with
    | Some e => Some (n, (0%N, Some e))
    | None => Some (Datatypes.S n, (N.succ ref, None))
    end;
  a_Commit := λ n, Some (n, cerr);
  w_Flush := λ n, Some (n, fl);
  w_Close := λ n, Some (n, clerr)
|}.

(** The number of rollback calls on the handle of the head [h] in a trace. *)
Definition rollbacks_of (h : loc) (tr : list Event) : nat :=
  length (List.filter (λ e, match e with
                            | EvRollback (headAppender h') _ => bool_decide (h' = h)
                            | _ => false
                            end) tr).

(** The number of builders whose creation succeeded in a trace. *)
Definition creations (tr : list Event) : nat :=
  length (List.filter (λ e, match e with
                            | EvNewTSDBWriter (_, None) => true
                            | _ => false
                            end) tr).

(** ** Calls made in turn *)

Section InTurn.
Context `{E : Engine}.

(** [in_turn call xs m rs m']: calling [call] on the elements of [xs], one
    after the other and in this order, from the machine [m], returns the
    results [rs] and leaves the machine [m']. *)
Inductive in_turn {X R : Type} (call : X → M R) :
    list X → Machine → list R → Machine → Prop :=
| in_turn_nil m : in_turn call [] m [] m
| in_turn_cons x xs m r m1 rs m' :
    call x m = Some (m1, r) → in_turn call xs m1 rs m' →
    in_turn call (x :: xs) m (r :: rs) m'.

(** [head_call f h m m' res]: the head at [h], which was [hd] in [m], is in
    [m'] the head that the engine's [f] makes of [hd], and [res] is what
    that call of [f] returned. *)
Definition head_call {A} (f : Head → World → Head * World * A) (h : loc)
    (m m' : Machine) (res : A) : Prop :=
  ∃ hd σ, heads m !! h = Some hd ∧ heads m' !! h = Some (f hd σ).1.1 ∧ res = (f hd σ).2.

(** The head behind a handle; the error placeholder has none. *)
Definition Appender_head (a : Appender) : option loc :=
  match a with
  | headAppender h => Some h
  | errAppender _ => None
  end.

(** What [TSDBWriter.Close] asks of the engine for the head of [b]: the
    head is closed after the temporary directory was removed. *)
Definition close_head (b : TSDBWriter) (hd : Head) (σ : World)
    : Head * World * option error :=
  Head_Close hd (os_RemoveAll (tw_tmpDir b) σ).1.

(** [flush_result b m r]: [r] is what [TSDBWriter.Flush] of [b] returns on
    a machine that holds the heads of [m]. *)
Definition flush_result (b : TSDBWriter) (m : Machine)
    (r : list ULID * option error) : Prop :=
  ∃ m1 m2, heads m1 = heads m ∧ TSDBWriter_Flush b m1 = Some (m2, r).

End InTurn.

(** The input [p] ends after [pre]: nothing follows, or [io.EOF] does. *)
Definition ended (p pre : Parser) : Prop :=
  p = pre ∨ ∃ post, p = pre ++ StepErr io_EOF :: post.

(** * Properties *)

(** ** Bucketing *)

Lemma in_range_bounds z :
  (- 2 ^ 63 ≤ z ≤ 2 ^ 63 - 1)%Z → Int64.in_range z.
Proof. unfold Int64.in_range, Int64.min_int, Int64.max_int. lia. Qed.

Lemma wrap_id z : Int64.in_range z → Int64.wrap z = z.
Proof.
  unfold Int64.in_range, Int64.min_int, Int64.max_int, Int64.wrap. intros H.
  rewrite Z.mod_small; lia.
Qed.

(** On non-negative timestamps whose bucket ends within [int64] the code
    computes the bucket by floor division. *)
Lemma rangeKey_nonneg w t :
  (0 < w)%Z → (0 ≤ t)%Z → (t `div` w * w + w ≤ Int64.max_int)%Z →
  rangeKey w t = Some {| Start := (t `div` w * w)%Z; End := (t `div` w * w + w)%Z |}.
Proof.
  intros Hw Ht Hmax. unfold rangeKey, rangeForTimestamp, Int64.quo.
  rewrite decide_False by lia. simpl.
  assert (Hq : (t `quot` w = t `div` w)%Z) by (apply Z.quot_div_nonneg; lia).
  rewrite Hq.
  assert (0 ≤ t `div` w)%Z by (apply Z.div_pos; lia).
  assert (t `div` w * w ≤ t)%Z by (rewrite Z.mul_comm; apply Z.mul_div_le; lia).
  assert (t `div` w ≤ t `div` w * w)%Z by nia.
  unfold Int64.max_int in Hmax.
  unfold Int64.add, Int64.mul, Int64.sub.
  rewrite (wrap_id (t `div` w)) by (apply in_range_bounds; lia).
  rewrite (wrap_id (t `div` w * w)) by (apply in_range_bounds; lia).
  rewrite (wrap_id (t `div` w * w + w)) by (apply in_range_bounds; lia).
  rewrite wrap_id by (apply in_range_bounds; lia).
  do 2 f_equal. lia.
Qed.

(** C1, as stated, fails on the code.  With width 10 the timestamp -1 is
    given the range [0, 10), which does not contain it, and shares that
    range with the timestamp 1 although floor(-1/10) = -1 and floor(1/10) = 0;
    the largest timestamp is given a range whose end has wrapped around. *)
Lemma rangeKey_not_bucket_everywhere :
  rangeKey 10 (-1) = Some {| Start := 0; End := 10 |} ∧
  ¬ bucket_of 10 (-1) {| Start := 0; End := 10 |} ∧
  rangeKey 10 (-1) = rangeKey 10 1 ∧
  ((-1) `div` 10 ≠ 1 `div` 10)%Z ∧
  rangeKey 10 Int64.max_int =
    Some {| Start := 9223372036854775800; End := -9223372036854775806 |} ∧
  ¬ bucket_of 10 Int64.max_int
      {| Start := 9223372036854775800; End := -9223372036854775806 |}.
Proof.
  repeat split; try reflexivity.
  - unfold bucket_of; simpl. lia.
  - discriminate.
  - unfold bucket_of, Int64.max_int; simpl. lia.
Qed.

(** C1, amended: for every non-negative timestamp whose bucket ends within
    int64, the range of [getOrCreate] is the half-open interval of width
    [w] containing it, and two such timestamps get the same range exactly
    when their floor quotients by [w] agree. *)
Theorem rangeKey_bucket (w t t' : Z) :
  (0 < w)%Z → (0 ≤ t)%Z → (0 ≤ t')%Z →
  (t `div` w * w + w ≤ Int64.max_int)%Z →
  (t' `div` w * w + w ≤ Int64.max_int)%Z →
  ∃ r r', rangeKey w t = Some r ∧ rangeKey w t' = Some r' ∧
          bucket_of w t r ∧ bucket_of w t' r' ∧
          (r = r' ↔ (t `div` w = t' `div` w)%Z).
Proof.
  intros Hw Ht Ht' Hm Hm'.
  eexists _, _. split; [by apply rangeKey_nonneg|]. split; [by apply rangeKey_nonneg|].
  assert (Hb : ∀ x, (0 ≤ x)%Z →
            bucket_of w x {| Start := (x `div` w * w)%Z; End := (x `div` w * w + w)%Z |}).
  { intros x Hx. unfold bucket_of; simpl.
    pose proof (Z.mod_pos_bound x w Hw). pose proof (Z.div_mod x w ltac:(lia)). lia. }
  split; [by apply Hb|]. split; [by apply Hb|].
  split.
  - intros Heq. injection Heq as Heq _. nia.
  - intros ->. done.
Qed.

Lemma rangeKey_bucket_witness :
  ∃ r r', rangeKey 3600000 1000 = Some r ∧ rangeKey 3600000 3700000 = Some r' ∧
          bucket_of 3600000 1000 r ∧ bucket_of 3600000 3700000 r' ∧
          (r = r' ↔ (1000 `div` 3600000 = 3700000 `div` 3600000)%Z).
Proof.
  apply (rangeKey_bucket 3600000 1000 3700000); vm_compute; congruence.
Defined.

(** ** Combined errors *)

Lemma multiError_Add_Some_ne es e : multiError_Add es (Some e) ≠ [].
Proof. destruct e; simpl; by destruct es. Qed.

Lemma multiError_Add_app es err : multiError_Add es err = es ++ error_members err.
Proof. destruct err as [[]|]; simpl; by rewrite ?app_nil_r. Qed.

Lemma multiError_Err_None es : multiError_Err es = None ↔ es = [].
Proof. by destruct es. Qed.

Lemma error_members_nil err : error_members err = [] ↔ err = None.
Proof.
  split; [|by intros ->]. destruct err as [e|]; [|done].
  intros H. by destruct (multiError_Add_Some_ne [] e).
Qed.

(** The error the deferred function of [Import] leaves in [err]. *)
Lemma combined_None berr cerr :
  multiError_Err (multiError_Add (multiError_Add NewMulti berr) cerr) = None ↔
  berr = None ∧ cerr = None.
Proof.
  rewrite multiError_Err_None, !multiError_Add_app. unfold NewMulti. simpl.
  rewrite <- !error_members_nil.
  destruct (error_members berr), (error_members cerr); simpl; intuition discriminate.
Qed.

(** ** The import pipeline over any writer *)

Section ImportFacts.
Context {S : Type} (W : Writer S).

Lemma Import_loop_safe I p : safe W I →
  ∀ ref s, I s → ∃ s' r, Import_loop W p ref s = Some (s', r) ∧ I s'.
Proof.
  intros HW. induction p as [|st p IH]; intros ref s Hs; simpl.
  - eauto.
  - destruct st as [err|e l ts v].
    + destruct err; eauto.
    + case_decide; [by apply IH|].
      destruct ts as [t|]; [|eauto].
      destruct (safe_Append W I HW ref l t v s Hs) as (s' & [ref' err] & -> & Hs'). simpl.
      destruct err; eauto.
Qed.

Lemma Import_body_safe I p s : safe W I → I s →
  ∃ s' r, Import_body W p s = Some (s', r) ∧ I s'.
Proof.
  intros HW Hs. unfold Import_body.
  destruct (Import_loop_safe I p HW 0%N s Hs) as (s1 & r & -> & H1). simpl.
  destruct r; [eauto|].
  destruct (safe_Commit W I HW s1 H1) as (s2 & err & -> & H2). simpl.
  destruct err; [eauto|].
  destruct (safe_Flush W I HW s2 H2) as (s3 & [ids err] & -> & H3). simpl.
  destruct err; eauto.
Qed.

(** A failing body returns no identifiers. *)
Lemma Import_body_error p s s' ids err :
  Import_body W p s = Some (s', (ids, Some err)) → ids = [].
Proof.
  unfold Import_body. intros H.
  destruct (Import_loop W p 0%N s) as [[s1 [e|]]|]; simplify_eq/=; [done|].
  destruct (a_Commit W s1) as [[s2 [e|]]|]; simplify_eq/=; [done|].
  destruct (w_Flush W s2) as [[s3 [ids' [e|]]]|]; by simplify_eq/=.
Qed.

(** A body without error has reached the end of the input, committed,
    and returns what flush returned. *)
Lemma Import_body_success p s s' ids :
  Import_body W p s = Some (s', (ids, None)) →
  ∃ s1 s2, Import_loop W p 0%N s = Some (s1, None) ∧
           a_Commit W s1 = Some (s2, None) ∧
           w_Flush W s2 = Some (s', (ids, None)).
Proof.
  unfold Import_body. intros H.
  destruct (Import_loop W p 0%N s) as [[s1 [e|]]|] eqn:HL; simplify_eq/=.
  destruct (a_Commit W s1) as [[s2 [e|]]|] eqn:HC; simplify_eq/=.
  destruct (w_Flush W s2) as [[s3 [ids' [e|]]]|] eqn:HF; simplify_eq/=.
  eauto.
Qed.

(** [Import] is its body followed by the deferred close. *)
Lemma Import_unfold p s s0 s1 s2 r cerr :
  w_Appender W s = Some s0 →
  Import_body W p s0 = Some (s1, r) →
  w_Close W s1 = Some (s2, cerr) →
  Import W p s =
    Some (s2, (r.1, multiError_Err (multiError_Add (multiError_Add NewMulti r.2) cerr))).
Proof.
  intros HA HB HC. unfold Import. rewrite HA. simpl. rewrite HB. simpl.
  destruct r as [ids err]. rewrite HC. done.
Qed.

Lemma Import_safe I p s : safe W I → I s →
  ∃ s0 s1 s2 r cerr,
    w_Appender W s = Some s0 ∧ Import_body W p s0 = Some (s1, r) ∧
    w_Close W s1 = Some (s2, cerr) ∧ I s2.
Proof.
  intros HW Hs.
  destruct (safe_Appender W I HW s Hs) as (s0 & HA & H0).
  destruct (Import_body_safe I p s0 HW H0) as (s1 & r & HB & H1).
  destruct (safe_Close W I HW s1 H1) as (s2 & cerr & HC & H2).
  eauto 10.
Qed.

(** The loop over a prefix that is passed continues with the rest. *)
Lemma consume_loop pre : ∀ ref s s' ref' q,
  consume W pre ref s = Some (s', ref') →
  Import_loop W (pre ++ q) ref s = Import_loop W q ref' s'.
Proof.
  induction pre as [|st pre IH]; intros ref s s' ref' q H; simpl in *.
  - by simplify_eq.
  - destruct st as [err|e l ts v]; [done|].
    case_decide; [by apply IH|].
    destruct ts as [t|]; [|done].
    destruct (a_Append W ref l t v s) as [[s1 [ref1 [err|]]]|]; simplify_eq/=.
    by apply IH.
Qed.

End ImportFacts.

(** C3, as stated, fails on the code: a run in which flush succeeds and
    close fails returns the flushed identifier together with the close
    error.  Here the coordinator of width 10 imports one sample at 5 into
    a head whose [Close] reports "disk full". *)
Lemma Import_ids_with_close_error :
  snd <$> Import MultiWriter_Writer
            [StepEntry EntrySeries Examples.up (Some 5%Z) 1%N]
            (Examples.start, Examples.close_fails)
  = Some ([1%N], Some (nonNilMultiError (errors_New "disk full") [])).
Proof. reflexivity. Qed.

Section ImportCases.
Context {S : Type} (W : Writer S) (I : S → Prop).
Hypothesis HW : safe W I.

(** How the loop is left, read off the input and the answers of the
    target: after a prefix that was passed, the input ends, or the parser
    fails, or a series entry has no timestamp, or an append is rejected. *)
Lemma Import_loop_cases p : ∀ ref s, I s →
  ∃ pre s1 ref1,
    consume W pre ref s = Some (s1, ref1) ∧ I s1 ∧
    ((ended p pre ∧ Import_loop W p ref s = Some (s1, None))
     ∨ (∃ e post, p = pre ++ StepErr e :: post ∧ e ≠ io_EOF ∧
          Import_loop W p ref s = Some (s1, Some (errors_Wrap e "parse")))
     ∨ (∃ l v post, p = pre ++ StepEntry EntrySeries l None v :: post ∧
          Import_loop W p ref s = Some (s1, Some (MissingTimestampError l)))
     ∨ (∃ l t v post s1' ref' e,
          p = pre ++ StepEntry EntrySeries l (Some t) v :: post ∧
          a_Append W ref1 l t v s1 = Some (s1', (ref', Some e)) ∧ I s1' ∧
          Import_loop W p ref s = Some (s1', Some (errors_Wrap e "add sample")))).
Proof using HW.
  induction p as [|st p IH]; intros ref s Hs.
  - exists [], s, ref. split; [done|]. split; [done|]. left. split; [by left|done].
  - destruct st as [err|e l ts v].
    + exists [], s, ref. split; [done|]. split; [done|].
      destruct err as [|msg|fmt arg|e0 msg|e0 es];
        [left; split; [right; by exists p|done]|..];
        right; left; eexists _, p; by repeat split.
    + destruct (decide (e ≠ EntrySeries)) as [He|He].
      * destruct (IH ref s Hs) as (pre & s1 & ref1 & Hpre & Hs1 & Hcases).
        exists (StepEntry e l ts v :: pre), s1, ref1.
        split; [simpl; by rewrite decide_True|]. split; [done|].
        simpl. rewrite decide_True by done.
        destruct Hcases as [[Hend HL]|[(e' & post & -> & ? & HL)
                           |[(l' & v' & post & -> & HL)
                           |(l' & t' & v' & post & s1' & ref' & e' & -> & ? & ? & HL)]]].
        -- left. split; [|done]. destruct Hend as [->|[post ->]]; [by left|right; by exists post].
        -- right. left. by exists e', post.
        -- right. right. left. by exists l', v', post.
        -- right. right. right. by exists l', t', v', post, s1', ref', e'.
      * assert (He' : e = EntrySeries)
          by (by destruct (decide (e = EntrySeries)); [|exfalso; auto]).
        destruct ts as [t|].
        -- destruct (safe_Append W I HW ref l t v s Hs) as (s' & [ref' err] & HA & Hs').
           destruct err as [err|].
           ++ exists [], s, ref. split; [done|]. split; [done|].
              right. right. right. exists l, t, v, p, s', ref', err.
              split; [by rewrite He'|]. split; [done|]. split; [done|].
              simpl. rewrite decide_False by done. by rewrite HA.
           ++ destruct (IH ref' s' Hs') as (pre & s1 & ref1 & Hpre & Hs1 & Hcases).
              exists (StepEntry e l (Some t) v :: pre), s1, ref1.
              split; [simpl; rewrite decide_False by done; by rewrite HA|]. split; [done|].
              simpl. rewrite decide_False by done. rewrite HA. simpl.
              destruct Hcases as [[Hend HL]|[(e' & post & -> & ? & HL)
                                 |[(l' & v' & post & -> & HL)
                                 |(l' & t' & v' & post & s1' & ref'' & e' & -> & ? & ? & HL)]]].
              ** left. split; [|done].
                 destruct Hend as [->|[post ->]]; [by left|right; by exists post].
              ** right. left. by exists e', post.
              ** right. right. left. by exists l', v', post.
              ** right. right. right. by exists l', t', v', post, s1', ref'', e'.
        -- exists [], s, ref. split; [done|]. split; [done|].
           right. right. left. exists l, v, p. split; [by rewrite He'|].
           simpl. by rewrite decide_False.
Qed.

End ImportCases.

(** C3, amended: a run on a target that does not panic returns, and is of
    one of six kinds, told apart by the input and by what the target
    answered.  After a prefix of the input that was passed: the parser
    fails, or a series entry has no timestamp, or the append of the next
    sample fails; or the input ends and the commit fails; or the commit
    succeeds and the flush fails: in each of these the run returns no
    identifier and that error, wrapped with the name of the step, combined
    with the result of close, hence a non-nil error.  Or the commit and
    the flush succeed: the run returns the identifiers flush returned, and
    the error is that of close alone, nil exactly when close succeeds. *)
Theorem Import_ids_or_error {S : Type} (W : Writer S) (I : S → Prop) (p : Parser) (s : S) :
  safe W I → I s →
  ∃ s0 pre s1 ref1 sc s2 cerr ids err,
    w_Appender W s = Some s0 ∧
    consume W pre 0%N s0 = Some (s1, ref1) ∧
    w_Close W sc = Some (s2, cerr) ∧
    Import W p s = Some (s2, (ids, err)) ∧
    ((∃ e post,
        p = pre ++ StepErr e :: post ∧ e ≠ io_EOF ∧ sc = s1 ∧ ids = [] ∧
        err = Some (nonNilMultiError (errors_Wrap e "parse") (error_members cerr)))
     ∨ (∃ l v post,
        p = pre ++ StepEntry EntrySeries l None v :: post ∧ sc = s1 ∧ ids = [] ∧
        err = Some (nonNilMultiError (MissingTimestampError l) (error_members cerr)))
     ∨ (∃ l t v post ref' e,
        p = pre ++ StepEntry EntrySeries l (Some t) v :: post ∧
        a_Append W ref1 l t v s1 = Some (sc, (ref', Some e)) ∧ ids = [] ∧
        err = Some (nonNilMultiError (errors_Wrap e "add sample") (error_members cerr)))
     ∨ (∃ e,
        ended p pre ∧ a_Commit W s1 = Some (sc, Some e) ∧ ids = [] ∧
        err = Some (nonNilMultiError (errors_Wrap e "commit") (error_members cerr)))
     ∨ (∃ sb ids' e,
        ended p pre ∧ a_Commit W s1 = Some (sb, None) ∧
        w_Flush W sb = Some (sc, (ids', Some e)) ∧ ids = [] ∧
        err = Some (nonNilMultiError (errors_Wrap e "flush") (error_members cerr)))
     ∨ (∃ sb,
        ended p pre ∧ a_Commit W s1 = Some (sb, None) ∧
        w_Flush W sb = Some (sc, (ids, None)) ∧
        err = multiError_Err (error_members cerr) ∧ (err = None ↔ cerr = None))).
Proof.
  intros HW Hs.
  destruct (safe_Appender W I HW s Hs) as (s0 & HA & H0).
  destruct (Import_loop_cases W I HW p 0%N s0 H0) as (pre & s1 & ref1 & Hpre & H1 & Hcases).
  assert (Hfail : ∀ sc e, I sc → Import_loop W p 0%N s0 = Some (sc, Some e) →
            ∃ s2 cerr, w_Close W sc = Some (s2, cerr) ∧
              Import W p s = Some (s2, ([], multiError_Err (multiError_Add
                               (multiError_Add NewMulti (Some e)) cerr)))).
  { intros sc e Hsc HL. destruct (safe_Close W I HW sc Hsc) as (s2 & cerr & HC & _).
    exists s2, cerr. split; [done|].
    apply (Import_unfold W p s s0 sc s2 ([], Some e) cerr HA); [|done].
    unfold Import_body. by rewrite HL. }
  assert (Hwrap : ∀ e cerr, (∃ e0 msg, e = errors_Wrap e0 msg) ∨ (∃ f a, e = errors_Errorf f a) →
            multiError_Err (multiError_Add (multiError_Add NewMulti (Some e)) cerr)
            = Some (nonNilMultiError e (error_members cerr))).
  { intros e cerr He. rewrite (multiError_Add_app _ cerr).
    by destruct He as [(? & ? & ->)|(? & ? & ->)]. }
  destruct Hcases as [[Hend HL]|[(e & post & -> & Hne & HL)
                     |[(l & v & post & -> & HL)
                     |(l & t & v & post & s1' & ref' & e & -> & HAp & Hs1' & HL)]]].
  - destruct (safe_Commit W I HW s1 H1) as (sb & cres & HCo & Hsb).
    destruct cres as [e|].
    { destruct (safe_Close W I HW sb Hsb) as (s2 & cerr & HC & _).
      exists s0, pre, s1, ref1, sb, s2, cerr, []. eexists.
      split; [done|]. split; [done|]. split; [done|].
      split. { apply (Import_unfold W p s s0 sb s2 ([], Some (errors_Wrap e "commit")) cerr HA);
                 [|done]. unfold Import_body. rewrite HL. simpl. by rewrite HCo. }
      do 3 right. left. exists e. split; [done|]. split; [done|]. split; [done|].
      cbn [fst snd]. apply Hwrap. left. eauto. }
    destruct (safe_Flush W I HW sb Hsb) as (sc & [ids ferr] & HF & Hsc).
    destruct (safe_Close W I HW sc Hsc) as (s2 & cerr & HC & _).
    destruct ferr as [e|].
    + exists s0, pre, s1, ref1, sc, s2, cerr, []. eexists.
      split; [done|]. split; [done|]. split; [done|].
      split. { apply (Import_unfold W p s s0 sc s2 ([], Some (errors_Wrap e "flush")) cerr HA);
                 [|done]. unfold Import_body. rewrite HL. simpl. rewrite HCo. simpl.
               by rewrite HF. }
      do 4 right. left. exists sb, ids, e. split; [done|]. split; [done|]. split; [done|].
      split; [done|]. cbn [fst snd]. apply Hwrap. left. eauto.
    + exists s0, pre, s1, ref1, sc, s2, cerr, ids. eexists.
      split; [done|]. split; [done|]. split; [done|].
      split. { apply (Import_unfold W p s s0 sc s2 (ids, None) cerr HA); [|done].
               unfold Import_body. rewrite HL. simpl. rewrite HCo. simpl. by rewrite HF. }
      do 5 right. exists sb. split; [done|]. split; [done|]. split; [done|]. simpl.
      split; [done|].
      rewrite multiError_Err_None. apply error_members_nil.
  - destruct (Hfail s1 _ H1 HL) as (s2 & cerr & HC & HI).
    exists s0, pre, s1, ref1, s1, s2, cerr, []. eexists.
    split; [done|]. split; [done|]. split; [done|]. split; [exact HI|].
    left. exists e, post. split; [done|]. split; [done|]. split; [done|]. split; [done|].
    apply Hwrap. left. eauto.
  - destruct (Hfail s1 _ H1 HL) as (s2 & cerr & HC & HI).
    exists s0, pre, s1, ref1, s1, s2, cerr, []. eexists.
    split; [done|]. split; [done|]. split; [done|]. split; [exact HI|].
    right. left. exists l, v, post. split; [done|]. split; [done|]. split; [done|].
    apply Hwrap. right. unfold MissingTimestampError. eauto.
  - destruct (Hfail s1' _ Hs1' HL) as (s2 & cerr & HC & HI).
    exists s0, pre, s1, ref1, s1', s2, cerr, []. eexists.
    split; [done|]. split; [done|]. split; [done|]. split; [exact HI|].
    right. right. left. exists l, t, v, post, ref', e.
    split; [done|]. split; [done|]. split; [done|]. apply Hwrap. left. eauto.
Qed.

Lemma stub_safe ids cerr : safe (stub ids cerr) (λ _, True).
Proof. split; intros; simpl; eauto. Qed.

Lemma Import_ids_or_error_witness :
  let W := scripted None None ([7%N], None) (Some (errors_New "disk full")) in
  let p := [StepEntry EntrySeries [] (Some 5%Z) 1%N; StepErr (errors_New "bad line");
            StepEntry EntrySeries [] (Some 6%Z) 2%N] in
  ∃ s0 pre s1 ref1 sc s2 cerr ids err,
    w_Appender W 0 = Some s0 ∧
    consume W pre 0%N s0 = Some (s1, ref1) ∧
    w_Close W sc = Some (s2, cerr) ∧
    Import W p 0 = Some (s2, (ids, err)) ∧
    ((∃ e post,
        p = pre ++ StepErr e :: post ∧ e ≠ io_EOF ∧ sc = s1 ∧ ids = [] ∧
        err = Some (nonNilMultiError (errors_Wrap e "parse") (error_members cerr)))
     ∨ (∃ l v post,
        p = pre ++ StepEntry EntrySeries l None v :: post ∧ sc = s1 ∧ ids = [] ∧
        err = Some (nonNilMultiError (MissingTimestampError l) (error_members cerr)))
     ∨ (∃ l t v post ref' e,
        p = pre ++ StepEntry EntrySeries l (Some t) v :: post ∧
        a_Append W ref1 l t v s1 = Some (sc, (ref', Some e)) ∧ ids = [] ∧
        err = Some (nonNilMultiError (errors_Wrap e "add sample") (error_members cerr)))
     ∨ (∃ e,
        ended p pre ∧ a_Commit W s1 = Some (sc, Some e) ∧ ids = [] ∧
        err = Some (nonNilMultiError (errors_Wrap e "commit") (error_members cerr)))
     ∨ (∃ sb ids' e,
        ended p pre ∧ a_Commit W s1 = Some (sb, None) ∧
        w_Flush W sb = Some (sc, (ids', Some e)) ∧ ids = [] ∧
        err = Some (nonNilMultiError (errors_Wrap e "flush") (error_members cerr)))
     ∨ (∃ sb,
        ended p pre ∧ a_Commit W s1 = Some (sb, None) ∧
        w_Flush W sb = Some (sc, (ids, None)) ∧
        err = multiError_Err (error_members cerr) ∧ (err = None ↔ cerr = None))).
Proof.
  apply (Import_ids_or_error (scripted None None ([7%N], None) (Some (errors_New "disk full")))
           (λ _, True)
           [StepEntry EntrySeries [] (Some 5%Z) 1%N; StepErr (errors_New "bad line");
            StepEntry EntrySeries [] (Some 6%Z) 2%N] 0).
  - split; intros; simpl; eauto.
  - exact Logic.I.
Defined.

(** ** The calls of the pipeline *)

Section SpyFacts.
Context {S : Type} (W : Writer S).

Lemma spy_safe I : safe W I → safe (spy W) (λ sl, I sl.1).
Proof.
  intros HW. split.
  - intros [s log] Hs. destruct (safe_Appender W I HW s Hs) as (s' & H & Hs').
    simpl. rewrite H. simpl. eauto.
  - intros ref l t v [s log] Hs.
    destruct (safe_Append W I HW ref l t v s Hs) as (s' & res & H & Hs').
    simpl. rewrite H. simpl. eauto.
  - intros [s log] Hs. destruct (safe_Commit W I HW s Hs) as (s' & res & H & Hs').
    simpl. rewrite H. simpl. eauto.
  - intros [s log] Hs. destruct (safe_Flush W I HW s Hs) as (s' & res & H & Hs').
    simpl. rewrite H. simpl. eauto.
  - intros [s log] Hs. destruct (safe_Close W I HW s Hs) as (s' & res & H & Hs').
    simpl. rewrite H. simpl. eauto.
Qed.

(** The loop only appends; what it does to the target does not depend
    on the log. *)
Lemma spy_loop p : ∀ ref s log s' log' r,
  Import_loop (spy W) p ref (s, log) = Some ((s', log'), r) →
  Import_loop W p ref s = Some (s', r) ∧
  ∃ new, log' = log ++ new ∧ Forall (λ c, is_CallAppend c = true) new.
Proof.
  induction p as [|st p IH]; intros ref s log s' log' r H; simpl in *.
  - simplify_eq. split; [done|]. exists []. by rewrite app_nil_r.
  - destruct st as [err|e l ts v].
    + assert (log' = log ∧ Import_loop W (StepErr err :: p) ref s = Some (s', r)) as [-> ?].
      { destruct err; simplify_eq/=; done. }
      split; [done|]. exists []. by rewrite app_nil_r.
    + case_decide; [by apply IH|].
      destruct ts as [t|].
      * destruct (a_Append W ref l t v s) as [[s1 [ref1 err]]|] eqn:HA; simplify_eq/=.
        destruct err as [err|]; simplify_eq/=.
        -- split; [done|]. eexists [_]. split; [done|]. by repeat constructor.
        -- apply IH in H as (HL & new & -> & Hnew). split; [done|].
           eexists (_ :: new). rewrite <- app_assoc. split; [done|].
           by constructor.
      * simplify_eq. split; [done|]. exists []. by rewrite app_nil_r.
Qed.

Lemma spy_body p s log s' log' r :
  Import_body (spy W) p (s, log) = Some ((s', log'), r) →
  Import_body W p s = Some (s', r) ∧
  ∃ new, log' = log ++ new ∧ Forall (λ c, is_CallClose c = false) new.
Proof.
  unfold Import_body. intros H.
  destruct (Import_loop (spy W) p 0%N (s, log)) as [[[s1 log1] r1]|] eqn:HL; simplify_eq/=.
  apply spy_loop in HL as (-> & new1 & -> & Hnew1). simpl.
  assert (Hc1 : Forall (λ c, is_CallClose c = false) new1).
  { eapply Forall_impl; [done|]. by intros []. }
  destruct r1 as [e|]; simplify_eq/=.
  { split; [done|]. by exists new1. }
  destruct (a_Commit W s1) as [[s2 err]|] eqn:HC; simplify_eq/=.
  destruct err as [e|]; simplify_eq/=.
  { split; [done|]. eexists (new1 ++ [_]). rewrite app_assoc. split; [done|].
    apply Forall_app; split; [done|by repeat constructor]. }
  destruct (w_Flush W s2) as [[s3 [ids err]]|] eqn:HF; simplify_eq/=.
  destruct err as [e|]; simplify_eq/=.
  - split; [done|]. eexists (new1 ++ [_; _]). rewrite <- !app_assoc. split; [done|].
    apply Forall_app; split; [done|by repeat constructor].
  - split; [done|]. eexists (new1 ++ [_; _]). rewrite <- !app_assoc. split; [done|].
    apply Forall_app; split; [done|by repeat constructor].
Qed.


Lemma spy_consume pre : ∀ ref s log s' ref',
  consume W pre ref s = Some (s', ref') →
  ∃ new, consume (spy W) pre ref (s, log) = Some ((s', log ++ new), ref') ∧
         Forall (λ c, is_CallAppend c = true) new ∧
         appended_timestamps new = series_timestamps pre.
Proof.
  induction pre as [|st pre IH]; intros ref s log s' ref' H; simpl in *.
  - simplify_eq. exists []. by rewrite app_nil_r.
  - destruct st as [err|e l ts v]; [done|].
    unfold series_timestamps. simpl. fold (series_timestamps pre).
    case_decide as He.
    + rewrite decide_False by done. by apply IH.
    + rewrite decide_True by (by destruct (decide (e = EntrySeries)); [|exfalso; auto]).
      destruct ts as [t|]; [|done].
      destruct (a_Append W ref l t v s) as [[s1 [ref1 [err|]]]|] eqn:HA; simplify_eq/=.
      destruct (IH ref1 s1 (log ++ [CallAppend ref l t v (ref1, None)]) s' ref' H)
        as (new & -> & Hnew & Hts).
      eexists (_ :: new). rewrite <- app_assoc. split; [done|].
      split; [by constructor|]. unfold appended_timestamps in *. simpl. f_equal. exact Hts.
Qed.

End SpyFacts.

Lemma error_members_Err es : error_members (multiError_Err es) = es.
Proof. by destruct es. Qed.

(** C7: when the pipeline comes to a series entry that carries no
    timestamp, it stops there: it returns no identifier and the
    missing-timestamp error for the labels of that entry (combined with
    the result of close), makes no append call for the entry, so that the
    timestamps appended are those of the entries before it, and calls
    neither commit nor flush. *)
Theorem Import_missing_timestamp {S : Type} (W : Writer S)
    (pre post : Parser) (l : Labels) (v : float64) (s s0 s1 s2 : S)
    (ref1 : SeriesRef) (cerr : option error) :
  w_Appender W s = Some s0 →
  consume W pre 0%N s0 = Some (s1, ref1) →
  w_Close W s1 = Some (s2, cerr) →
  let input := pre ++ StepEntry EntrySeries l None v :: post in
  let result := ([], Some (nonNilMultiError (MissingTimestampError l) (error_members cerr))) in
  Import W input s = Some (s2, result) ∧
  ∃ log, Import (spy W) input (s, []) = Some ((s2, log), result) ∧
         Forall (λ c, is_CallCommit c = false ∧ is_CallFlush c = false) log ∧
         appended_timestamps log = series_timestamps pre.
Proof.
  intros HA Hpre HC input result.
  assert (Hres : ∀ e, multiError_Err (multiError_Add (multiError_Add NewMulti (Some (MissingTimestampError l))) e)
                 = Some (nonNilMultiError (MissingTimestampError l) (error_members e))).
  { intros e. rewrite (multiError_Add_app _ e). done. }
  split.
  - unfold Import. rewrite HA. simpl. unfold Import_body, input.
    rewrite (consume_loop W pre _ _ _ _ _ Hpre). simpl.
    rewrite HC. simpl. by rewrite Hres.
  - destruct (spy_consume W pre 0%N s0 [CallAppender] s1 ref1 Hpre) as (new & Hnew & Happ & Hts).
    exists ((CallAppender :: new) ++ [CallClose cerr]). split; [|split].
    + unfold Import. simpl. rewrite HA. simpl. unfold Import_body, input.
      rewrite (consume_loop (spy W) pre _ _ _ _ _ Hnew). simpl.
        rewrite HC. simpl. by rewrite Hres.
    + apply Forall_app. split; [|by repeat constructor].
      constructor; [done|]. eapply Forall_impl; [exact Happ|]. by intros [].
    + unfold appended_timestamps in *. rewrite omap_app. simpl. by rewrite app_nil_r.
Qed.

Lemma Import_missing_timestamp_witness :
  let W := stub [7%N] None in
  let pre := [StepEntry 0%Z [] None 0%N; StepEntry EntrySeries [("a", "b")] (Some 5%Z) 1%N] in
  let input := pre ++ StepEntry EntrySeries [("c", "d")] None 2%N :: [] in
  let result := ([], Some (nonNilMultiError (MissingTimestampError [("c", "d")])
                                              (error_members None))) in
  Import W input tt = Some (tt, result) ∧
  ∃ log, Import (spy W) input (tt, []) = Some ((tt, log), result) ∧
         Forall (λ c, is_CallCommit c = false ∧ is_CallFlush c = false) log ∧
         appended_timestamps log = series_timestamps pre.
Proof.
  apply (Import_missing_timestamp (stub [7%N] None)
           [StepEntry 0%Z [] None 0%N; StepEntry EntrySeries [("a", "b")] (Some 5%Z) 1%N]
           [] [("c", "d")] 2%N tt tt tt tt 0%N None); reflexivity.
Defined.

(** ** Steps of the machine *)

Section MachineFacts.
Context `{E : Engine}.

Lemma bind_eq {A B} (c : M A) (k : A → M B) m m1 a :
  c m = Some (m1, a) → (c ≫= k) m = k a m1.
Proof. intros H. unfold mbind, M_bind, bind. by rewrite H. Qed.

Lemma bind_Some {A B} (c : M A) (k : A → M B) m m' b :
  (c ≫= k) m = Some (m', b) → ∃ m1 a, c m = Some (m1, a) ∧ k a m1 = Some (m', b).
Proof.
  unfold mbind, M_bind, bind. destruct (c m) as [[m1 a]|]; [eauto|done].
Qed.

Lemma extends_refl m : extends m m [].
Proof. split; [by rewrite app_nil_r|done]. Qed.

Lemma extends_trans m1 m2 m3 new1 new2 :
  extends m1 m2 new1 → extends m2 m3 new2 → extends m1 m3 (new1 ++ new2).
Proof.
  intros [H1 D1] [H2 D2]. split; [by rewrite H2, H1, app_assoc|by etrans].
Qed.

Lemma emit_spec e m :
  ∃ m', emit e m = Some (m', tt) ∧ extends m m' [e] ∧ heads m' = heads m ∧ os m' = os m.
Proof. eexists. split; [done|]. by repeat split. Qed.

Lemma sys_spec {A} (f : World → World * A) m :
  sys f m = Some (mkMachine ((f (os m)).1) (heads m) (trace m), (f (os m)).2).
Proof. unfold sys. by destruct (f (os m)). Qed.

Lemma onHead_spec {A} (f : Head → World → Head * World * A) h hd m :
  heads m !! h = Some hd →
  onHead (Some h) f m =
    Some (mkMachine ((f hd (os m)).1.2) (<[h := (f hd (os m)).1.1]> (heads m)) (trace m),
          (f hd (os m)).2).
Proof. intros H. unfold onHead. rewrite H. by destruct (f hd (os m)) as [[??]?]. Qed.

Lemma onHead_extends {A} (f : Head → World → Head * World * A) h m :
  h ∈ dom (heads m) →
  ∃ m' a, onHead (Some h) f m = Some (m', a) ∧ extends m m' [] ∧
          dom (heads m') = dom (heads m).
Proof.
  intros [hd Hhd]%elem_of_dom. rewrite (onHead_spec f h hd m Hhd).
  eexists _, _. split; [done|]. simpl.
  assert (dom (<[h := (f hd (os m)).1.1]> (heads m)) = dom (heads m)) as Hd.
  { apply dom_insert_lookup_L. eauto. }
  split; [|done]. split; simpl; [by rewrite app_nil_r|by rewrite Hd].
Qed.

Lemma readHead_spec {A} (f : Head → A) h hd m :
  heads m !! h = Some hd → readHead (Some h) f m = Some (m, f hd).
Proof. intros H. unfold readHead. by rewrite H. Qed.

(** Creating a builder never panics; it leaves the trace alone and, when
    it succeeds, the builder has a head that was not allocated before. *)
Lemma NewTSDBWriter_spec d l m :
  ∃ m' nw err, NewTSDBWriter d l m = Some (m', (nw, err)) ∧ extends m m' [] ∧
    (err = None → ∃ h, tw_head nw = Some h ∧ (h ∉ dom (heads m)) ∧ h ∈ dom (heads m')).
Proof.
  unfold NewTSDBWriter, initHead.
  rewrite (bind_eq _ _ _ _ _ (sys_spec _ m)).
  destruct (ioutil_TempDir (os_TempDir (os m)) "head" (os m)) as [σ1 [err|tmp]] eqn:HT; simpl.
  { eexists _, _, _. split; [done|]. split; [split; simpl; [by rewrite app_nil_r|done]|done]. }
  unfold mbind at 1, M_bind, bind at 1, newHead. simpl.
  destruct (tsdb_NewHead _ σ1) as [σ2 [err|hd]] eqn:HN; simpl.
  { eexists _, _, _. split; [done|]. split; [split; simpl; [by rewrite app_nil_r|done]|done]. }
  set (h := fresh (dom (heads m))).
  assert (Hfresh : h ∉ dom (heads m)) by apply is_fresh.
  erewrite bind_eq; [|apply onHead_spec; simpl; apply lookup_insert_eq].
  simpl. eexists _, _, _. split; [done|]. split.
  - split; simpl; [by rewrite app_nil_r|]. rewrite !dom_insert_L. set_solver.
  - intros _. exists h. split; [done|]. split; [done|]. simpl.
    rewrite !dom_insert_L. set_solver.
Qed.

Lemma TSDBWriter_Appender_spec b h m :
  tw_head b = Some h → h ∈ dom (heads m) →
  ∃ m', TSDBWriter_Appender b m = Some (m', headAppender h) ∧ extends m m' [].
Proof.
  intros Hb Hh. unfold TSDBWriter_Appender. rewrite Hb.
  destruct (onHead_extends Head_Appender h m Hh) as (m' & [] & Hon & Hext & _).
  rewrite (bind_eq _ _ _ _ _ Hon). eauto.
Qed.

(** A call through a head's handle returns and is recorded. *)
Lemma Appender_Append_spec h ref l t v m :
  h ∈ dom (heads m) →
  ∃ m' res, Appender_Append (headAppender h) ref l t v m = Some (m', res) ∧
            extends m m' [EvAppend (headAppender h) ref l t v res].
Proof.
  intros Hh. unfold Appender_Append.
  destruct (onHead_extends (headAppender_Append ref l t v) h m Hh) as (m1 & res & Hon & Hext & _).
  rewrite (bind_eq _ _ _ _ _ Hon).
  destruct (emit_spec (EvAppend (headAppender h) ref l t v res) m1) as (m2 & Hem & Hext2 & _).
  rewrite (bind_eq _ _ _ _ _ Hem). eexists _, _. split; [done|].
  apply (extends_trans _ _ _ [] _ Hext Hext2).
Qed.

Lemma Appender_AppendExemplar_spec h ref l e m :
  h ∈ dom (heads m) →
  ∃ m' res, Appender_AppendExemplar (headAppender h) ref l e m = Some (m', res) ∧
            extends m m' [EvAppendExemplar (headAppender h) ref l e res].
Proof.
  intros Hh. unfold Appender_AppendExemplar.
  destruct (onHead_extends (headAppender_AppendExemplar ref l e) h m Hh)
    as (m1 & res & Hon & Hext & _).
  rewrite (bind_eq _ _ _ _ _ Hon).
  destruct (emit_spec (EvAppendExemplar (headAppender h) ref l e res) m1)
    as (m2 & Hem & Hext2 & _).
  rewrite (bind_eq _ _ _ _ _ Hem). eexists _, _. split; [done|].
  apply (extends_trans _ _ _ [] _ Hext Hext2).
Qed.

Lemma Appender_Commit_spec h m :
  h ∈ dom (heads m) →
  ∃ m' res, Appender_Commit (headAppender h) m = Some (m', res) ∧
            extends m m' [EvCommit (headAppender h) res].
Proof.
  intros Hh. unfold Appender_Commit.
  destruct (onHead_extends headAppender_Commit h m Hh) as (m1 & res & Hon & Hext & _).
  rewrite (bind_eq _ _ _ _ _ Hon).
  destruct (emit_spec (EvCommit (headAppender h) res) m1) as (m2 & Hem & Hext2 & _).
  rewrite (bind_eq _ _ _ _ _ Hem). eexists _, _. split; [done|].
  apply (extends_trans _ _ _ [] _ Hext Hext2).
Qed.

Lemma Appender_Rollback_spec h m :
  h ∈ dom (heads m) →
  ∃ m' res, Appender_Rollback (headAppender h) m = Some (m', res) ∧
            extends m m' [EvRollback (headAppender h) res].
Proof.
  intros Hh. unfold Appender_Rollback.
  destruct (onHead_extends headAppender_Rollback h m Hh) as (m1 & res & Hon & Hext & _).
  rewrite (bind_eq _ _ _ _ _ Hon).
  destruct (emit_spec (EvRollback (headAppender h) res) m1) as (m2 & Hem & Hext2 & _).
  rewrite (bind_eq _ _ _ _ _ Hem). eexists _, _. split; [done|].
  apply (extends_trans _ _ _ [] _ Hext Hext2).
Qed.

(** The placeholder answers every method with the error it holds and
    touches nothing. *)
Lemma errAppender_spec err ref l t v e m :
  (∃ m', Appender_Append (errAppender err) ref l t v m = Some (m', (0%N, Some err)) ∧
         heads m' = heads m ∧ os m' = os m) ∧
  (∃ m', Appender_AppendExemplar (errAppender err) ref l e m = Some (m', (0%N, Some err)) ∧
         heads m' = heads m ∧ os m' = os m) ∧
  (∃ m', Appender_Commit (errAppender err) m = Some (m', Some err) ∧
         heads m' = heads m ∧ os m' = os m) ∧
  (∃ m', Appender_Rollback (errAppender err) m = Some (m', Some err) ∧
         heads m' = heads m ∧ os m' = os m).
Proof. repeat split; by eexists. Qed.

(** [Flush] on a head without series: the error, no identifier, and the
    machine as it was. *)
Lemma TSDBWriter_Flush_empty b h hd m :
  tw_head b = Some h → heads m !! h = Some hd → Head_NumSeries hd = 0%Z →
  TSDBWriter_Flush b m = Some (m, ([], Some EmptyBuilderError)).
Proof.
  intros Hb Hhd Hn. unfold TSDBWriter_Flush. rewrite Hb.
  rewrite (bind_eq _ _ _ _ _ (readHead_spec Head_NumSeries h hd m Hhd)).
  rewrite (bind_eq _ _ _ _ _ (readHead_spec Head_NumSeries h hd m Hhd)).
  by rewrite decide_True.
Qed.

(** [Flush] on a head with series goes on to the compactor: it returns
    one identifier, or a wrapped error of one of the later steps. *)
Lemma TSDBWriter_Flush_nonempty b h hd m :
  tw_head b = Some h → heads m !! h = Some hd → Head_NumSeries hd ≠ 0%Z →
  ∃ m' ids err, TSDBWriter_Flush b m = Some (m', (ids, err)) ∧
    heads m' = heads m ∧ trace m' = trace m ∧
    ((err = None ∧ ∃ id, ids = [id]) ∨
     (ids = [] ∧ ∃ e msg, err = Some (errors_Wrap e msg))).
Proof.
  intros Hb Hhd Hn. unfold TSDBWriter_Flush. rewrite Hb.
  rewrite (bind_eq _ _ _ _ _ (readHead_spec Head_NumSeries h hd m Hhd)).
  rewrite (bind_eq _ _ _ _ _ (readHead_spec Head_NumSeries h hd m Hhd)).
  rewrite decide_False by done.
  rewrite (bind_eq _ _ _ _ _ (readHead_spec Head_MinTime h hd m Hhd)).
  rewrite (bind_eq _ _ _ _ _ (readHead_spec _ h hd m Hhd)).
  rewrite (bind_eq _ _ _ _ _ (sys_spec _ m)).
  destruct (tsdb_NewLeveledCompactor [DurToMillis_2h] (os m)) as [σ1 [err|c]]; simpl.
  { eexists _, _, _. split; [done|]. simpl. eauto 10. }
  erewrite bind_eq; [|by apply readHead_spec]. simpl.
  erewrite bind_eq; [|by apply sys_spec]. simpl.
  destruct (Compactor_Write c (tw_dir b) hd _ _ σ1) as [σ2 [err|id]]; simpl.
  { eexists _, _, _. split; [done|]. simpl. eauto 10. }
  erewrite bind_eq; [|by apply sys_spec]. simpl.
  destruct (metadata_ReadFromDir _ σ2) as [σ3 [err|meta]]; simpl.
  { eexists _, _, _. split; [done|]. simpl. eauto 10. }
  erewrite bind_eq; [|by apply sys_spec]. simpl.
  destruct (Meta_WriteToDir _ _ σ3) as [σ4 [err|]]; simpl.
  { eexists _, _, _. split; [done|]. simpl. eauto 10. }
  eexists _, _, _. split; [done|]. simpl. eauto 10.
Qed.

Lemma Writer_Flush_spec b h m :
  tw_head b = Some h → h ∈ dom (heads m) →
  ∃ m' res, Writer_Flush b m = Some (m', res) ∧ extends m m' [EvFlush b res].
Proof.
  intros Hb [hd Hhd]%elem_of_dom. unfold Writer_Flush.
  assert (∃ m1 res, TSDBWriter_Flush b m = Some (m1, res) ∧ extends m m1 [])
    as (m1 & res & HF & Hext).
  { destruct (decide (Head_NumSeries hd = 0%Z)) as [Hn|Hn].
    - rewrite (TSDBWriter_Flush_empty b h hd m Hb Hhd Hn). eexists _, _.
      split; [done|apply extends_refl].
    - destruct (TSDBWriter_Flush_nonempty b h hd m Hb Hhd Hn)
        as (m1 & ids & err & -> & Hh & Ht & _).
      eexists _, _. split; [done|]. split; [by rewrite Ht, app_nil_r|by rewrite Hh]. }
  rewrite (bind_eq _ _ _ _ _ HF).
  destruct (emit_spec (EvFlush b res) m1) as (m2 & Hem & Hext2 & _).
  rewrite (bind_eq _ _ _ _ _ Hem). eexists _, _. split; [done|].
  apply (extends_trans _ _ _ [] _ Hext Hext2).
Qed.

Lemma TSDBWriter_Close_spec b h m :
  tw_head b = Some h → h ∈ dom (heads m) →
  ∃ m' res, TSDBWriter_Close b m = Some (m', res) ∧ extends m m' [].
Proof.
  intros Hb Hh. unfold TSDBWriter_Close. rewrite Hb.
  rewrite (bind_eq _ _ _ _ _ (sys_spec _ m)).
  destruct (onHead_extends Head_Close h
              (mkMachine ((os_RemoveAll (tw_tmpDir b) (os m)).1) (heads m) (trace m)) Hh)
    as (m1 & res & Hon & Hext & _).
  rewrite Hon. eexists _, _. split; [done|]. exact Hext.
Qed.

Lemma Writer_Close_spec b h m :
  tw_head b = Some h → h ∈ dom (heads m) →
  ∃ m' res, Writer_Close b m = Some (m', res) ∧ extends m m' [EvClose b res].
Proof.
  intros Hb Hh. unfold Writer_Close.
  destruct (TSDBWriter_Close_spec b h m Hb Hh) as (m1 & res & HC & Hext).
  rewrite (bind_eq _ _ _ _ _ HC).
  destruct (emit_spec (EvClose b res) m1) as (m2 & Hem & Hext2 & _).
  rewrite (bind_eq _ _ _ _ _ Hem). eexists _, _. split; [done|].
  apply (extends_trans _ _ _ [] _ Hext Hext2).
Qed.

End MachineFacts.

(** ** The loops of the coordinator *)

Section LoopFacts.
Context `{E : Engine}.

Lemma foldl_Add_app merr results :
  foldl multiError_Add merr results = merr ++ concat (error_members <$> results).
Proof.
  revert merr. induction results as [|r results IH]; intros merr; simpl.
  - by rewrite app_nil_r.
  - rewrite IH, multiError_Add_app, <- app_assoc. done.
Qed.

(** The aggregate is nil exactly when every collected result is nil. *)
Lemma aggregate_None results :
  multiError_Err (foldl multiError_Add NewMulti results) = None ↔
  Forall (λ r, r = None) results.
Proof.
  rewrite multiError_Err_None, foldl_Add_app. unfold NewMulti. simpl.
  induction results as [|r results IH]; simpl; [done|].
  split.
  - intros [Hr Hrest]%app_eq_nil. constructor; [by apply error_members_nil|by apply IH].
  - intros Hall. inversion Hall as [|?? Hr Hrest]; subst. simpl. by apply IH.
Qed.

(** Every collected error is among the members of the aggregate. *)
Lemma aggregate_members results :
  error_members (multiError_Err (foldl multiError_Add NewMulti results)) =
  concat (error_members <$> results).
Proof. by rewrite error_members_Err, foldl_Add_app. Qed.

Lemma commitEach_spec entries : ∀ merr m,
  Forall (λ ra, ∃ h, ra.2 = headAppender h ∧ h ∈ dom (heads m)) entries →
  ∃ m' results,
    commitEach entries merr m = Some (m', foldl multiError_Add merr results) ∧
    extends m m' (zip_with EvCommit entries.*2 results) ∧
    length results = length entries.
Proof.
  induction entries as [|[r a] entries IH]; intros merr m Hlive; simpl.
  - exists m, []. split; [done|]. split; [apply extends_refl|done].
  - inversion Hlive as [|?? (h & Ha & Hh) Hrest]; simpl in *; subst.
    destruct (Appender_Commit_spec h m Hh) as (m1 & res & HC & Hext1).
    rewrite (bind_eq _ _ _ _ _ HC).
    destruct (IH (multiError_Add merr res) m1) as (m2 & results & HL & Hext2 & Hlen).
    { eapply Forall_impl; [exact Hrest|]. intros [r' a'] (h' & ? & ?).
      exists h'. split; [done|]. destruct Hext1 as [_ Hd]. set_solver. }
    exists m2, (res :: results). split; [done|].
    split; [apply (extends_trans _ _ _ [_] _ Hext1 Hext2)|]. simpl. by rewrite Hlen.
Qed.

Lemma rollbackEach_spec entries : ∀ merr m,
  Forall (λ ra, ∃ h, ra.2 = headAppender h ∧ h ∈ dom (heads m)) entries →
  ∃ m' results,
    rollbackEach entries merr m = Some (m', foldl multiError_Add merr results) ∧
    extends m m' (zip_with EvRollback entries.*2 results) ∧
    length results = length entries.
Proof.
  induction entries as [|[r a] entries IH]; intros merr m Hlive; simpl.
  - exists m, []. split; [done|]. split; [apply extends_refl|done].
  - inversion Hlive as [|?? (h & Ha & Hh) Hrest]; simpl in *; subst.
    destruct (Appender_Rollback_spec h m Hh) as (m1 & res & HC & Hext1).
    rewrite (bind_eq _ _ _ _ _ HC).
    destruct (IH (multiError_Add merr res) m1) as (m2 & results & HL & Hext2 & Hlen).
    { eapply Forall_impl; [exact Hrest|]. intros [r' a'] (h' & ? & ?).
      exists h'. split; [done|]. destruct Hext1 as [_ Hd]. set_solver. }
    exists m2, (res :: results). split; [done|].
    split; [apply (extends_trans _ _ _ [_] _ Hext1 Hext2)|]. simpl. by rewrite Hlen.
Qed.

Lemma closeEach_spec entries : ∀ merr m,
  Forall (λ rb, ∃ h, tw_head rb.2 = Some h ∧ h ∈ dom (heads m)) entries →
  ∃ m' results,
    closeEach entries merr m = Some (m', foldl multiError_Add merr results) ∧
    extends m m' (zip_with EvClose entries.*2 results) ∧
    length results = length entries.
Proof.
  induction entries as [|[r b] entries IH]; intros merr m Hlive; simpl.
  - exists m, []. split; [done|]. split; [apply extends_refl|done].
  - inversion Hlive as [|?? (h & Hb & Hh) Hrest]; simpl in *; subst.
    destruct (Writer_Close_spec b h m Hb Hh) as (m1 & res & HC & Hext1).
    rewrite (bind_eq _ _ _ _ _ HC).
    destruct (IH (multiError_Add merr res) m1) as (m2 & results & HL & Hext2 & Hlen).
    { eapply Forall_impl; [exact Hrest|]. intros [r' b'] (h' & ? & ?).
      exists h'. split; [done|]. destruct Hext1 as [_ Hd]. set_solver. }
    exists m2, (res :: results). split; [done|].
    split; [apply (extends_trans _ _ _ [_] _ Hext1 Hext2)|]. simpl. by rewrite Hlen.
Qed.

(** The flush loop: the builders are flushed in turn; either all succeed
    and the identifiers are concatenated in that order, or the loop stops
    at the first failure, whose error it returns without identifiers,
    and the builders after it are not touched. *)
Lemma flushEach_spec entries : ∀ ids m,
  Forall (λ rb, ∃ h, tw_head rb.2 = Some h ∧ h ∈ dom (heads m)) entries →
  ∃ m' res,
    flushEach entries ids m = Some (m', res) ∧
    ((∃ idss,
        length idss = length entries ∧
        extends m m' (zip_with (λ b i, EvFlush b (i, None)) entries.*2 idss) ∧
        res = (ids ++ concat idss, None))
     ∨
     (∃ done_ failed rest idss i err,
        entries = done_ ++ failed :: rest ∧
        length idss = length done_ ∧
        extends m m' (zip_with (λ b i, EvFlush b (i, None)) done_.*2 idss
                      ++ [EvFlush failed.2 (i, Some err)]) ∧
        res = ([], Some err))).
Proof.
  induction entries as [|[r b] entries IH]; intros ids m Hlive; simpl.
  - exists m, (ids, None). split; [done|]. left. exists [].
    split; [done|]. split; [apply extends_refl|]. by rewrite app_nil_r.
  - inversion Hlive as [|?? (h & Hb & Hh) Hrest]; simpl in *; subst.
    destruct (Writer_Flush_spec b h m Hb Hh) as (m1 & [id err] & HF & Hext1).
    rewrite (bind_eq _ _ _ _ _ HF). simpl.
    destruct err as [err|].
    + eexists _, _. split; [done|]. right.
      exists [], (r, b), entries, [], id, err. by repeat split; try apply Hext1.
    + destruct (IH (ids ++ id) m1) as (m2 & res & HL & Hcases).
      { eapply Forall_impl; [exact Hrest|]. intros [r' b'] (h' & ? & ?).
        exists h'. split; [done|]. destruct Hext1 as [_ Hd]. set_solver. }
      exists m2, res. split; [done|].
      destruct Hcases as [(idss & Hlen & Hext2 & ->)
                         |(done_ & failed & rest & idss & i & err & -> & Hlen & Hext2 & ->)].
      * left. exists (id :: idss). split; [simpl; by rewrite Hlen|].
        split; [apply (extends_trans _ _ _ [_] _ Hext1 Hext2)|].
        simpl. by rewrite <- app_assoc.
      * right. exists ((r, b) :: done_), failed, rest, (id :: idss), i, err.
        split; [done|]. split; [simpl; by rewrite Hlen|].
        split; [apply (extends_trans _ _ _ [_] _ Hext1 Hext2)|done].
Qed.

End LoopFacts.

(** ** Coherent coordinators *)

Section CoherentFacts.
Context `{E : Engine}.

Lemma rangeKey_Some w t : w ≠ 0%Z → is_Some (rangeKey w t).
Proof.
  intros Hw. unfold rangeKey, rangeForTimestamp, Int64.quo.
  rewrite decide_False by done. simpl. eauto.
Qed.

Lemma coherent_new dir size lbls m : coherent (NewMultiWriter dir size lbls) m.
Proof.
  split.
  - done.
  - intros r b Hb. simpl in Hb. by rewrite lookup_empty in Hb.
  - intros r1 r2 b1 b2 Hb. simpl in Hb. by rewrite lookup_empty in Hb.
Qed.

Lemma coherent_heads w m m' :
  coherent w m → dom (heads m) ⊆ dom (heads m') → coherent w m'.
Proof.
  intros [Hk Hh Hd] Hsub. split; [done| |done].
  intros r b Hb. destruct (Hh r b Hb) as (h & ? & Hal & ?).
  exists h. split; [done|]. split; [|done].
  by apply elem_of_dom, Hsub, elem_of_dom.
Qed.

Lemma coherent_extends w m m' new :
  coherent w m → extends m m' new → coherent w m'.
Proof. intros Hc [_ Hd]. by eapply coherent_heads. Qed.

(** In a coherent coordinator every stored handle is the handle of an
    allocated head, never the error placeholder. *)
Lemma coherent_handle w m r a :
  coherent w m → activeAppenders w !! r = Some a →
  ∃ h, a = headAppender h ∧ h ∈ dom (heads m).
Proof.
  intros [Hk Hh Hd] Ha.
  assert (r ∈ dom (blocks w)) as [b Hb]%elem_of_dom.
  { unfold same_keys in Hk. rewrite Hk. by apply elem_of_dom_2 in Ha. }
  destruct (Hh r b Hb) as (h & _ & Hal & Ha'). exists h.
  split; [congruence|by apply elem_of_dom].
Qed.

Lemma coherent_builder w m r b :
  coherent w m → blocks w !! r = Some b →
  ∃ h, tw_head b = Some h ∧ h ∈ dom (heads m).
Proof.
  intros [Hk Hh Hd] Hb. destruct (Hh r b Hb) as (h & ? & Hal & _).
  exists h. split; [done|by apply elem_of_dom].
Qed.

Lemma coherent_live_handles w m entries :
  coherent w m → entries ≡ₚ map_to_list (activeAppenders w) →
  Forall (λ ra, ∃ h, ra.2 = headAppender h ∧ h ∈ dom (heads m)) entries.
Proof.
  intros Hc Hp. apply Forall_forall. intros [r a] Hin.
  rewrite Hp in Hin. apply elem_of_map_to_list in Hin.
  by eapply coherent_handle.
Qed.

Lemma coherent_live_builders w m entries :
  coherent w m → entries ≡ₚ map_to_list (blocks w) →
  Forall (λ rb, ∃ h, tw_head rb.2 = Some h ∧ h ∈ dom (heads m)) entries.
Proof.
  intros Hc Hp. apply Forall_forall. intros [r b] Hin.
  rewrite Hp in Hin. apply elem_of_map_to_list in Hin.
  by eapply coherent_builder.
Qed.

(** The builders of a coherent coordinator are pairwise distinct. *)
Lemma coherent_NoDup w m entries :
  coherent w m → entries ≡ₚ map_to_list (blocks w) → NoDup entries.*2.
Proof.
  intros Hc Hp. apply NoDup_fmap_2_strong.
  - intros [r1 b1] [r2 b2] H1 H2 Heq. simpl in Heq. subst b2.
    rewrite Hp in H1, H2. apply elem_of_map_to_list in H1, H2.
    f_equal. by eapply (coh_distinct w m Hc r1 r2 b1 b1).
  - rewrite Hp. apply NoDup_map_to_list.
Qed.

(** The creation path of [getOrCreate] when creation fails. *)
Lemma getOrCreate_failure w t m hash m1 nw err :
  rangeKey (sizeMillis w) t = Some hash →
  activeAppenders w !! hash = None →
  NewTSDBWriter (mw_dir w) (mw_labels w) m = Some (m1, (nw, Some err)) →
  getOrCreate w t m =
    Some (mkMachine (os m1) (heads m1) (trace m1 ++ [EvNewTSDBWriter (nw, Some err)]),
          (w, errAppender (errors_Wrap err "new tsdb writer"))).
Proof.
  intros Hk Ha HN. unfold getOrCreate. rewrite Hk, Ha.
  rewrite (bind_eq _ _ _ _ _ HN). done.
Qed.

(** The creation path of [getOrCreate] when creation succeeds: builder
    and handle are stored under the range, each in its map. *)
Lemma getOrCreate_success w t m hash m1 nw :
  rangeKey (sizeMillis w) t = Some hash →
  activeAppenders w !! hash = None →
  NewTSDBWriter (mw_dir w) (mw_labels w) m = Some (m1, (nw, None)) →
  ∃ h m2, tw_head nw = Some h ∧ (h ∉ dom (heads m)) ∧ h ∈ dom (heads m2) ∧
    extends m1 m2 [EvNewTSDBWriter (nw, None)] ∧
    getOrCreate w t m =
      Some (m2, (mkMultiWriter (<[hash := nw]> (blocks w))
                               (<[hash := headAppender h]> (activeAppenders w))
                               (mw_dir w) (sizeMillis w) (mw_labels w),
                 headAppender h)).
Proof.
  intros Hk Ha HN.
  destruct (NewTSDBWriter_spec (mw_dir w) (mw_labels w) m) as (m1' & nw' & err' & HN' & Hext & Hh).
  rewrite HN in HN'. simplify_eq. destruct (Hh eq_refl) as (h & Hnw & Hfresh & Hal).
  destruct (emit_spec (EvNewTSDBWriter (nw', None)) m1') as (m1e & Hem & Hexte & Hhe & _).
  assert (h ∈ dom (heads m1e)) as Hal' by (by rewrite Hhe).
  destruct (TSDBWriter_Appender_spec nw' h m1e Hnw Hal') as (m2 & HA & Hext2).
  exists h, m2. split; [done|]. split; [done|].
  split; [destruct Hext2 as [_ Hd]; set_solver|].
  split; [apply (extends_trans _ _ _ [_] [] Hexte Hext2)|].
  unfold getOrCreate. rewrite Hk, Ha.
  rewrite (bind_eq _ _ _ _ _ HN).
  rewrite (bind_eq _ _ _ _ _ Hem). simpl.
  rewrite (bind_eq _ _ _ _ _ HA). done.
Qed.

(** Storing a new builder with a newly allocated head keeps the
    coordinator coherent. *)
Lemma coherent_insert w m m' hash nw h :
  coherent w m → activeAppenders w !! hash = None →
  tw_head nw = Some h → (h ∉ dom (heads m)) → h ∈ dom (heads m') →
  dom (heads m) ⊆ dom (heads m') →
  coherent (mkMultiWriter (<[hash := nw]> (blocks w))
                          (<[hash := headAppender h]> (activeAppenders w))
                          (mw_dir w) (sizeMillis w) (mw_labels w)) m'.
Proof.
  intros Hc Ha Hnw Hfresh Hal Hsub. split.
  - unfold same_keys. simpl. rewrite !dom_insert_L. by rewrite (coh_keys w m Hc).
  - intros r b. simpl. destruct (decide (hash = r)) as [<-|Hne].
    + rewrite lookup_insert_eq. intros [= <-]. exists h.
      split; [done|]. split; [by apply elem_of_dom|]. by rewrite lookup_insert_eq.
    + rewrite !lookup_insert_ne by done. intros Hb.
      destruct (coh_handle w m Hc r b Hb) as (h' & ? & Hal' & ?).
      exists h'. split; [done|]. split; [|done].
      apply elem_of_dom. apply elem_of_dom in Hal'. set_solver.
  - intros r1 r2 b1 b2. simpl.
    assert (Hold : ∀ r b, blocks w !! r = Some b → tw_head b ≠ Some h).
    { intros r b Hb Hhd. destruct (coherent_builder w m r b Hc Hb) as (h' & ? & ?).
      congruence. }
    destruct (decide (hash = r1)) as [<-|Hne1], (decide (hash = r2)) as [<-|Hne2];
      rewrite ?lookup_insert_eq, ?lookup_insert_ne by done; try done.
    + intros [= <-] Hb2 Heq. destruct (Hold r2 b2 Hb2). congruence.
    + intros Hb1 [= <-] Heq. destruct (Hold r1 b1 Hb1). congruence.
    + apply (coh_distinct w m Hc).
Qed.

(** What one routing step does to a coherent coordinator: it returns,
    the coordinator stays coherent, builders are only added, the only
    call recorded is the creation of a builder, and a builder whose
    creation succeeded is stored. *)
Lemma getOrCreate_spec w t m :
  coherent w m → sizeMillis w ≠ 0%Z →
  ∃ m' w' a new,
    getOrCreate w t m = Some (m', (w', a)) ∧ extends m m' new ∧
    coherent w' m' ∧ sizeMillis w' = sizeMillis w ∧ blocks w ⊆ blocks w' ∧
    Forall (λ e, ∃ res, e = EvNewTSDBWriter res) new ∧
    (∀ b, EvNewTSDBWriter (b, None) ∈ new → ∃ r, blocks w' !! r = Some b) ∧
    ((∃ err, a = errAppender err) ∨ (∃ h, a = headAppender h ∧ h ∈ dom (heads m'))).
Proof.
  intros Hc Hw. destruct (rangeKey_Some (sizeMillis w) t Hw) as [hash Hk].
  destruct (activeAppenders w !! hash) as [a|] eqn:Ha.
  - exists m, w, a, []. unfold getOrCreate. rewrite Hk, Ha.
    split; [done|]. split; [apply extends_refl|]. split; [done|]. split; [done|].
    split; [done|]. split; [done|]. split; [by intros b ?%elem_of_nil|].
    right. by eapply coherent_handle.
  - destruct (NewTSDBWriter_spec (mw_dir w) (mw_labels w) m)
      as (m1 & nw & [err|] & HN & Hext & Hh).
    + rewrite (getOrCreate_failure w t m hash m1 nw err Hk Ha HN).
      eexists _, w, _, [_]. split; [done|].
      split; [split; simpl; [by rewrite (proj1 Hext), app_nil_r|apply Hext]|].
      split; [eapply coherent_heads; [done|apply Hext]|]. split; [done|]. split; [done|].
      split; [repeat constructor; eauto|]. split; [|eauto].
      intros b Hb. apply list_elem_of_singleton in Hb. done.
    + destruct (getOrCreate_success w t m hash m1 nw Hk Ha HN)
        as (h & m2 & Hnw & Hfresh & Hal & Hext2 & ->).
      eexists _, _, _, [_]. split; [done|].
      split; [apply (extends_trans _ _ _ [] _ Hext Hext2)|].
      assert (dom (heads m) ⊆ dom (heads m2)) as Hsub.
      { etrans; [apply Hext|apply Hext2]. }
      split; [by apply (coherent_insert w m m2 hash nw h)|]. split; [done|]. simpl.
      split. { apply insert_subseteq. apply not_elem_of_dom.
               rewrite (coh_keys w m Hc). by apply not_elem_of_dom. }
      split; [repeat constructor; eauto|].
      split; [|eauto].
      intros b Hb. apply list_elem_of_singleton in Hb. simplify_eq.
      exists hash. apply lookup_insert_eq.
Qed.

Lemma MultiWriter_Append_spec w ref l t v m :
  coherent w m → sizeMillis w ≠ 0%Z →
  ∃ m' w' res new,
    MultiWriter_Append w ref l t v m = Some (m', (w', res)) ∧ extends m m' new ∧
    coherent w' m' ∧ sizeMillis w' = sizeMillis w ∧ blocks w ⊆ blocks w' ∧
    Forall (λ e, is_EvClose e = false) new ∧
    (∀ b, EvNewTSDBWriter (b, None) ∈ new → ∃ r, blocks w' !! r = Some b).
Proof.
  intros Hc Hw.
  destruct (getOrCreate_spec w t m Hc Hw)
    as (m1 & w1 & a & new1 & HG & Hext1 & Hc1 & Hs1 & Hb1 & Hnew1 & Hreg1 & Ha).
  unfold MultiWriter_Append. rewrite (bind_eq _ _ _ _ _ HG).
  assert (∃ m2 res ev, Appender_Append a ref l t v m1 = Some (m2, res) ∧
                       extends m1 m2 [ev] ∧ (∃ r, ev = EvAppend a ref l t v r))
    as (m2 & res & ev & HA & Hext2 & Hev).
  { destruct Ha as [[err ->]|(h & -> & Hal)].
    - eexists _, _, _. split; [done|]. split; [by split|eauto].
    - destruct (Appender_Append_spec h ref l t v m1 Hal) as (m2 & res & HA & Hext2).
      eauto 10. }
  rewrite (bind_eq _ _ _ _ _ HA). eexists _, _, _, (new1 ++ [ev]). split; [done|].
  split; [by eapply extends_trans|]. split; [by eapply coherent_extends|].
  split; [done|]. split; [done|].
  split.
  - apply Forall_app. split.
    + eapply Forall_impl; [exact Hnew1|]. by intros ? [? ->].
    + destruct Hev as [? ->]. by repeat constructor.
  - intros b [Hb|Hb]%elem_of_app; [by apply Hreg1|].
    apply list_elem_of_singleton in Hb. destruct Hev as [? ->]. done.
Qed.

End CoherentFacts.

(** ** Counting calls in a trace *)

Section Counting.
Context {X R : Type} (ev : X → R → Event) (f : Event → bool) (x : X).
Hypothesis f_ev : ∀ y r, f (ev y r) = true ↔ y = x.

Lemma count_zip_none xs : ∀ rs,
  x ∉ xs → length (List.filter f (zip_with ev xs rs)) = 0.
Proof using f_ev.
  induction xs as [|y xs IH]; intros [|r rs] Hx; simpl; try done.
  apply not_elem_of_cons in Hx as [Hne Hx].
  destruct (f (ev y r)) eqn:Hf; [by apply f_ev in Hf|by apply IH].
Qed.

Lemma count_zip_once xs : ∀ rs,
  length rs = length xs → NoDup xs → x ∈ xs →
  length (List.filter f (zip_with ev xs rs)) = 1.
Proof using f_ev.
  induction xs as [|y xs IH]; intros [|r rs] Hlen Hnd Hx; simpl in *; try done.
  - by apply elem_of_nil in Hx.
  - apply NoDup_cons in Hnd as [Hy Hnd].
    destruct (f (ev y r)) eqn:Hf.
    + apply f_ev in Hf. subst y. simpl. by rewrite count_zip_none.
    + apply elem_of_cons in Hx as [->|Hx].
      * assert (f (ev y r) = true) by (by apply f_ev). congruence.
      * apply IH; [lia|done|done].
Qed.

End Counting.


Lemma flushes_of_app b tr1 tr2 :
  flushes_of b (tr1 ++ tr2) = flushes_of b tr1 + flushes_of b tr2.
Proof. unfold flushes_of. by rewrite List.filter_app, length_app. Qed.


Lemma closes_of_zip b bs rs :
  length rs = length bs → NoDup bs → b ∈ bs → closes_of b (zip_with EvClose bs rs) = 1.
Proof.
  apply (count_zip_once EvClose). intros y r. by rewrite bool_decide_eq_true.
Qed.

Lemma flushes_of_zip_none b bs (idss : list (list ULID)) :
  b ∉ bs → flushes_of b (zip_with (λ b i, EvFlush b (i, None)) bs idss) = 0.
Proof.
  apply (count_zip_none (λ b i, EvFlush b (i, None))). intros y r.
  by rewrite bool_decide_eq_true.
Qed.

Lemma flushes_of_zip b bs (idss : list (list ULID)) :
  length idss = length bs → NoDup bs → b ∈ bs →
  flushes_of b (zip_with (λ b i, EvFlush b (i, None)) bs idss) = 1.
Proof.
  apply (count_zip_once (λ b i, EvFlush b (i, None))). intros y r.
  by rewrite bool_decide_eq_true.
Qed.

Lemma commits_of_zip h (hs : list Appender) rs :
  length rs = length hs → NoDup hs → headAppender h ∈ hs →
  commits_of h (zip_with EvCommit hs rs) = 1.
Proof.
  apply (count_zip_once EvCommit). intros [err|h'] r; simpl.
  - split; [done|discriminate].
  - rewrite bool_decide_eq_true. split; [by intros ->|by intros [= ->]].
Qed.

(** ** Commit, rollback, flush and close on a coherent coordinator *)

Section CoordinatorFacts.
Context `{E : Engine}.

(** The handles of a coherent coordinator are pairwise distinct. *)
Lemma coherent_NoDup_handles w m entries :
  coherent w m → entries ≡ₚ map_to_list (activeAppenders w) → NoDup entries.*2.
Proof.
  intros Hc Hp. apply NoDup_fmap_2_strong.
  - intros [r1 a1] [r2 a2] H1 H2 Heq. simpl in Heq. subst a2.
    rewrite Hp in H1, H2. apply elem_of_map_to_list in H1, H2.
    f_equal.
    assert (r1 ∈ dom (blocks w)) as [b1 Hb1]%elem_of_dom.
    { rewrite (coh_keys w m Hc). by apply elem_of_dom_2 in H1. }
    assert (r2 ∈ dom (blocks w)) as [b2 Hb2]%elem_of_dom.
    { rewrite (coh_keys w m Hc). by apply elem_of_dom_2 in H2. }
    destruct (coh_handle w m Hc r1 b1 Hb1) as (h1 & Hh1 & _ & Ha1).
    destruct (coh_handle w m Hc r2 b2 Hb2) as (h2 & Hh2 & _ & Ha2).
    apply (coh_distinct w m Hc r1 r2 b1 b2 Hb1 Hb2). congruence.
  - rewrite Hp. apply NoDup_map_to_list.
Qed.

Lemma MultiWriter_Commit_spec w m :
  coherent w m →
  ∃ m' entries results,
    MultiWriter_Commit w m =
      Some (m', multiError_Err (foldl multiError_Add NewMulti results)) ∧
    entries ≡ₚ map_to_list (activeAppenders w) ∧
    length results = length entries ∧
    extends m m' (zip_with EvCommit entries.*2 results).
Proof.
  intros Hc. unfold MultiWriter_Commit, rangeOver.
  set (entries := map_range (activeAppenders w) (os m)).
  assert (Hp : entries ≡ₚ map_to_list (activeAppenders w)) by apply map_range_perm.
  destruct (commitEach_spec entries NewMulti m (coherent_live_handles w m entries Hc Hp))
    as (m' & results & HL & Hext & Hlen).
  exists m', entries, results.
  unfold mbind, M_bind, bind. fold entries. rewrite HL. done.
Qed.

Lemma MultiWriter_Rollback_spec w m :
  coherent w m →
  ∃ m' entries results,
    MultiWriter_Rollback w m =
      Some (m', multiError_Err (foldl multiError_Add NewMulti results)) ∧
    entries ≡ₚ map_to_list (activeAppenders w) ∧
    length results = length entries ∧
    extends m m' (zip_with EvRollback entries.*2 results).
Proof.
  intros Hc. unfold MultiWriter_Rollback, rangeOver.
  set (entries := map_range (activeAppenders w) (os m)).
  assert (Hp : entries ≡ₚ map_to_list (activeAppenders w)) by apply map_range_perm.
  destruct (rollbackEach_spec entries NewMulti m (coherent_live_handles w m entries Hc Hp))
    as (m' & results & HL & Hext & Hlen).
  exists m', entries, results.
  unfold mbind, M_bind, bind. fold entries. rewrite HL. done.
Qed.

Lemma MultiWriter_Close_spec w m :
  coherent w m →
  ∃ m' entries results,
    MultiWriter_Close w m =
      Some (m', multiError_Err (foldl multiError_Add NewMulti results)) ∧
    entries ≡ₚ map_to_list (blocks w) ∧
    length results = length entries ∧
    extends m m' (zip_with EvClose entries.*2 results).
Proof.
  intros Hc. unfold MultiWriter_Close, rangeOver.
  set (entries := map_range (blocks w) (os m)).
  assert (Hp : entries ≡ₚ map_to_list (blocks w)) by apply map_range_perm.
  destruct (closeEach_spec entries NewMulti m (coherent_live_builders w m entries Hc Hp))
    as (m' & results & HL & Hext & Hlen).
  exists m', entries, results.
  unfold mbind, M_bind, bind. fold entries. rewrite HL. done.
Qed.

Lemma MultiWriter_Flush_spec w m :
  coherent w m →
  ∃ m' entries res,
    MultiWriter_Flush w m = Some (m', res) ∧
    entries ≡ₚ map_to_list (blocks w) ∧
    ((∃ idss,
        length idss = length entries ∧
        extends m m' (zip_with (λ b i, EvFlush b (i, None)) entries.*2 idss) ∧
        res = (concat idss, None))
     ∨
     (∃ done_ failed rest idss i err,
        entries = done_ ++ failed :: rest ∧
        length idss = length done_ ∧
        extends m m' (zip_with (λ b i, EvFlush b (i, None)) done_.*2 idss
                      ++ [EvFlush failed.2 (i, Some err)]) ∧
        res = ([], Some err))).
Proof.
  intros Hc. unfold MultiWriter_Flush, rangeOver.
  set (entries := map_range (blocks w) (os m)).
  assert (Hp : entries ≡ₚ map_to_list (blocks w)) by apply map_range_perm.
  destruct (flushEach_spec entries [] m (coherent_live_builders w m entries Hc Hp))
    as (m' & res & HL & Hcases).
  exists m', entries, res.
  unfold mbind, M_bind, bind. fold entries. rewrite HL. done.
Qed.

End CoordinatorFacts.

(** ** Reachable coordinators are coherent *)

Section Reachability.
Context `{E : Engine}.

Lemma getOrCreate_zero_width w t m : sizeMillis w = 0%Z → getOrCreate w t m = None.
Proof. intros Hw. unfold getOrCreate. by rewrite Hw. Qed.

Lemma MultiWriter_AppendExemplar_spec w ref l e m :
  coherent w m → sizeMillis w ≠ 0%Z →
  ∃ m' w' res new,
    MultiWriter_AppendExemplar w ref l e m = Some (m', (w', res)) ∧ extends m m' new ∧
    coherent w' m' ∧ sizeMillis w' = sizeMillis w.
Proof.
  intros Hc Hw.
  destruct (getOrCreate_spec w (ex_Ts e) m Hc Hw)
    as (m1 & w1 & a & new1 & HG & Hext1 & Hc1 & Hs1 & _ & _ & _ & Ha).
  unfold MultiWriter_AppendExemplar. rewrite (bind_eq _ _ _ _ _ HG).
  assert (∃ m2 res ev, Appender_AppendExemplar a ref l e m1 = Some (m2, res) ∧
                       extends m1 m2 [ev])
    as (m2 & res & ev & HA & Hext2).
  { destruct Ha as [[err ->]|(h & -> & Hal)].
    - eexists _, _, _. split; [done|]. by split.
    - destruct (Appender_AppendExemplar_spec h ref l e m1 Hal) as (m2 & res & HA & Hext2).
      eauto 10. }
  rewrite (bind_eq _ _ _ _ _ HA). eexists _, _, _, (new1 ++ [ev]). split; [done|].
  split; [by eapply extends_trans|]. split; [by eapply coherent_extends|done].
Qed.

(** Every public operation that returns keeps a coherent coordinator
    coherent. *)
Lemma apply_op_coherent o w m w' m' :
  coherent w m → apply_op o w m = Some (m', w') → coherent w' m'.
Proof.
  intros Hc Hop. destruct o as [ref l t v|ref l e| | | |]; simpl in Hop.
  - destruct (decide (sizeMillis w = 0%Z)) as [Hw|Hw].
    { unfold MultiWriter_Append in Hop.
      apply bind_Some in Hop as (? & ? & Hop & _).
      apply bind_Some in Hop as (? & ? & Hop & _).
      by rewrite getOrCreate_zero_width in Hop. }
    destruct (MultiWriter_Append_spec w ref l t v m Hc Hw)
      as (m1 & w1 & res & new & HA & _ & Hc1 & _).
    rewrite (bind_eq _ _ _ _ _ HA) in Hop. unfold mret, M_ret, ret in Hop. by simplify_eq/=.
  - destruct (decide (sizeMillis w = 0%Z)) as [Hw|Hw].
    { unfold MultiWriter_AppendExemplar in Hop.
      apply bind_Some in Hop as (? & ? & Hop & _).
      apply bind_Some in Hop as (? & ? & Hop & _).
      by rewrite getOrCreate_zero_width in Hop. }
    destruct (MultiWriter_AppendExemplar_spec w ref l e m Hc Hw)
      as (m1 & w1 & res & new & HA & _ & Hc1 & _).
    rewrite (bind_eq _ _ _ _ _ HA) in Hop. unfold mret, M_ret, ret in Hop. by simplify_eq/=.
  - destruct (MultiWriter_Commit_spec w m Hc) as (m1 & ? & ? & HC & _ & _ & Hext).
    rewrite (bind_eq _ _ _ _ _ HC) in Hop. unfold mret, M_ret, ret in Hop. simplify_eq/=. by eapply coherent_extends.
  - destruct (MultiWriter_Rollback_spec w m Hc) as (m1 & ? & ? & HC & _ & _ & Hext).
    rewrite (bind_eq _ _ _ _ _ HC) in Hop. unfold mret, M_ret, ret in Hop. simplify_eq/=. by eapply coherent_extends.
  - destruct (MultiWriter_Flush_spec w m Hc) as (m1 & ? & ? & HC & _ & Hcases).
    rewrite (bind_eq _ _ _ _ _ HC) in Hop. unfold mret, M_ret, ret in Hop. simplify_eq/=.
    destruct Hcases as [(? & _ & Hext & _)|(? & ? & ? & ? & ? & ? & _ & _ & Hext & _)];
      by eapply coherent_extends.
  - destruct (MultiWriter_Close_spec w m Hc) as (m1 & ? & ? & HC & _ & _ & Hext).
    rewrite (bind_eq _ _ _ _ _ HC) in Hop. unfold mret, M_ret, ret in Hop. simplify_eq/=. by eapply coherent_extends.
Qed.

Lemma reachable_coherent w m : reachable w m → coherent w m.
Proof.
  induction 1 as [dir size lbls σ|o w m w' m' _ IH Hop].
  - apply coherent_new.
  - by eapply apply_op_coherent.
Qed.

Lemma apply_ops_reachable ops : ∀ w m w' m',
  reachable w m → apply_ops ops w m = Some (m', w') → reachable w' m'.
Proof.
  induction ops as [|o ops IH]; intros w m w' m' Hr Hops; simpl in Hops.
  - unfold mret, M_ret, ret in Hops. by simplify_eq.
  - apply bind_Some in Hops as (m1 & w1 & Hop & Hops).
    eapply IH; [|done]. by eapply reach_step.
Qed.

End Reachability.

(** ** The loops of the coordinator, call by call *)

Section HeadCalls.
Context `{E : Engine} {X A : Type}.
Variables (call : X → M A) (head_of : X → option loc)
  (f : X → Head → World → Head * World * A) (ev : X → A → Event).
Hypothesis call_spec : ∀ x h hd m, head_of x = Some h → heads m !! h = Some hd →
  call x m = Some (mkMachine (f x hd (os m)).1.2 (<[h := (f x hd (os m)).1.1]> (heads m))
                     (trace m ++ [ev x (f x hd (os m)).2]),
                   (f x hd (os m)).2).

(** Calls in turn on distinct allocated heads: each head is, at the end,
    what its own call made of it, every other head is untouched, and the
    trace holds the calls in order. *)
Lemma in_turn_heads xs : ∀ m rs m',
  Forall (λ x, ∃ h, head_of x = Some h ∧ h ∈ dom (heads m)) xs →
  NoDup (head_of <$> xs) →
  in_turn call xs m rs m' →
  trace m' = trace m ++ zip_with ev xs rs ∧
  dom (heads m') = dom (heads m) ∧
  (∀ h, Some h ∉ head_of <$> xs → heads m' !! h = heads m !! h) ∧
  Forall2 (λ x r, ∃ h, head_of x = Some h ∧ head_call (f x) h m m' r) xs rs.
Proof using call_spec.
  induction xs as [|x xs IH]; intros m rs m' Hlive Hnd Hrun.
  - inversion Hrun; subst. simpl. rewrite app_nil_r. by repeat split.
  - inversion Hrun as [|??? r0 m1 rs0 ? Hcall Hrest]; subst.
    inversion Hlive as [|?? (h & Hx & [hd Hhd]%elem_of_dom) Hlive']; subst.
    rewrite fmap_cons in Hnd. apply NoDup_cons in Hnd as [Hfresh Hnd].
    rewrite (call_spec x h hd m Hx Hhd) in Hcall. simplify_eq.
    set (m2 := mkMachine _ _ _) in *.
    assert (Hdom1 : dom (heads m2) = dom (heads m)).
    { simpl. apply dom_insert_lookup_L. eauto. }
    destruct (IH m2 rs0 m') as (Htr & Hdom & Hframe & Hall); [|done|done|].
    { eapply Forall_impl; [exact Hlive'|]. intros y (hy & ? & ?). exists hy.
      by rewrite Hdom1. }
    split; [rewrite Htr; simpl; by rewrite <- app_assoc|].
    split; [congruence|].
    split.
    + intros h' Hh'. rewrite fmap_cons, not_elem_of_cons in Hh'. destruct Hh' as [Hne Hh'].
      rewrite (Hframe h' Hh'). simpl. apply lookup_insert_ne. congruence.
    + constructor.
      * exists h. split; [done|]. exists hd, (os m). split; [done|]. split; [|done].
        rewrite Hx in Hfresh. rewrite (Hframe h Hfresh). simpl. apply lookup_insert_eq.
      * apply Forall2_same_length_lookup. apply Forall2_same_length_lookup in Hall as [Hlen Hall].
        split; [done|]. intros i y r Hy Hr.
        destruct (Hall i y r Hy Hr) as (hy & Hhy & hdy & σ & Hm1 & Hm' & Hres).
        exists hy. split; [done|]. exists hdy, σ. split; [|done].
        rewrite <- Hm1. simpl. symmetry. apply lookup_insert_ne.
        intros ->. apply Hfresh. rewrite Hx, <- Hhy.
        apply list_elem_of_fmap. exists y. split; [done|]. by eapply list_elem_of_lookup_2.
Qed.

End HeadCalls.

Section LoopsInTurn.
Context `{E : Engine}.

Lemma Appender_Commit_step a h hd m :
  Appender_head a = Some h → heads m !! h = Some hd →
  Appender_Commit a m =
    Some (mkMachine (headAppender_Commit hd (os m)).1.2
            (<[h := (headAppender_Commit hd (os m)).1.1]> (heads m))
            (trace m ++ [EvCommit a (headAppender_Commit hd (os m)).2]),
          (headAppender_Commit hd (os m)).2).
Proof.
  destruct a as [err|h']; intros [= ->] Hhd. unfold Appender_Commit.
  by rewrite (bind_eq _ _ _ _ _ (onHead_spec headAppender_Commit h hd m Hhd)).
Qed.

Lemma Appender_Rollback_step a h hd m :
  Appender_head a = Some h → heads m !! h = Some hd →
  Appender_Rollback a m =
    Some (mkMachine (headAppender_Rollback hd (os m)).1.2
            (<[h := (headAppender_Rollback hd (os m)).1.1]> (heads m))
            (trace m ++ [EvRollback a (headAppender_Rollback hd (os m)).2]),
          (headAppender_Rollback hd (os m)).2).
Proof.
  destruct a as [err|h']; intros [= ->] Hhd. unfold Appender_Rollback.
  by rewrite (bind_eq _ _ _ _ _ (onHead_spec headAppender_Rollback h hd m Hhd)).
Qed.

Lemma Writer_Close_step b h hd m :
  tw_head b = Some h → heads m !! h = Some hd →
  Writer_Close b m =
    Some (mkMachine (close_head b hd (os m)).1.2
            (<[h := (close_head b hd (os m)).1.1]> (heads m))
            (trace m ++ [EvClose b (close_head b hd (os m)).2]),
          (close_head b hd (os m)).2).
Proof.
  intros Hb Hhd. unfold Writer_Close, TSDBWriter_Close, close_head. rewrite Hb.
  unfold mbind, M_bind, bind. rewrite sys_spec. simpl.
  rewrite Hhd. by destruct (Head_Close hd _) as [[hd' σ] res].
Qed.

Lemma commitEach_in_turn entries : ∀ merr m m' merr',
  commitEach entries merr m = Some (m', merr') →
  ∃ results, in_turn Appender_Commit entries.*2 m results m' ∧
             merr' = foldl multiError_Add merr results.
Proof.
  induction entries as [|[r a] entries IH]; intros merr m m' merr' H; simpl in H.
  - unfold mret, M_ret, ret in H. simplify_eq. exists []. split; [constructor|done].
  - apply bind_Some in H as (m1 & res & HC & H).
    apply IH in H as (results & Hrun & ->).
    exists (res :: results). split; [by econstructor|done].
Qed.

Lemma rollbackEach_in_turn entries : ∀ merr m m' merr',
  rollbackEach entries merr m = Some (m', merr') →
  ∃ results, in_turn Appender_Rollback entries.*2 m results m' ∧
             merr' = foldl multiError_Add merr results.
Proof.
  induction entries as [|[r a] entries IH]; intros merr m m' merr' H; simpl in H.
  - unfold mret, M_ret, ret in H. simplify_eq. exists []. split; [constructor|done].
  - apply bind_Some in H as (m1 & res & HC & H).
    apply IH in H as (results & Hrun & ->).
    exists (res :: results). split; [by econstructor|done].
Qed.

Lemma closeEach_in_turn entries : ∀ merr m m' merr',
  closeEach entries merr m = Some (m', merr') →
  ∃ results, in_turn Writer_Close entries.*2 m results m' ∧
             merr' = foldl multiError_Add merr results.
Proof.
  induction entries as [|[r b] entries IH]; intros merr m m' merr' H; simpl in H.
  - unfold mret, M_ret, ret in H. simplify_eq. exists []. split; [constructor|done].
  - apply bind_Some in H as (m1 & res & HC & H).
    apply IH in H as (results & Hrun & ->).
    exists (res :: results). split; [by econstructor|done].
Qed.

Lemma in_turn_length {X R} (call : X → M R) xs m rs m' :
  in_turn call xs m rs m' → length rs = length xs.
Proof. induction 1; simpl; congruence. Qed.

(** The handles of a coherent coordinator stand for distinct heads. *)
Lemma coherent_handle_heads w m entries :
  coherent w m → entries ≡ₚ map_to_list (activeAppenders w) →
  Forall (λ a, ∃ h, Appender_head a = Some h ∧ h ∈ dom (heads m)) entries.*2 ∧
  NoDup (Appender_head <$> entries.*2).
Proof.
  intros Hc Hp. pose proof (coherent_live_handles w m entries Hc Hp) as Hlive.
  split.
  - apply Forall_fmap. eapply Forall_impl; [exact Hlive|].
    intros [r a] (h & Ha & Hh). simpl in *. subst a. by exists h.
  - apply NoDup_fmap_2_strong; [|by eapply coherent_NoDup_handles].
    intros a1 a2 [[r1 a1'] [-> H1]]%list_elem_of_fmap [[r2 a2'] [-> H2]]%list_elem_of_fmap Heq.
    rewrite Forall_forall in Hlive.
    destruct (Hlive _ H1) as (h1 & Ha1 & _). destruct (Hlive _ H2) as (h2 & Ha2 & _).
    simpl in *. subst. simpl in Heq. congruence.
Qed.

(** The builders of a coherent coordinator have distinct heads. *)
Lemma coherent_builder_heads w m entries :
  coherent w m → entries ≡ₚ map_to_list (blocks w) →
  Forall (λ b, ∃ h, tw_head b = Some h ∧ h ∈ dom (heads m)) entries.*2 ∧
  NoDup (tw_head <$> entries.*2).
Proof.
  intros Hc Hp. pose proof (coherent_live_builders w m entries Hc Hp) as Hlive.
  split.
  - apply Forall_fmap. eapply Forall_impl; [exact Hlive|]. by intros [r b].
  - rewrite <- list_fmap_compose. apply NoDup_fmap_2_strong.
    + intros [r1 b1] [r2 b2] H1 H2 Heq. simpl in Heq.
      rewrite Hp in H1, H2. apply elem_of_map_to_list in H1, H2.
      assert (r1 = r2) as -> by (by eapply (coh_distinct w m Hc r1 r2 b1 b2)).
      congruence.
    + rewrite Hp. apply NoDup_map_to_list.
Qed.

Lemma Forall2_entries {X R} (P : X → R → Prop) (entries : list (Range * X)) rs :
  Forall2 P entries.*2 rs → Forall2 (λ rx r, P rx.2 r) entries rs.
Proof.
  intros H. apply (Forall2_fmap_l snd) in H. eapply Forall2_impl; [exact H|]. by intros.
Qed.

(** Commit of a coherent coordinator, call by call. *)
Lemma MultiWriter_Commit_calls w m :
  coherent w m →
  ∃ m' entries results,
    MultiWriter_Commit w m =
      Some (m', multiError_Err (foldl multiError_Add NewMulti results)) ∧
    entries ≡ₚ map_to_list (activeAppenders w) ∧
    in_turn Appender_Commit entries.*2 m results m' ∧
    trace m' = trace m ++ zip_with EvCommit entries.*2 results ∧
    dom (heads m') = dom (heads m) ∧
    (∀ h, Some h ∉ Appender_head <$> entries.*2 → heads m' !! h = heads m !! h) ∧
    Forall2 (λ ra res, ∃ h, Appender_head ra.2 = Some h ∧
                            head_call headAppender_Commit h m m' res) entries results.
Proof.
  intros Hc. unfold MultiWriter_Commit, rangeOver.
  set (entries := map_range (activeAppenders w) (os m)).
  assert (Hp : entries ≡ₚ map_to_list (activeAppenders w)) by apply map_range_perm.
  destruct (commitEach_spec entries NewMulti m (coherent_live_handles w m entries Hc Hp))
    as (m' & results0 & HL & _).
  destruct (commitEach_in_turn _ _ _ _ _ HL) as (results & Hrun & Hagg).
  destruct (coherent_handle_heads w m entries Hc Hp) as [Hlive Hnd].
  destruct (in_turn_heads Appender_Commit Appender_head (λ _, headAppender_Commit) EvCommit
              Appender_Commit_step entries.*2 m results m' Hlive Hnd Hrun)
    as (Htr & Hdom & Hframe & Hall).
  exists m', entries, results.
  split; [unfold mbind, M_bind, bind; fold entries; by rewrite HL, Hagg|].
  split; [done|]. split; [done|]. split; [done|]. split; [done|]. split; [done|].
  exact (Forall2_entries _ _ _ Hall).
Qed.

(** Rollback of a coherent coordinator, call by call. *)
Lemma MultiWriter_Rollback_calls w m :
  coherent w m →
  ∃ m' entries results,
    MultiWriter_Rollback w m =
      Some (m', multiError_Err (foldl multiError_Add NewMulti results)) ∧
    entries ≡ₚ map_to_list (activeAppenders w) ∧
    in_turn Appender_Rollback entries.*2 m results m' ∧
    trace m' = trace m ++ zip_with EvRollback entries.*2 results ∧
    dom (heads m') = dom (heads m) ∧
    (∀ h, Some h ∉ Appender_head <$> entries.*2 → heads m' !! h = heads m !! h) ∧
    Forall2 (λ ra res, ∃ h, Appender_head ra.2 = Some h ∧
                            head_call headAppender_Rollback h m m' res) entries results.
Proof.
  intros Hc. unfold MultiWriter_Rollback, rangeOver.
  set (entries := map_range (activeAppenders w) (os m)).
  assert (Hp : entries ≡ₚ map_to_list (activeAppenders w)) by apply map_range_perm.
  destruct (rollbackEach_spec entries NewMulti m (coherent_live_handles w m entries Hc Hp))
    as (m' & results0 & HL & _).
  destruct (rollbackEach_in_turn _ _ _ _ _ HL) as (results & Hrun & Hagg).
  destruct (coherent_handle_heads w m entries Hc Hp) as [Hlive Hnd].
  destruct (in_turn_heads Appender_Rollback Appender_head (λ _, headAppender_Rollback)
              EvRollback Appender_Rollback_step entries.*2 m results m' Hlive Hnd Hrun)
    as (Htr & Hdom & Hframe & Hall).
  exists m', entries, results.
  split; [unfold mbind, M_bind, bind; fold entries; by rewrite HL, Hagg|].
  split; [done|]. split; [done|]. split; [done|]. split; [done|]. split; [done|].
  exact (Forall2_entries _ _ _ Hall).
Qed.

(** Close of a coherent coordinator, call by call. *)
Lemma MultiWriter_Close_calls w m :
  coherent w m →
  ∃ m' entries results,
    MultiWriter_Close w m =
      Some (m', multiError_Err (foldl multiError_Add NewMulti results)) ∧
    entries ≡ₚ map_to_list (blocks w) ∧
    in_turn Writer_Close entries.*2 m results m' ∧
    trace m' = trace m ++ zip_with EvClose entries.*2 results ∧
    dom (heads m') = dom (heads m) ∧
    (∀ h, Some h ∉ tw_head <$> entries.*2 → heads m' !! h = heads m !! h) ∧
    Forall2 (λ rb res, ∃ h, tw_head rb.2 = Some h ∧
                            head_call (close_head rb.2) h m m' res) entries results.
Proof.
  intros Hc. unfold MultiWriter_Close, rangeOver.
  set (entries := map_range (blocks w) (os m)).
  assert (Hp : entries ≡ₚ map_to_list (blocks w)) by apply map_range_perm.
  destruct (closeEach_spec entries NewMulti m (coherent_live_builders w m entries Hc Hp))
    as (m' & results0 & HL & _).
  destruct (closeEach_in_turn _ _ _ _ _ HL) as (results & Hrun & Hagg).
  destruct (coherent_builder_heads w m entries Hc Hp) as [Hlive Hnd].
  destruct (in_turn_heads Writer_Close tw_head close_head EvClose Writer_Close_step
              entries.*2 m results m' Hlive Hnd Hrun)
    as (Htr & Hdom & Hframe & Hall).
  exists m', entries, results.
  split; [unfold mbind, M_bind, bind; fold entries; by rewrite HL, Hagg|].
  split; [done|]. split; [done|]. split; [done|]. split; [done|]. split; [done|].
  exact (Forall2_entries _ _ _ Hall).
Qed.

(** The heads that are behind no stored handle, or no stored builder. *)
Lemma handle_frame w (entries : list (Range * Appender)) (h : loc) :
  entries ≡ₚ map_to_list (activeAppenders w) →
  (∀ r, activeAppenders w !! r ≠ Some (headAppender h)) →
  Some h ∉ Appender_head <$> entries.*2.
Proof.
  intros Hp Hno [a [Ha [[r a'] [-> Hin]]%list_elem_of_fmap]]%list_elem_of_fmap.
  simpl in *. destruct a' as [err|h']; simplify_eq/=.
  rewrite Hp in Hin. apply elem_of_map_to_list in Hin. by apply (Hno r).
Qed.

Lemma builder_frame w (entries : list (Range * TSDBWriter)) (h : loc) :
  entries ≡ₚ map_to_list (blocks w) →
  (∀ r b, blocks w !! r = Some b → tw_head b ≠ Some h) →
  Some h ∉ tw_head <$> entries.*2.
Proof.
  intros Hp Hno [b [Hb [[r b'] [-> Hin]]%list_elem_of_fmap]]%list_elem_of_fmap.
  simpl in *. rewrite Hp in Hin. apply elem_of_map_to_list in Hin.
  by apply (Hno r b').
Qed.

Lemma handle_calls {A} (f : Head → World → Head * World * A)
    (entries : list (Range * Appender)) m m' (results : list A) :
  Forall2 (λ ra res, ∃ h, Appender_head ra.2 = Some h ∧ head_call f h m m' res)
    entries results →
  Forall2 (λ ra res, ∃ h, ra.2 = headAppender h ∧ head_call f h m m' res) entries results.
Proof.
  intros H. eapply Forall2_impl; [exact H|]. intros [r a] res (h & Ha & Hcall).
  exists h. split; [|done]. by destruct a; simplify_eq/=.
Qed.

(** Flush leaves the heads alone. *)
Lemma TSDBWriter_Flush_heads b h m m' r :
  tw_head b = Some h → h ∈ dom (heads m) →
  TSDBWriter_Flush b m = Some (m', r) → heads m' = heads m ∧ trace m' = trace m.
Proof.
  intros Hb [hd Hhd]%elem_of_dom H.
  destruct (decide (Head_NumSeries hd = 0%Z)) as [Hn|Hn].
  - rewrite (TSDBWriter_Flush_empty b h hd m Hb Hhd Hn) in H. by simplify_eq.
  - destruct (TSDBWriter_Flush_nonempty b h hd m Hb Hhd Hn)
      as (m1 & ids & err & HF & Hheads & Htr & _).
    rewrite H in HF. by simplify_eq.
Qed.

Lemma in_turn_flush xs : ∀ m rs m',
  Forall (λ b, ∃ h, tw_head b = Some h ∧ h ∈ dom (heads m)) xs →
  in_turn Writer_Flush xs m rs m' →
  heads m' = heads m ∧
  trace m' = trace m ++ zip_with EvFlush xs rs ∧
  Forall2 (λ b r, flush_result b m r) xs rs.
Proof.
  induction xs as [|b xs IH]; intros m rs m' Hlive Hrun.
  - inversion Hrun; subst. simpl. by rewrite app_nil_r.
  - inversion Hrun as [|??? r0 m1 rs0 ? Hcall Hrest]; subst.
    inversion Hlive as [|?? (h & Hb & Hh) Hlive']; subst.
    unfold Writer_Flush in Hcall.
    apply bind_Some in Hcall as (m0 & res & HF & Hcall).
    unfold mbind, M_bind, bind, emit, mret, M_ret, ret in Hcall. simplify_eq.
    destruct (TSDBWriter_Flush_heads b h m m0 r0 Hb Hh HF) as [Hheads Htr0].
    edestruct IH as (Hheads' & Htr & Hall); [|exact Hrest|].
    { eapply Forall_impl; [exact Hlive'|]. intros y (hy & ? & ?). exists hy.
      simpl. by rewrite Hheads. }
    simpl in *.
    split; [congruence|].
    split; [rewrite Htr, Htr0; by rewrite <- app_assoc|].
    constructor.
    + by exists m, m0.
    + eapply Forall2_impl; [exact Hall|]. intros y r (ma & mb & Hma & Hy).
      exists ma, mb. simpl in Hma. split; [congruence|done].
Qed.

Lemma flushEach_in_turn entries : ∀ ids m m' res,
  flushEach entries ids m = Some (m', res) →
  (∃ idss,
     length idss = length entries ∧
     in_turn Writer_Flush entries.*2 m ((λ i, (i, None)) <$> idss) m' ∧
     res = (ids ++ concat idss, None))
  ∨
  (∃ done_ failed rest idss i err,
     entries = done_ ++ failed :: rest ∧
     length idss = length done_ ∧
     in_turn Writer_Flush (done_.*2 ++ [failed.2]) m
       (((λ i, (i, None)) <$> idss) ++ [(i, Some err)]) m' ∧
     res = ([], Some err)).
Proof.
  induction entries as [|[r b] entries IH]; intros ids m m' res H; simpl in H.
  - unfold mret, M_ret, ret in H. simplify_eq. left. exists [].
    split; [done|]. split; [constructor|]. by rewrite app_nil_r.
  - apply bind_Some in H as (m1 & [id err] & HF & H).
    destruct err as [err|].
    + unfold mret, M_ret, ret in H. simplify_eq. right.
      exists [], (r, b), entries, [], id, err. split; [done|]. split; [done|].
      split; [|done]. simpl. econstructor; [done|constructor].
    + apply IH in H as [(idss & Hlen & Hrun & ->)
                       |(done_ & failed & rest & idss & i & err & -> & Hlen & Hrun & ->)].
      * left. exists (id :: idss). split; [simpl; by rewrite Hlen|].
        split; [by econstructor|]. simpl. by rewrite <- app_assoc.
      * right. exists ((r, b) :: done_), failed, rest, (id :: idss), i, err.
        split; [done|]. split; [simpl; by rewrite Hlen|].
        split; [|done]. simpl. by econstructor.
Qed.

Lemma zip_with_flush_ok (bs : list TSDBWriter) (idss : list (list ULID)) :
  zip_with EvFlush bs ((λ i, (i, None)) <$> idss)
  = zip_with (λ b i, EvFlush b (i, None)) bs idss.
Proof.
  revert idss. induction bs as [|b bs IH]; intros [|i idss]; simpl; [done..|].
  by rewrite IH.
Qed.

(** Flush of a coherent coordinator, call by call. *)
Lemma MultiWriter_Flush_calls w m :
  coherent w m →
  ∃ m' entries res,
    MultiWriter_Flush w m = Some (m', res) ∧
    entries ≡ₚ map_to_list (blocks w) ∧
    ((∃ idss,
        length idss = length entries ∧
        in_turn Writer_Flush entries.*2 m ((λ i, (i, None)) <$> idss) m' ∧
        res = (concat idss, None))
     ∨
     (∃ done_ failed rest idss i err,
        entries = done_ ++ failed :: rest ∧
        length idss = length done_ ∧
        in_turn Writer_Flush (done_.*2 ++ [failed.2]) m
          (((λ i, (i, None)) <$> idss) ++ [(i, Some err)]) m' ∧
        res = ([], Some err))).
Proof.
  intros Hc.
  destruct (MultiWriter_Flush_spec w m Hc) as (m' & entries0 & res & HF & _).
  unfold MultiWriter_Flush, rangeOver in *.
  set (entries := map_range (blocks w) (os m)) in *.
  assert (Hp : entries ≡ₚ map_to_list (blocks w)) by apply map_range_perm.
  exists m', entries, res. split; [done|]. split; [done|].
  unfold mbind, M_bind, bind in HF. fold entries in HF.
  by apply flushEach_in_turn in HF.
Qed.

Lemma Forall_live_app (P : TSDBWriter → Prop) (xs ys : list (Range * TSDBWriter)) y :
  Forall P (xs ++ y :: ys).*2 → Forall P (xs.*2 ++ [y.2]).
Proof.
  rewrite fmap_app, fmap_cons. intros [H1 H2]%Forall_app.
  apply Forall_app. split; [done|]. inversion H2; subst. by repeat constructor.
Qed.

End LoopsInTurn.

(** ** Commit and flush of the coordinator *)

(** C4: on a coherent coordinator, whatever the number of handles,
    commit is called on every stored handle exactly once, one handle after
    the other, also after a handle has failed: the run is the sequence of
    the calls of [Commit] on the handles, each head behind a handle is
    afterwards what the engine's commit made of it and the result recorded
    for the handle is what that commit returned, and no other head is
    touched.  The error returned aggregates the errors of all the calls,
    and it is nil exactly when every call returned nil. *)
Theorem MultiWriter_Commit_every_handle `{E : Engine} (w : MultiWriter) (m : Machine) :
  coherent w m →
  ∃ m' entries results,
    let calls := zip_with EvCommit entries.*2 results in
    let err := multiError_Err (foldl multiError_Add NewMulti results) in
    MultiWriter_Commit w m = Some (m', err) ∧
    entries ≡ₚ map_to_list (activeAppenders w) ∧
    length results = length entries ∧
    in_turn Appender_Commit entries.*2 m results m' ∧
    Forall2 (λ ra res, ∃ h, ra.2 = headAppender h ∧
                            head_call headAppender_Commit h m m' res) entries results ∧
    (∀ h, (∀ r, activeAppenders w !! r ≠ Some (headAppender h)) →
          heads m' !! h = heads m !! h) ∧
    trace m' = trace m ++ calls ∧
    (∀ r h, activeAppenders w !! r = Some (headAppender h) → commits_of h calls = 1) ∧
    (err = None ↔ Forall (λ r, r = None) results) ∧
    error_members err = concat (error_members <$> results).
Proof.
  intros Hc.
  destruct (MultiWriter_Commit_calls w m Hc)
    as (m' & entries & results & HC & Hp & Hrun & Htr & _ & Hframe & Hall).
  pose proof (in_turn_length _ _ _ _ _ Hrun) as Hlen. rewrite length_fmap in Hlen.
  exists m', entries, results. simpl.
  split; [done|]. split; [done|]. split; [done|]. split; [done|].
  split; [by apply handle_calls|].
  split; [intros h Hno; by apply Hframe, (handle_frame w)|].
  split; [done|].
  split; [|split; [apply aggregate_None|apply aggregate_members]].
  intros r h Ha. apply commits_of_zip.
  - by rewrite length_fmap.
  - by eapply coherent_NoDup_handles.
  - apply list_elem_of_fmap. exists (r, headAppender h). split; [done|].
    rewrite Hp. by apply elem_of_map_to_list.
Qed.

Lemma MultiWriter_Commit_every_handle_witness :
  let w := (Examples.after Examples.three_buckets Examples.commit_fails).2 in
  let m := (Examples.after Examples.three_buckets Examples.commit_fails).1 in
    ∃ m' entries results,
      let calls := zip_with EvCommit entries.*2 results in
      let err := multiError_Err (foldl multiError_Add NewMulti results) in
      MultiWriter_Commit w m = Some (m', err) ∧
      entries ≡ₚ map_to_list (activeAppenders w) ∧
      length results = length entries ∧
      in_turn Appender_Commit entries.*2 m results m' ∧
      Forall2 (λ ra res, ∃ h, ra.2 = headAppender h ∧
                              head_call headAppender_Commit h m m' res) entries results ∧
      (∀ h, (∀ r, activeAppenders w !! r ≠ Some (headAppender h)) →
            heads m' !! h = heads m !! h) ∧
      trace m' = trace m ++ calls ∧
      (∀ r h, activeAppenders w !! r = Some (headAppender h) → commits_of h calls = 1) ∧
      (err = None ↔ Forall (λ r, r = None) results) ∧
      error_members err = concat (error_members <$> results).
Proof.
  apply MultiWriter_Commit_every_handle.
  apply reachable_coherent.
  apply (apply_ops_reachable Examples.three_buckets Examples.start Examples.commit_fails);
    [apply (reach_new "out" 10 [])|vm_compute; reflexivity].
Defined.

(** C5: flush of the coordinator flushes the stored builders in turn:
    the run is the sequence of the calls of [Flush] on the builders, and
    what is recorded for a builder is what [TSDBWriter.Flush] returns for
    it.  If every builder succeeds the result is the concatenation of the
    returned identifiers, in that order, with a nil error.  Otherwise the
    run ends with the call on the first builder that fails: the result is
    that builder's error with no identifier, and flush is not called on the
    builders after it. *)
Theorem MultiWriter_Flush_fail_fast `{E : Engine} (w : MultiWriter) (m : Machine) :
  coherent w m →
  ∃ m' entries res,
    MultiWriter_Flush w m = Some (m', res) ∧
    entries ≡ₚ map_to_list (blocks w) ∧
    ((∃ idss,
        length idss = length entries ∧
        in_turn Writer_Flush entries.*2 m ((λ i, (i, None)) <$> idss) m' ∧
        Forall2 (λ rb i, flush_result rb.2 m (i, None)) entries idss ∧
        trace m' = trace m ++ zip_with (λ b i, EvFlush b (i, None)) entries.*2 idss ∧
        res = (concat idss, None))
     ∨
     (∃ done_ failed rest idss i err,
        let calls := zip_with (λ b i, EvFlush b (i, None)) done_.*2 idss
                     ++ [EvFlush failed.2 (i, Some err)] in
        entries = done_ ++ failed :: rest ∧
        length idss = length done_ ∧
        in_turn Writer_Flush (done_.*2 ++ [failed.2]) m
          (((λ i, (i, None)) <$> idss) ++ [(i, Some err)]) m' ∧
        Forall2 (λ rb i, flush_result rb.2 m (i, None)) done_ idss ∧
        flush_result failed.2 m (i, Some err) ∧
        trace m' = trace m ++ calls ∧
        res = ([], Some err) ∧
        (∀ rb, rb ∈ rest → flushes_of rb.2 calls = 0))).
Proof.
  intros Hc.
  destruct (MultiWriter_Flush_calls w m Hc) as (m' & entries & res & HF & Hp & Hcases).
  destruct (coherent_builder_heads w m entries Hc Hp) as [Hlive _].
  exists m', entries, res. split; [done|]. split; [done|].
  destruct Hcases as [(idss & Hlen & Hrun & ->)
                     |(done_ & failed & rest & idss & i & err & -> & Hlen & Hrun & ->)].
  - left. exists idss. split; [done|]. split; [done|].
    destruct (in_turn_flush _ _ _ _ Hlive Hrun) as (_ & Htr & Hall).
    split; [|split; [by rewrite Htr, zip_with_flush_ok|done]].
    apply Forall2_fmap_r in Hall. exact (Forall2_entries _ _ _ Hall).
  - right. exists done_, failed, rest, idss, i, err. simpl.
    split; [done|]. split; [done|]. split; [done|].
    destruct (in_turn_flush _ _ _ _ (Forall_live_app _ _ _ _ Hlive) Hrun) as (_ & Htr & Hall).
    apply Forall2_app_inv in Hall as [Hdone Hfailed];
      [|by rewrite !length_fmap].
    split. { apply Forall2_fmap_r in Hdone. exact (Forall2_entries _ _ _ Hdone). }
    split. { by inversion Hfailed. }
    assert (Htr' : trace m' = trace m ++
              zip_with (λ b i, EvFlush b (i, None)) done_.*2 idss
              ++ [EvFlush failed.2 (i, Some err)]).
    { rewrite Htr. f_equal. rewrite zip_with_app by (by rewrite !length_fmap).
      by rewrite zip_with_flush_ok. }
    split; [done|]. split; [done|].
    intros rb Hrb.
    pose proof (coherent_NoDup w m _ Hc Hp) as Hnd.
    rewrite fmap_app, fmap_cons in Hnd.
    apply NoDup_app in Hnd as (_ & Hdisj & Hnd).
    apply NoDup_cons in Hnd as [Hfailed' _].
    assert (Hin : rb.2 ∈ rest.*2) by (apply list_elem_of_fmap; eauto).
    rewrite flushes_of_app, flushes_of_zip_none.
    + unfold flushes_of. simpl. rewrite bool_decide_eq_false_2; [done|].
      intros Heq. apply Hfailed'. by rewrite Heq.
    + intros Hd. apply (Hdisj _ Hd). by right.
Qed.

Lemma MultiWriter_Flush_fail_fast_witness :
  let w := (Examples.after Examples.three_buckets Examples.write_fails).2 in
  let m := (Examples.after Examples.three_buckets Examples.write_fails).1 in
    ∃ m' entries res,
      MultiWriter_Flush w m = Some (m', res) ∧
      entries ≡ₚ map_to_list (blocks w) ∧
      ((∃ idss,
          length idss = length entries ∧
          in_turn Writer_Flush entries.*2 m ((λ i, (i, None)) <$> idss) m' ∧
          Forall2 (λ rb i, flush_result rb.2 m (i, None)) entries idss ∧
          trace m' = trace m ++ zip_with (λ b i, EvFlush b (i, None)) entries.*2 idss ∧
          res = (concat idss, None))
       ∨
       (∃ done_ failed rest idss i err,
          let calls := zip_with (λ b i, EvFlush b (i, None)) done_.*2 idss
                       ++ [EvFlush failed.2 (i, Some err)] in
          entries = done_ ++ failed :: rest ∧
          length idss = length done_ ∧
          in_turn Writer_Flush (done_.*2 ++ [failed.2]) m
            (((λ i, (i, None)) <$> idss) ++ [(i, Some err)]) m' ∧
          Forall2 (λ rb i, flush_result rb.2 m (i, None)) done_ idss ∧
          flush_result failed.2 m (i, Some err) ∧
          trace m' = trace m ++ calls ∧
          res = ([], Some err) ∧
          (∀ rb, rb ∈ rest → flushes_of rb.2 calls = 0))).
Proof.
  apply MultiWriter_Flush_fail_fast.
  apply reachable_coherent.
  apply (apply_ops_reachable Examples.three_buckets Examples.start Examples.write_fails);
    [apply (reach_new "out" 10 [])|vm_compute; reflexivity].
Defined.

(** ** The coordinator as target of the pipeline *)

Lemma Forall_zip_with_ev {X R} (ev : X → R → Event) (P : Event → Prop) :
  (∀ x r, P (ev x r)) → ∀ xs rs, Forall P (zip_with ev xs rs).
Proof.
  intros HP xs. induction xs as [|x xs IH]; intros [|r rs]; simpl; constructor; auto.
Qed.

Section ImportInvariants.
Context {S : Type} (W : Writer S) (J : S → Prop).
Hypothesis J_Append : ∀ ref l t v s s' res,
  J s → a_Append W ref l t v s = Some (s', res) → J s'.
Hypothesis J_Commit : ∀ s s' res, J s → a_Commit W s = Some (s', res) → J s'.
Hypothesis J_Flush : ∀ s s' res, J s → w_Flush W s = Some (s', res) → J s'.

Lemma Import_loop_inv p : ∀ ref s s' r,
  J s → Import_loop W p ref s = Some (s', r) → J s'.
Proof using J_Append.
  induction p as [|st p IH]; intros ref s s' r Hs H; simpl in H.
  - by simplify_eq.
  - destruct st as [err|e l ts v].
    + destruct err; by simplify_eq.
    + case_decide; [by eapply IH|].
      destruct ts as [t|]; [|by simplify_eq].
      destruct (a_Append W ref l t v s) as [[s1 [ref1 err]]|] eqn:HA; simplify_eq/=.
      pose proof (J_Append _ _ _ _ _ _ _ Hs HA).
      destruct err; simplify_eq/=; [done|by eapply IH].
Qed.


End ImportInvariants.

Section CoordinatorTarget.
Context `{E : Engine}.

Lemma run_eq {A B} (c : M (A * B)) m m' a b :
  c m = Some (m', (a, b)) → run c m = Some ((a, m'), b).
Proof. intros H. unfold run. by rewrite H. Qed.

(** The coordinator does not panic under the pipeline. *)
Lemma MultiWriter_Writer_safe : safe MultiWriter_Writer ready.
Proof.
  split.
  - intros s Hs. by exists s.
  - intros ref l t v [w m] [Hc Hw]. simpl in *.
    destruct (MultiWriter_Append_spec w ref l t v m Hc Hw)
      as (m1 & w1 & res & new & HA & _ & Hc1 & Hs1 & _).
    rewrite (run_eq _ _ _ _ _ HA). eexists _, _. split; [done|]. split; simpl; congruence.
  - intros [w m] [Hc Hw]. simpl in *.
    destruct (MultiWriter_Commit_spec w m Hc) as (m1 & ? & ? & HC & _ & _ & Hext).
    erewrite run_eq; [|by rewrite (bind_eq _ _ _ _ _ HC)].
    eexists _, _. split; [done|]. split; simpl; [by eapply coherent_extends|done].
  - intros [w m] [Hc Hw]. simpl in *.
    destruct (MultiWriter_Flush_spec w m Hc) as (m1 & ? & [ids err] & HC & _ & Hcases).
    erewrite run_eq; [|by rewrite (bind_eq _ _ _ _ _ HC)].
    eexists _, _. split; [done|]. split; simpl; [|done].
    destruct Hcases as [(? & _ & Hext & _)|(? & ? & ? & ? & ? & ? & _ & _ & Hext & _)];
      by eapply coherent_extends.
  - intros [w m] [Hc Hw]. simpl in *.
    destruct (MultiWriter_Close_spec w m Hc) as (m1 & ? & ? & HC & _ & _ & Hext).
    erewrite run_eq; [|by rewrite (bind_eq _ _ _ _ _ HC)].
    eexists _, _. split; [done|]. split; simpl; [by eapply coherent_extends|done].
Qed.





End CoordinatorTarget.


(** ** Close on every exit path *)



(** ** The two maps of the coordinator *)

Section KeySets.
Context `{E : Engine}.

(** Routing registers under a range either in both maps or in neither. *)
Lemma getOrCreate_same_keys w t m w' m' a :
  same_keys w → getOrCreate w t m = Some (m', (w', a)) → same_keys w'.
Proof.
  intros Hk H. unfold getOrCreate in H.
  destruct (rangeKey (sizeMillis w) t) as [hash|]; [|done].
  destruct (activeAppenders w !! hash) as [a0|].
  { unfold mret, M_ret, ret in H. by simplify_eq. }
  apply bind_Some in H as (m1 & [nw err] & _ & H).
  apply bind_Some in H as (m2 & [] & _ & H).
  destruct err as [err|].
  { unfold mret, M_ret, ret in H. by simplify_eq. }
  apply bind_Some in H as (m3 & a3 & _ & H).
  unfold mret, M_ret, ret in H. simplify_eq.
  unfold same_keys in *. simpl. rewrite !dom_insert_L. by rewrite Hk.
Qed.

Lemma apply_op_same_keys o w m w' m' :
  same_keys w → apply_op o w m = Some (m', w') → same_keys w'.
Proof.
  intros Hk Hop. destruct o as [ref l t v|ref l e| | | |]; simpl in Hop.
  - apply bind_Some in Hop as (m1 & [w1 res] & HA & Hop).
    unfold mret, M_ret, ret in Hop. simplify_eq.
    unfold MultiWriter_Append in HA.
    apply bind_Some in HA as (m2 & [w2 a] & HG & HA).
    apply bind_Some in HA as (m3 & res' & _ & HA).
    unfold mret, M_ret, ret in HA. simplify_eq.
    by eapply getOrCreate_same_keys.
  - apply bind_Some in Hop as (m1 & [w1 res] & HA & Hop).
    unfold mret, M_ret, ret in Hop. simplify_eq.
    unfold MultiWriter_AppendExemplar in HA.
    apply bind_Some in HA as (m2 & [w2 a] & HG & HA).
    apply bind_Some in HA as (m3 & res' & _ & HA).
    unfold mret, M_ret, ret in HA. simplify_eq.
    by eapply getOrCreate_same_keys.
  - apply bind_Some in Hop as (m1 & res & _ & Hop).
    unfold mret, M_ret, ret in Hop. by simplify_eq.
  - apply bind_Some in Hop as (m1 & res & _ & Hop).
    unfold mret, M_ret, ret in Hop. by simplify_eq.
  - apply bind_Some in Hop as (m1 & res & _ & Hop).
    unfold mret, M_ret, ret in Hop. by simplify_eq.
  - apply bind_Some in Hop as (m1 & res & _ & Hop).
    unfold mret, M_ret, ret in Hop. by simplify_eq.
Qed.

End KeySets.

(** C9: a new coordinator has the same keys in both maps, each of append,
    appendExemplar, commit, rollback, flush and close keeps it so, and
    hence in every reachable state a range is a key of the builder map if
    and only if it is a key of the handle map. *)
Theorem MultiWriter_same_keys `{E : Engine} :
  (∀ dir size lbls, same_keys (NewMultiWriter dir size lbls)) ∧
  (∀ o w m w' m', same_keys w → apply_op o w m = Some (m', w') → same_keys w') ∧
  (∀ w m, reachable w m →
     dom (blocks w) = dom (activeAppenders w) ∧
     ∀ r, is_Some (blocks w !! r) ↔ is_Some (activeAppenders w !! r)).
Proof.
  split; [done|]. split; [apply @apply_op_same_keys|].
  intros w m Hr.
  assert (Hk : same_keys w).
  { induction Hr as [| o w m w' m' _ IH Hop]; [done|by eapply apply_op_same_keys]. }
  split; [done|]. intros r. by rewrite <- !elem_of_dom, Hk.
Qed.

Lemma MultiWriter_same_keys_witness :
  let w := (Examples.after Examples.three_buckets Examples.creation_fails).2 in
  same_keys (NewMultiWriter "out" 10 []) ∧
  same_keys w ∧
  dom (blocks w) = dom (activeAppenders w) ∧
  ∀ r, is_Some (blocks w !! r) ↔ is_Some (activeAppenders w !! r).
Proof.
  pose proof (@MultiWriter_same_keys Ref.engine) as (Hnew & Hstep & Hreach).
  assert (Hr : reachable (Examples.after Examples.three_buckets Examples.creation_fails).2
                         (Examples.after Examples.three_buckets Examples.creation_fails).1).
  { apply (apply_ops_reachable Examples.three_buckets Examples.start Examples.creation_fails);
      [apply (reach_new "out" 10 [])|vm_compute; reflexivity]. }
  split; [apply Hnew|]. split; [apply (Hreach _ _ Hr)|apply (Hreach _ _ Hr)].
Defined.

(** ** Failure to create a builder *)

Section CreationFailure.
Context `{E : Engine}.

(** Routing a timestamp whose range has no handle attempts a creation,
    records it, and stores builder and handle exactly when it succeeds. *)
Lemma getOrCreate_attempt w t m hash :
  rangeKey (sizeMillis w) t = Some hash →
  activeAppenders w !! hash = None →
  ∃ m1 nw err m2 w2 a,
    NewTSDBWriter (mw_dir w) (mw_labels w) m = Some (m1, (nw, err)) ∧
    getOrCreate w t m = Some (m2, (w2, a)) ∧
    trace m2 = trace m ++ [EvNewTSDBWriter (nw, err)] ∧
    match err with
    | Some err => w2 = w ∧ a = errAppender (errors_Wrap err "new tsdb writer")
    | None =>
      ∃ h, tw_head nw = Some h ∧ a = headAppender h ∧
           blocks w2 = <[hash := nw]> (blocks w) ∧
           activeAppenders w2 = <[hash := headAppender h]> (activeAppenders w)
    end.
Proof.
  intros Hk Ha.
  destruct (NewTSDBWriter_spec (mw_dir w) (mw_labels w) m) as (m1 & nw & err & HN & Hext & _).
  exists m1, nw, err. destruct err as [err|].
  - eexists _, _, _. split; [done|].
    split; [by apply (getOrCreate_failure w t m hash m1 nw err)|].
    simpl. split; [|done]. by rewrite (proj1 Hext), app_nil_r.
  - destruct (getOrCreate_success w t m hash m1 nw Hk Ha HN)
      as (h & m2 & Hnw & _ & _ & Hext2 & HG).
    eexists _, _, _. split; [done|]. split; [exact HG|].
    split; [by rewrite (proj1 Hext2), (proj1 Hext), app_nil_r|].
    exists h. done.
Qed.

Lemma MultiWriter_Append_failure w ref l t v m hash m1 nw err :
  rangeKey (sizeMillis w) t = Some hash →
  activeAppenders w !! hash = None →
  NewTSDBWriter (mw_dir w) (mw_labels w) m = Some (m1, (nw, Some err)) →
  let e := errors_Wrap err "new tsdb writer" in
  MultiWriter_Append w ref l t v m =
    Some (mkMachine (os m1) (heads m1)
            (trace m1 ++ [EvNewTSDBWriter (nw, Some err);
                          EvAppend (errAppender e) ref l t v (0%N, Some e)]),
          (w, (0%N, Some e))).
Proof.
  intros Hk Ha HN e. unfold MultiWriter_Append.
  rewrite (bind_eq _ _ _ _ _ (getOrCreate_failure w t m hash m1 nw err Hk Ha HN)).
  unfold Appender_Append, mbind, M_bind, bind, mret, M_ret, ret, emit. simpl.
  by rewrite <- app_assoc.
Qed.

End CreationFailure.

(** C10: when the creation of a builder fails during routing, the
    coordinator is returned as it was: the placeholder handed out is in
    neither map, every stored handle is still the handle of a head, so
    that commit, rollback, flush and close do not meet the placeholder,
    and routing a later timestamp of the same range attempts a creation
    again, whose outcome alone decides what is stored. *)
Theorem getOrCreate_failure_not_stored `{E : Engine} (w : MultiWriter) (m m1 : Machine)
    (t : Z) (hash : Range) (nw : TSDBWriter) (err : error) :
  coherent w m →
  rangeKey (sizeMillis w) t = Some hash →
  activeAppenders w !! hash = None →
  NewTSDBWriter (mw_dir w) (mw_labels w) m = Some (m1, (nw, Some err)) →
  ∃ m2,
    getOrCreate w t m = Some (m2, (w, errAppender (errors_Wrap err "new tsdb writer"))) ∧
    trace m2 = trace m ++ [EvNewTSDBWriter (nw, Some err)] ∧
    blocks w !! hash = None ∧ activeAppenders w !! hash = None ∧
    coherent w m2 ∧
    (∀ r a, activeAppenders w !! r = Some a → ∃ h, a = headAppender h) ∧
    (∀ t', rangeKey (sizeMillis w) t' = Some hash →
       ∃ m3 nw' err' m4 w4 a,
         NewTSDBWriter (mw_dir w) (mw_labels w) m2 = Some (m3, (nw', err')) ∧
         getOrCreate w t' m2 = Some (m4, (w4, a)) ∧
         trace m4 = trace m2 ++ [EvNewTSDBWriter (nw', err')] ∧
         match err' with
         | Some err' => w4 = w ∧ a = errAppender (errors_Wrap err' "new tsdb writer")
         | None =>
           ∃ h, tw_head nw' = Some h ∧ a = headAppender h ∧
                blocks w4 = <[hash := nw']> (blocks w) ∧
                activeAppenders w4 = <[hash := headAppender h]> (activeAppenders w)
         end).
Proof.
  intros Hc Hk Ha HN.
  destruct (NewTSDBWriter_spec (mw_dir w) (mw_labels w) m) as (m1' & nw0 & err0 & HN' & Hext & _).
  rewrite HN in HN'. simplify_eq.
  eexists. split; [by apply (getOrCreate_failure w t m hash m1' nw0 err)|]. simpl.
  split; [by rewrite (proj1 Hext), app_nil_r|].
  split. { apply not_elem_of_dom. rewrite (coh_keys w m Hc). by apply not_elem_of_dom. }
  split; [done|].
  assert (Hc2 : coherent w (mkMachine (os m1') (heads m1')
                              (trace m1' ++ [EvNewTSDBWriter (nw0, Some err)]))).
  { eapply coherent_heads; [exact Hc|]. simpl. apply Hext. }
  split; [done|].
  split.
  - intros r a Hr. destruct (coherent_handle w m r a Hc Hr) as (h & -> & _). eauto.
  - intros t' Hk'. by apply getOrCreate_attempt.
Qed.

Lemma getOrCreate_failure_not_stored_witness :
  ∃ m1 nw err m2,
    NewTSDBWriter (mw_dir Examples.start) (mw_labels Examples.start) Examples.creation_fails
      = Some (m1, (nw, Some err)) ∧
    getOrCreate Examples.start 5 Examples.creation_fails
      = Some (m2, (Examples.start, errAppender (errors_Wrap err "new tsdb writer"))) ∧
    trace m2 = trace Examples.creation_fails ++ [EvNewTSDBWriter (nw, Some err)] ∧
    blocks Examples.start !! mkRange 0 10 = None ∧
    activeAppenders Examples.start !! mkRange 0 10 = None ∧
    coherent Examples.start m2 ∧
    (∀ r a, activeAppenders Examples.start !! r = Some a → ∃ h, a = headAppender h) ∧
    (∀ t', rangeKey (sizeMillis Examples.start) t' = Some (mkRange 0 10) →
       ∃ m3 nw' err' m4 w4 a,
         NewTSDBWriter (mw_dir Examples.start) (mw_labels Examples.start) m2
           = Some (m3, (nw', err')) ∧
         getOrCreate Examples.start t' m2 = Some (m4, (w4, a)) ∧
         trace m4 = trace m2 ++ [EvNewTSDBWriter (nw', err')] ∧
         match err' with
         | Some err' =>
           w4 = Examples.start ∧ a = errAppender (errors_Wrap err' "new tsdb writer")
         | None =>
           ∃ h, tw_head nw' = Some h ∧ a = headAppender h ∧
                blocks w4 = <[mkRange 0 10 := nw']> (blocks Examples.start) ∧
                activeAppenders w4 =
                  <[mkRange 0 10 := headAppender h]> (activeAppenders Examples.start)
         end).
Proof.
  eexists _, _, _.
  assert (HN : NewTSDBWriter (mw_dir Examples.start) (mw_labels Examples.start)
                 Examples.creation_fails
               = Some (mkMachine (Ref.mkWorld [inr Ref.healthy] 1%N false) ∅ [],
                       (mkTSDBWriter "out" [] None "/tmp/head",
                        Some (errors_Wrap (errors_New "no space left") "tsdb.NewHead"))))
    by reflexivity.
  destruct (getOrCreate_failure_not_stored Examples.start Examples.creation_fails _
              5 (mkRange 0 10) _ _ (coherent_new "out" 10 [] _) eq_refl eq_refl HN)
    as (m2 & H).
  exists m2. split; [exact HN|exact H].
Defined.

(** C2, as stated, fails on the code: when the creation of a builder
    fails, the append call itself returns the creation error, the
    coordinator stores nothing, and [Import] stops at that sample with the
    error wrapped as "add sample".  Here the first [tsdb.NewHead] of a
    coordinator of width 10 fails with "no space left". *)
Lemma creation_failure_returned_by_append :
  let e := errors_Wrap (errors_Wrap (errors_New "no space left") "tsdb.NewHead")
                       "new tsdb writer" in
  snd <$> MultiWriter_Append Examples.start 0%N Examples.up 5 1%N Examples.creation_fails
    = Some (Examples.start, (0%N, Some e)) ∧
  snd <$> Import MultiWriter_Writer [StepEntry EntrySeries Examples.up (Some 5%Z) 1%N]
            (Examples.start, Examples.creation_fails)
    = Some ([], Some (nonNilMultiError (errors_Wrap e "add sample") [])).
Proof. split; reflexivity. Qed.

Section Rejected.
Context {S : Type} (W : Writer S).

(** The run in which the target rejects a sample after a prefix that was
    passed, and the calls it makes. *)
Lemma Import_rejected pre post l t v e s s0 s1 s1' s2 ref1 ref' cerr :
  w_Appender W s = Some s0 →
  consume W pre 0%N s0 = Some (s1, ref1) →
  a_Append W ref1 l t v s1 = Some (s1', (ref', Some e)) →
  w_Close W s1' = Some (s2, cerr) →
  let input := pre ++ StepEntry EntrySeries l (Some t) v :: post in
  let result := ([], Some (nonNilMultiError (errors_Wrap e "add sample")
                                              (error_members cerr))) in
  Import W input s = Some (s2, result) ∧
  ∃ log, Import (spy W) input (s, []) =
           Some ((s2, log ++ [CallAppend ref1 l t v (ref', Some e); CallClose cerr]), result) ∧
         Forall (λ c, is_CallCommit c = false ∧ is_CallFlush c = false) log.
Proof.
  intros HA Hpre HAp HC input result.
  assert (Hres : multiError_Err (multiError_Add
                   (multiError_Add NewMulti (Some (errors_Wrap e "add sample"))) cerr)
                 = Some (nonNilMultiError (errors_Wrap e "add sample") (error_members cerr))).
  { by rewrite (multiError_Add_app _ cerr). }
  assert (HB : Import_body W input s0 = Some (s1', ([], Some (errors_Wrap e "add sample")))).
  { unfold Import_body, input. rewrite (consume_loop W pre _ _ _ _ _ Hpre). simpl.
    by rewrite HAp. }
  split.
  - rewrite (Import_unfold W input s s0 s1' s2 _ cerr HA HB HC). cbn [fst snd].
    by rewrite Hres.
  - destruct (spy_consume W pre 0%N s0 [CallAppender] s1 ref1 Hpre) as (new & Hnew & Happ & _).
    exists (CallAppender :: new). split.
    + rewrite (Import_unfold (spy W) input (s, []) (s0, [CallAppender])
                 (s1', (CallAppender :: new) ++ [CallAppend ref1 l t v (ref', Some e)])
                 (s2, ((CallAppender :: new) ++ [CallAppend ref1 l t v (ref', Some e)])
                        ++ [CallClose cerr])
                 ([], Some (errors_Wrap e "add sample")) cerr).
      * cbn [fst snd]. rewrite Hres. by rewrite <- !app_assoc.
      * simpl. by rewrite HA.
      * unfold Import_body, input. rewrite (consume_loop (spy W) pre _ _ _ _ _ Hnew). simpl.
        by rewrite HAp.
      * simpl. by rewrite HC.
    + constructor; [done|]. eapply Forall_impl; [exact Happ|]. by intros [].
Qed.

End Rejected.

(** C2, amended: when the creation of a builder fails inside the append
    path of a coherent coordinator, the coordinator hands the call to a
    placeholder that answers every method with the creation error wrapped
    as "new tsdb writer"; the append call returns that error at once and
    leaves the coordinator as it was; and [Import], on reaching such a
    sample after a prefix that was passed, stops there: its last calls are
    that append and the close, it calls neither commit nor flush, and it
    returns no identifier and that error wrapped as "add sample", combined
    with what [Close] of the coordinator returns on the state the failed
    append left. *)
Theorem creation_failure_surfaces_at_append `{E : Engine} (w0 w : MultiWriter)
    (m0 m m1 : Machine) (pre post : Parser) (ref : SeriesRef) (l : Labels) (t : Z)
    (v : float64) (hash : Range) (nw : TSDBWriter) (err : error) :
  consume MultiWriter_Writer pre 0%N (w0, m0) = Some ((w, m), ref) →
  coherent w m →
  rangeKey (sizeMillis w) t = Some hash →
  activeAppenders w !! hash = None →
  NewTSDBWriter (mw_dir w) (mw_labels w) m = Some (m1, (nw, Some err)) →
  let e := errors_Wrap err "new tsdb writer" in
  let input := pre ++ StepEntry EntrySeries l (Some t) v :: post in
  (∀ m0 ref0 l0 t0 v0 ex,
     snd <$> Appender_Append (errAppender e) ref0 l0 t0 v0 m0 = Some (0%N, Some e) ∧
     snd <$> Appender_AppendExemplar (errAppender e) ref0 l0 ex m0 = Some (0%N, Some e) ∧
     snd <$> Appender_Commit (errAppender e) m0 = Some (Some e) ∧
     snd <$> Appender_Rollback (errAppender e) m0 = Some (Some e)) ∧
  ∃ m2 m3 m4 entries results log,
    let cerr := multiError_Err (foldl multiError_Add NewMulti results) in
    let result := ([], Some (nonNilMultiError (errors_Wrap e "add sample")
                                                (error_members cerr))) in
    getOrCreate w t m = Some (m2, (w, errAppender e)) ∧
    MultiWriter_Append w ref l t v m = Some (m3, (w, (0%N, Some e))) ∧
    trace m3 = trace m ++ [EvNewTSDBWriter (nw, Some err);
                           EvAppend (errAppender e) ref l t v (0%N, Some e)] ∧
    MultiWriter_Close w m3 = Some (m4, cerr) ∧
    entries ≡ₚ map_to_list (blocks w) ∧
    in_turn Writer_Close entries.*2 m3 results m4 ∧
    Import MultiWriter_Writer input (w0, m0) = Some ((w, m4), result) ∧
    trace m4 = trace m ++ [EvNewTSDBWriter (nw, Some err);
                           EvAppend (errAppender e) ref l t v (0%N, Some e)]
                       ++ zip_with EvClose entries.*2 results ∧
    Import (spy MultiWriter_Writer) input ((w0, m0), []) =
      Some (((w, m4), log ++ [CallAppend ref l t v (0%N, Some e); CallClose cerr]), result) ∧
    Forall (λ c, is_CallCommit c = false ∧ is_CallFlush c = false) log.
Proof.
  intros Hpre Hc Hk Ha HN e input.
  split; [done|].
  destruct (NewTSDBWriter_spec (mw_dir w) (mw_labels w) m) as (m1' & nw0 & err0 & HN' & Hext & _).
  rewrite HN in HN'. simplify_eq.
  pose proof (MultiWriter_Append_failure w ref l t v m hash m1' nw0 err Hk Ha HN) as HA.
  simpl in HA. fold e in HA.
  set (m3 := mkMachine (os m1') (heads m1')
               (trace m1' ++ [EvNewTSDBWriter (nw0, Some err);
                              EvAppend (errAppender e) ref l t v (0%N, Some e)])) in *.
  assert (Htr3 : trace m3 = trace m ++ [EvNewTSDBWriter (nw0, Some err);
                                        EvAppend (errAppender e) ref l t v (0%N, Some e)]).
  { simpl. by rewrite (proj1 Hext), app_nil_r. }
  assert (Hc3 : coherent w m3) by (eapply coherent_heads; [exact Hc|apply Hext]).
  destruct (MultiWriter_Close_calls w m3 Hc3)
    as (m4 & entries & results & HCl & Hp & Hrun & Htr4 & _).
  destruct (Import_rejected MultiWriter_Writer pre post l t v e (w0, m0) (w0, m0) (w, m)
              (w, m3) (w, m4) ref 0%N
              (multiError_Err (foldl multiError_Add NewMulti results)))
    as [HI (log & Hspy & Hlog)]; [done|done| | |].
  { simpl. by rewrite (run_eq _ _ _ _ _ HA). }
  { simpl. apply run_eq. by rewrite (bind_eq _ _ _ _ _ HCl). }
  exists (mkMachine (os m1') (heads m1') (trace m1' ++ [EvNewTSDBWriter (nw0, Some err)])),
    m3, m4, entries, results, log. simpl.
  split; [by apply (getOrCreate_failure w t m hash m1' nw0 err)|].
  split; [exact HA|]. split; [exact Htr3|]. split; [done|]. split; [done|]. split; [done|].
  split; [exact HI|].
  split; [rewrite Htr4, Htr3; by rewrite <- app_assoc|].
  split; [exact Hspy|done].
Qed.

Lemma creation_failure_surfaces_at_append_witness :
  let w0 := Examples.start in
  let m0 := Ref.machine [inr Ref.healthy; inl (errors_New "no space left")] in
  let pre := [StepEntry EntrySeries Examples.up (Some 5%Z) 1%N] in
  let s := default ((w0, m0), 0%N) (consume MultiWriter_Writer pre 0%N (w0, m0)) in
  let w := s.1.1 in
  let m := s.1.2 in
  let ref := s.2 in
  let l := Examples.up in
  let nw := mkTSDBWriter "out" [] None "/tmp/head" in
  let err := errors_Wrap (errors_New "no space left") "tsdb.NewHead" in
  let e := errors_Wrap err "new tsdb writer" in
  let input := pre ++ StepEntry EntrySeries l (Some 15%Z) 2%N :: [] in
  (∀ m0 ref0 l0 t0 v0 ex,
     snd <$> Appender_Append (errAppender e) ref0 l0 t0 v0 m0 = Some (0%N, Some e) ∧
     snd <$> Appender_AppendExemplar (errAppender e) ref0 l0 ex m0 = Some (0%N, Some e) ∧
     snd <$> Appender_Commit (errAppender e) m0 = Some (Some e) ∧
     snd <$> Appender_Rollback (errAppender e) m0 = Some (Some e)) ∧
  ∃ m2 m3 m4 entries results log,
    let cerr := multiError_Err (foldl multiError_Add NewMulti results) in
    let result := ([], Some (nonNilMultiError (errors_Wrap e "add sample")
                                                (error_members cerr))) in
    getOrCreate w 15 m = Some (m2, (w, errAppender e)) ∧
    MultiWriter_Append w ref l 15 2%N m = Some (m3, (w, (0%N, Some e))) ∧
    trace m3 = trace m ++ [EvNewTSDBWriter (nw, Some err);
                           EvAppend (errAppender e) ref l 15 2%N (0%N, Some e)] ∧
    MultiWriter_Close w m3 = Some (m4, cerr) ∧
    entries ≡ₚ map_to_list (blocks w) ∧
    in_turn Writer_Close entries.*2 m3 results m4 ∧
    Import MultiWriter_Writer input (w0, m0) = Some ((w, m4), result) ∧
    trace m4 = trace m ++ [EvNewTSDBWriter (nw, Some err);
                           EvAppend (errAppender e) ref l 15 2%N (0%N, Some e)]
                       ++ zip_with EvClose entries.*2 results ∧
    Import (spy MultiWriter_Writer) input ((w0, m0), []) =
      Some (((w, m4), log ++ [CallAppend ref l 15 2%N (0%N, Some e); CallClose cerr]), result) ∧
    Forall (λ c, is_CallCommit c = false ∧ is_CallFlush c = false) log.
Proof.
  pose (w0 := Examples.start).
  pose (m0 := @Ref.machine [inr Ref.healthy; inl (errors_New "no space left")]).
  pose (pre := [StepEntry EntrySeries Examples.up (Some 5%Z) 1%N]).
  pose (s := default ((w0, m0), 0%N) (consume MultiWriter_Writer pre 0%N (w0, m0))).
  apply (creation_failure_surfaces_at_append (E := Ref.engine) w0 s.1.1 m0 s.1.2
           (default m0 (fst <$> NewTSDBWriter (mw_dir s.1.1) (mw_labels s.1.1) s.1.2))
           pre [] s.2 Examples.up 15 2%N (mkRange 10 20)
           (mkTSDBWriter "out" [] None "/tmp/head")
           (errors_Wrap (errors_New "no space left") "tsdb.NewHead")).
  - vm_compute. reflexivity.
  - apply reachable_coherent.
    apply (apply_ops_reachable [OpAppend 0%N Examples.up 5%Z 1%N] Examples.start m0);
      [apply (reach_new "out" 10 [])|vm_compute; reflexivity].
  - vm_compute. reflexivity.
  - vm_compute. reflexivity.
  - vm_compute. reflexivity.
Defined.

(** ** Flush of a builder without samples *)

Section EmptyBuilder.
Context `{E : Engine}.

(** A call through a head's handle, spelled out: the engine's step on the
    head, and the record of the call. *)
Lemma onHead_emit {A} (f : Head → World → Head * World * A) (mk : A → Event) h hd m :
  heads m !! h = Some hd →
  (res ← onHead (Some h) f; _ ← emit (mk res); mret res) m =
    Some (mkMachine ((f hd (os m)).1.2) (<[h := (f hd (os m)).1.1]> (heads m))
                    (trace m ++ [mk (f hd (os m)).2]),
          (f hd (os m)).2).
Proof.
  intros Hhd. rewrite (bind_eq _ _ _ _ _ (onHead_spec f h hd m Hhd)). done.
Qed.

Lemma handle_call {A} (f : Head → World → Head * World * A) (mk : A → Event) h hd m :
  heads m !! h = Some hd →
  ∃ m1, (res ← onHead (Some h) f; _ ← emit (mk res); mret res) m
          = Some (m1, (f hd (os m)).2) ∧
        heads m1 !! h = Some (f hd (os m)).1.1.
Proof.
  intros Hhd. rewrite (onHead_emit f mk h hd m Hhd). eexists. split; [done|].
  simpl. apply lookup_insert_eq.
Qed.

Context {contract : HeadContract}.

(** A builder that was created has a head without series. *)
Lemma NewTSDBWriter_no_series d l m m' nw :
  NewTSDBWriter d l m = Some (m', (nw, None)) →
  ∃ h hd, tw_head nw = Some h ∧ heads m' !! h = Some hd ∧ Head_NumSeries hd = 0%Z.
Proof using contract.
  unfold NewTSDBWriter, initHead.
  rewrite (bind_eq _ _ _ _ _ (sys_spec _ m)).
  destruct (ioutil_TempDir (os_TempDir (os m)) "head" (os m)) as [σ1 [err|tmp]] eqn:HT; simpl.
  { unfold mret, M_ret, ret. intros; simplify_eq. }
  unfold mbind at 1, M_bind, bind at 1, newHead. simpl.
  destruct (tsdb_NewHead _ σ1) as [σ2 [err|hd]] eqn:HN; simpl.
  { unfold mret, M_ret, ret. intros; simplify_eq. }
  intros Hrun.
  rewrite (bind_eq _ _ _ _ _ (onHead_spec (Head_Init Int64.min_int) _ hd
             (mkMachine σ2 (<[fresh (dom (heads m)) := hd]> (heads m)) (trace m))
             (lookup_insert_eq _ _ _))) in Hrun.
  unfold mret, M_ret, ret in Hrun. simpl in Hrun. simplify_eq.
  eexists _, _. split; [done|]. simpl. split; [apply lookup_insert_eq|].
  pose proof (NumSeries_Init Int64.min_int hd σ2) as HI. unfold projT in HI.
  rewrite HI. by eapply NumSeries_NewHead.
Qed.

(** Driving a handle never panics; the head has as many series as before
    if no sample was accepted, and at least one if some sample was. *)
Lemma drive_NumSeries h cs : ∀ m hd,
  heads m !! h = Some hd →
  ∃ m' n hd',
    drive (headAppender h) cs m = Some (m', n) ∧ heads m' !! h = Some hd' ∧
    (n = 0 → Head_NumSeries hd' = Head_NumSeries hd) ∧
    (0 < n → (0 < Head_NumSeries hd')%Z) ∧
    (Head_NumSeries hd ≤ Head_NumSeries hd')%Z.
Proof using contract.
  induction cs as [|c cs IH]; intros m hd Hhd.
  - exists m, 0, hd. split; [done|]. split; [done|]. split; [done|]. split; [lia|lia].
  - destruct c as [ref l t v|ref l e| |]; simpl.
    + destruct (handle_call (headAppender_Append ref l t v)
                  (EvAppend (headAppender h) ref l t v) h hd m Hhd) as (m1 & Hcall & Hhd1).
      rewrite (bind_eq _ _ _ _ _ Hcall).
      destruct (headAppender_Append ref l t v hd (os m)) as [[hd1 σ1] [ref1 err]] eqn:HA.
      simpl in *.
      destruct (IH m1 hd1 Hhd1) as (m' & n & hd' & HD & Hhd' & Hz & Hp & Hle).
      rewrite (bind_eq _ _ _ _ _ HD). destruct err as [err|].
      * pose proof (NumSeries_Append_rejected _ _ _ _ _ _ _ _ _ _ HA) as Heq.
        exists m', n, hd'. split; [done|]. split; [done|].
        split; [intros Hn; rewrite <- Heq; auto|]. split; [done|]. by rewrite <- Heq.
      * pose proof (NumSeries_Append_accepted _ _ _ _ _ _ _ _ _ HA) as [Hpos Hmono].
        exists m', (Datatypes.S n), hd'. split; [done|]. split; [done|].
        split; [done|]. split; lia.
    + destruct (handle_call (headAppender_AppendExemplar ref l e)
                  (EvAppendExemplar (headAppender h) ref l e) h hd m Hhd)
        as (m1 & Hcall & Hhd1).
      rewrite (bind_eq _ _ _ _ _ Hcall).
      pose proof (NumSeries_AppendExemplar ref l e hd (os m)) as Heq. unfold projT in Heq.
      destruct (IH m1 _ Hhd1) as (m' & n & hd' & HD & Hhd' & Hz & Hp & Hle).
      rewrite HD. exists m', n, hd'. split; [done|]. split; [done|].
      rewrite <- Heq. done.
    + destruct (handle_call headAppender_Commit (EvCommit (headAppender h)) h hd m Hhd)
        as (m1 & Hcall & Hhd1).
      rewrite (bind_eq _ _ _ _ _ Hcall).
      pose proof (NumSeries_Commit hd (os m)) as Heq. unfold projT in Heq.
      destruct (IH m1 _ Hhd1) as (m' & n & hd' & HD & Hhd' & Hz & Hp & Hle).
      rewrite HD. exists m', n, hd'. split; [done|]. split; [done|].
      rewrite <- Heq. done.
    + destruct (handle_call headAppender_Rollback (EvRollback (headAppender h)) h hd m Hhd)
        as (m1 & Hcall & Hhd1).
      rewrite (bind_eq _ _ _ _ _ Hcall).
      pose proof (NumSeries_Rollback hd (os m)) as Heq. unfold projT in Heq.
      destruct (IH m1 _ Hhd1) as (m' & n & hd' & HD & Hhd' & Hz & Hp & Hle).
      rewrite HD. exists m', n, hd'. split; [done|]. split; [done|].
      rewrite <- Heq. done.
Qed.

End EmptyBuilder.

(** C8: [Flush] on a builder whose head has no series returns the
    empty-builder error and no identifier, and leaves the machine as it
    was, so that nothing is written; on a head with series it does not
    return that error.  For a builder that was created and whose handle
    then received any calls, under the head's contract: if no sample was
    accepted, [Flush] fails in this way; if a sample was accepted, it
    does not. *)
Theorem TSDBWriter_Flush_empty_builder `{E : Engine} {contract : HeadContract} :
  (∀ b h hd m,
     tw_head b = Some h → heads m !! h = Some hd →
     (Head_NumSeries hd = 0%Z →
        TSDBWriter_Flush b m = Some (m, ([], Some EmptyBuilderError))) ∧
     (Head_NumSeries hd ≠ 0%Z →
        ∃ m' ids err, TSDBWriter_Flush b m = Some (m', (ids, err)) ∧
                      err ≠ Some EmptyBuilderError)) ∧
  (∀ dir lbls m0 m1 b cs,
     NewTSDBWriter dir lbls m0 = Some (m1, (b, None)) →
     ∃ h m2 n,
       tw_head b = Some h ∧
       drive (headAppender h) cs m1 = Some (m2, n) ∧
       (n = 0 → TSDBWriter_Flush b m2 = Some (m2, ([], Some EmptyBuilderError))) ∧
       (0 < n → ∃ m3 ids err, TSDBWriter_Flush b m2 = Some (m3, (ids, err)) ∧
                              err ≠ Some EmptyBuilderError)).
Proof.
  assert (Hcode : ∀ b h hd m,
     tw_head b = Some h → heads m !! h = Some hd →
     (Head_NumSeries hd = 0%Z →
        TSDBWriter_Flush b m = Some (m, ([], Some EmptyBuilderError))) ∧
     (Head_NumSeries hd ≠ 0%Z →
        ∃ m' ids err, TSDBWriter_Flush b m = Some (m', (ids, err)) ∧
                      err ≠ Some EmptyBuilderError)).
  { intros b h hd m Hb Hhd. split.
    - by apply (TSDBWriter_Flush_empty b h hd m).
    - intros Hn.
      destruct (TSDBWriter_Flush_nonempty b h hd m Hb Hhd Hn)
        as (m' & ids & err & HF & _ & _ & Hshape).
      exists m', ids, err. split; [done|].
      destruct Hshape as [[-> _]|(_ & e & msg & ->)]; discriminate. }
  split; [exact Hcode|].
  intros dir lbls m0 m1 b cs HN.
  destruct (NewTSDBWriter_no_series dir lbls m0 m1 b HN) as (h & hd & Hb & Hhd & Hzero).
  destruct (drive_NumSeries h cs m1 hd Hhd) as (m2 & n & hd' & HD & Hhd' & Hz & Hp & _).
  exists h, m2, n. split; [done|]. split; [done|].
  destruct (Hcode b h hd' m2 Hb Hhd') as [Hempty Hfull].
  split.
  - intros Hn. apply Hempty. rewrite Hz by done. done.
  - intros Hn. apply Hfull. specialize (Hp Hn). lia.
Qed.

(** The reference engine keeps the head's contract. *)
Lemma Ref_contract : @HeadContract Ref.engine.
Proof.
  split; try done.
  - intros opts σ σ' hd. simpl. unfold Ref.NewHead.
    destruct (Ref.script σ) as [|[err|f] rest]; intros; by simplify_eq.
  - intros ref l t v hd σ hd' σ' ref' err. simpl. unfold Ref.Append.
    destruct (Ref.failAppend (Ref.plan hd)); intros; by simplify_eq.
  - intros ref l t v hd σ hd' σ' ref'. simpl. unfold Ref.Append.
    destruct (Ref.failAppend (Ref.plan hd)); intros Heq; simplify_eq. simpl.
    case_decide as Hin; [|rewrite length_app; simpl; lia].
    split; [|lia]. destruct (Ref.series hd); [by apply elem_of_nil in Hin|simpl; lia].
Qed.

Lemma TSDBWriter_Flush_empty_builder_witness :
  let b := mkTSDBWriter "out" [] (Some 0) "/tmp/head" in
  let m1 := mkMachine (Ref.mkWorld [] 1%N false)
              {[0 := Ref.mkHead [] Int64.max_int Int64.min_int Ref.healthy]} [] in
  (∃ h m2 n,
     tw_head b = Some h ∧
     drive (headAppender h) [DoCommit; DoRollback] m1 = Some (m2, n) ∧
     (n = 0 → TSDBWriter_Flush b m2 = Some (m2, ([], Some EmptyBuilderError))) ∧
     (0 < n → ∃ m3 ids err, TSDBWriter_Flush b m2 = Some (m3, (ids, err)) ∧
                            err ≠ Some EmptyBuilderError)) ∧
  (∃ h m2 n,
     tw_head b = Some h ∧
     drive (headAppender h) [DoAppend 0%N Examples.up 5 1%N; DoCommit] m1 = Some (m2, n) ∧
     (n = 0 → TSDBWriter_Flush b m2 = Some (m2, ([], Some EmptyBuilderError))) ∧
     (0 < n → ∃ m3 ids err, TSDBWriter_Flush b m2 = Some (m3, (ids, err)) ∧
                            err ≠ Some EmptyBuilderError)).
Proof.
  pose proof (proj2 (@TSDBWriter_Flush_empty_builder Ref.engine Ref_contract)) as Hhist.
  split.
  - apply (Hhist "out" [] (Ref.machine [])). reflexivity.
  - apply (Hhist "out" [] (Ref.machine [])). reflexivity.
Defined.

(** ** Scenarios *)

(** Three samples within one hour go to one builder and give one block. *)
Example single_bucket :
  snd <$> Import MultiWriter_Writer
            [StepEntry EntrySeries Examples.up (Some 1000%Z) 1%N;
             StepEntry EntrySeries Examples.up (Some 500000%Z) 2%N;
             StepEntry EntrySeries Examples.up (Some 3000000%Z) 3%N]
            (Examples.hourly, Ref.machine [])
  = Some ([1%N], None).
Proof. vm_compute. reflexivity. Qed.

(** Samples at 100 and 3700000 go to two builders and give two blocks. *)
Example bucket_split :
  snd <$> Import MultiWriter_Writer
            [StepEntry EntrySeries Examples.up (Some 100%Z) 1%N;
             StepEntry EntrySeries Examples.up (Some 3700000%Z) 2%N]
            (Examples.hourly, Ref.machine [])
  = Some ([1%N; 2%N], None).
Proof. vm_compute. reflexivity. Qed.

(** A parse failure after two samples: the parse error and no block. *)
Example parse_error_mid_stream :
  snd <$> Import MultiWriter_Writer
            [StepEntry EntrySeries Examples.up (Some 100%Z) 1%N;
             StepEntry EntrySeries Examples.up (Some 200%Z) 2%N;
             StepErr (errors_New "bad line")]
            (Examples.hourly, Ref.machine [])
  = Some ([], Some (nonNilMultiError (errors_Wrap (errors_New "bad line") "parse") [])).
Proof. vm_compute. reflexivity. Qed.

(** Entries that are not series entries are skipped. *)
Example comments_skipped :
  snd <$> Import MultiWriter_Writer
            [StepEntry 3%Z [] None 0%N;
             StepEntry EntrySeries Examples.up (Some 100%Z) 1%N;
             StepEntry 1%Z [] None 0%N]
            (Examples.hourly, Ref.machine [])
  = Some ([1%N], None).
Proof. vm_compute. reflexivity. Qed.

(** A single builder as target of an empty input fails at flush. *)
Example single_builder_empty_input :
  snd <$> Import TSDBWriter_Writer [] Examples.single
  = Some ([], Some (nonNilMultiError (errors_Wrap EmptyBuilderError "flush") [])).
Proof. vm_compute. reflexivity. Qed.

(** Timestamps below zero: the bucket of -11 at width 10 is [-10, 0). *)
Example negative_timestamp :
  rangeKey 10 (-11) = Some {| Start := -10; End := 0 |} ∧
  rangeKey 10 (-10) = Some {| Start := -10; End := 0 |}.
Proof. split; reflexivity. Qed.

(** * Further properties of the pipeline *)

Section PipelineFacts.
Context {S : Type} (W : Writer S).

(** [Import] looks at its input only through the loop. *)
Lemma Import_same_loop p q s :
  (∀ ref s', Import_loop W p ref s' = Import_loop W q ref s') →
  Import W p s = Import W q s.
Proof.
  intros Hpq. unfold Import, Import_body.
  destruct (w_Appender W s) as [s0|]; simpl; [|done]. by rewrite Hpq.
Qed.

Lemma Import_loop_drop_skipped p : ∀ ref s,
  Import_loop W p ref s = Import_loop W (drop_skipped p) ref s.
Proof.
  induction p as [|st p IH]; intros ref s; [done|].
  destruct st as [err|e l ts v]; simpl.
  - by destruct err.
  - unfold drop_skipped in *. simpl.
    destruct (decide (e ≠ EntrySeries)) as [Hne|Heq].
    + rewrite bool_decide_eq_true_2 by done. simpl. apply IH.
    + rewrite bool_decide_eq_false_2 by done. simpl.
      rewrite decide_False by done.
      destruct ts as [t|]; [|done].
      destruct (a_Append W ref l t v s) as [[s1 [ref1 [err|]]]|]; simpl; [done| |done].
      apply IH.
Qed.

Lemma Import_loop_EOF pre post : ∀ ref s,
  Import_loop W (pre ++ StepErr io_EOF :: post) ref s = Import_loop W pre ref s.
Proof.
  induction pre as [|st pre IH]; intros ref s; [done|].
  destruct st as [err|e l ts v]; simpl.
  - by destruct err.
  - case_decide; [apply IH|].
    destruct ts as [t|]; [|done].
    destruct (a_Append W ref l t v s) as [[s1 [ref1 [err|]]]|]; simpl; [done| |done].
    apply IH.
Qed.

(** A prefix that is passed entirely leaves the loop by [break]. *)
Lemma consume_all p ref s s' ref' :
  consume W p ref s = Some (s', ref') → Import_loop W p ref s = Some (s', None).
Proof.
  intros H. rewrite <- (app_nil_r p). by rewrite (consume_loop W p ref s s' ref' [] H).
Qed.

(** The error the deferred function leaves when the body returned [berr]
    that is no aggregate. *)
Lemma combined_Wrap e msg cerr :
  multiError_Err (multiError_Add (multiError_Add NewMulti (Some (errors_Wrap e msg))) cerr)
  = Some (nonNilMultiError (errors_Wrap e msg) (error_members cerr)).
Proof. by rewrite (multiError_Add_app _ cerr). Qed.

(** The run in which the loop returns [err] after passing [pre]. *)
Lemma Import_loop_returns p s s0 s1 s2 err cerr :
  w_Appender W s = Some s0 →
  Import_loop W p 0%N s0 = Some (s1, Some err) →
  w_Close W s1 = Some (s2, cerr) →
  Import W p s =
    Some (s2, ([], multiError_Err (multiError_Add (multiError_Add NewMulti (Some err)) cerr))).
Proof.
  intros HA HL HC.
  apply (Import_unfold W p s s0 s1 s2 ([], Some err) cerr HA); [|done].
  unfold Import_body. by rewrite HL.
Qed.

End PipelineFacts.

(** X1: entries whose kind is not "series" are passed over without any
    call on the target: a run on an input and the run on the same input
    without those entries end in the same state with the same result (and,
    the target being any writer, with the same log of calls). *)
Theorem Import_skips_other_entries {S : Type} (W : Writer S) (p : Parser) (s : S) :
  Import W p s = Import W (drop_skipped p) s ∧
  Import (spy W) p (s, []) = Import (spy W) (drop_skipped p) (s, []).
Proof.
  split; apply Import_same_loop; intros; apply Import_loop_drop_skipped.
Qed.

(** X2: [io.EOF] from the parser ends the input wherever it comes: what
    would follow it is never looked at, and the run is the run on the
    entries before it. *)
Theorem Import_stops_at_EOF {S : Type} (W : Writer S) (pre post : Parser) (s : S) :
  Import W (pre ++ StepErr io_EOF :: post) s = Import W pre s.
Proof. apply Import_same_loop. intros. apply Import_loop_EOF. Qed.

Section PipelineLogs.
Context {S : Type} (W : Writer S).

(** A run with a log is the run without it, plus the log. *)
Lemma spy_erase p s log s' log' r :
  Import (spy W) p (s, log) = Some ((s', log'), r) → Import W p s = Some (s', r).
Proof.
  unfold Import. simpl. intros H.
  destruct (w_Appender W s) as [s0|]; simplify_eq/=.
  destruct (Import_body (spy W) p (s0, log ++ [CallAppender]))
    as [[[s1 log1] [ids berr]]|] eqn:HB; simplify_eq/=.
  apply spy_body in HB as [-> _]. simpl.
  destruct (w_Close W s1) as [[s2 cerr]|]; by simplify_eq/=.
Qed.

(** The run with a log in which the loop, after passing [pre], returns
    [err] from [rest] with the calls [extra]. *)
Lemma spy_abort_after pre rest s s0 s1 ref1 s1' err s2 cerr extra :
  w_Appender W s = Some s0 →
  consume W pre 0%N s0 = Some (s1, ref1) →
  (∀ log, Import_loop (spy W) rest ref1 (s1, log) = Some ((s1', log ++ extra), Some err)) →
  w_Close W s1' = Some (s2, cerr) →
  ∃ new,
    Import (spy W) (pre ++ rest) (s, []) =
      Some ((s2, CallAppender :: new ++ extra ++ [CallClose cerr]),
            ([], multiError_Err (multiError_Add (multiError_Add NewMulti (Some err)) cerr))) ∧
    Forall (λ c, is_CallAppend c = true) new ∧
    appended_timestamps new = series_timestamps pre.
Proof.
  intros HA Hpre Hrest HC.
  destruct (spy_consume W pre 0%N s0 [CallAppender] s1 ref1 Hpre) as (new & Hnew & Happ & Hts).
  exists new. split; [|done].
  rewrite (Import_loop_returns (spy W) (pre ++ rest) (s, []) (s0, [CallAppender])
             (s1', ([CallAppender] ++ new) ++ extra)
             (s2, (([CallAppender] ++ new) ++ extra) ++ [CallClose cerr]) err cerr).
  - simpl. by rewrite <- !app_assoc.
  - simpl. by rewrite HA.
  - rewrite (consume_loop (spy W) pre _ _ _ _ rest Hnew). apply Hrest.
  - simpl. by rewrite HC.
Qed.

Lemma appended_timestamps_app l1 l2 :
  appended_timestamps (l1 ++ l2) = appended_timestamps l1 ++ appended_timestamps l2.
Proof. unfold appended_timestamps. apply omap_app. Qed.

Lemma appends_no_epilogue new :
  Forall (λ c, is_CallAppend c = true) new →
  Forall (λ c, is_CallCommit c = false ∧ is_CallFlush c = false) new.
Proof. intros H. eapply Forall_impl; [exact H|]. by intros []. Qed.

End PipelineLogs.

(** X3: when the parser reports an error other than [io.EOF] after a
    prefix that was passed, the run stops there: it returns no identifier
    and the error wrapped as "parse", combined with the result of close;
    the samples appended are those of the prefix, and neither commit nor
    flush is called. *)
Theorem Import_parse_error {S : Type} (W : Writer S) (pre post : Parser) (e : error)
    (s s0 s1 s2 : S) (ref1 : SeriesRef) (cerr : option error) :
  e ≠ io_EOF →
  w_Appender W s = Some s0 →
  consume W pre 0%N s0 = Some (s1, ref1) →
  w_Close W s1 = Some (s2, cerr) →
  let input := pre ++ StepErr e :: post in
  let result := ([], Some (nonNilMultiError (errors_Wrap e "parse") (error_members cerr))) in
  Import W input s = Some (s2, result) ∧
  ∃ log, Import (spy W) input (s, []) = Some ((s2, log), result) ∧
         Forall (λ c, is_CallCommit c = false ∧ is_CallFlush c = false) log ∧
         appended_timestamps log = series_timestamps pre.
Proof.
  intros He HA Hpre HC input result.
  destruct (spy_abort_after W pre (StepErr e :: post) s s0 s1 ref1 s1
              (errors_Wrap e "parse") s2 cerr [] HA Hpre) as (new & HI & Happ & Hts).
  { intros log. rewrite app_nil_r. by destruct e. }
  { done. }
  rewrite combined_Wrap in HI. fold result in HI.
  split; [by apply spy_erase in HI|].
  eexists. split; [exact HI|]. split.
  - constructor; [done|]. apply Forall_app. split; [by apply appends_no_epilogue|].
    by repeat constructor.
  - change (CallAppender :: new ++ [] ++ [CallClose cerr])
      with ([CallAppender] ++ new ++ [] ++ [CallClose cerr]).
    rewrite !appended_timestamps_app. simpl. by rewrite app_nil_r.
Qed.

Lemma Import_parse_error_witness :
  let W := scripted None None ([7%N], None) None in
  let pre := [StepEntry EntrySeries [("a", "b")] (Some 5%Z) 1%N;
              StepEntry EntrySeries [("a", "b")] (Some 6%Z) 2%N] in
  let input := pre ++ StepErr (errors_New "bad line") :: [] in
  let result := ([], Some (nonNilMultiError (errors_Wrap (errors_New "bad line") "parse")
                                              (error_members None))) in
  Import W input 0 = Some (2, result) ∧
  ∃ log, Import (spy W) input (0, []) = Some ((2, log), result) ∧
         Forall (λ c, is_CallCommit c = false ∧ is_CallFlush c = false) log ∧
         appended_timestamps log = series_timestamps pre.
Proof.
  apply (Import_parse_error (scripted None None ([7%N], None) None)
           [StepEntry EntrySeries [("a", "b")] (Some 5%Z) 1%N;
            StepEntry EntrySeries [("a", "b")] (Some 6%Z) 2%N]
           [] (errors_New "bad line") 0 0 2 2 2%N None); [discriminate|reflexivity..].
Defined.

(** X4: when the target rejects a sample after a prefix that was passed,
    the run stops at that sample: it returns no identifier and the error
    of the append wrapped as "add sample", combined with the result of
    close; the rejected append is the last one, and neither commit nor
    flush is called. *)
Theorem Import_append_error {S : Type} (W : Writer S) (pre post : Parser)
    (l : Labels) (t : Z) (v : float64) (err : error)
    (s s0 s1 s1' s2 : S) (ref1 ref' : SeriesRef) (cerr : option error) :
  w_Appender W s = Some s0 →
  consume W pre 0%N s0 = Some (s1, ref1) →
  a_Append W ref1 l t v s1 = Some (s1', (ref', Some err)) →
  w_Close W s1' = Some (s2, cerr) →
  let input := pre ++ StepEntry EntrySeries l (Some t) v :: post in
  let result := ([], Some (nonNilMultiError (errors_Wrap err "add sample")
                                              (error_members cerr))) in
  Import W input s = Some (s2, result) ∧
  ∃ new, Import (spy W) input (s, []) =
           Some ((s2, CallAppender :: new ++ [CallAppend ref1 l t v (ref', Some err);
                                              CallClose cerr]), result) ∧
         Forall (λ c, is_CallAppend c = true) new ∧
         appended_timestamps new = series_timestamps pre.
Proof.
  intros HA Hpre Happ HC input result.
  destruct (spy_abort_after W pre (StepEntry EntrySeries l (Some t) v :: post) s s0 s1 ref1 s1'
              (errors_Wrap err "add sample") s2 cerr
              [CallAppend ref1 l t v (ref', Some err)] HA Hpre) as (new & HI & Hnew & Hts).
  { intros log. simpl. by rewrite Happ. }
  { done. }
  rewrite combined_Wrap in HI. fold result in HI.
  split; [by apply spy_erase in HI|].
  exists new. split; [exact HI|done].
Qed.

Lemma Import_append_error_witness :
  let W := scripted (Some (errors_New "out of bounds")) None ([7%N], None) None in
  let input := [] ++ StepEntry EntrySeries [("a", "b")] (Some 5%Z) 1%N :: [] in
  let result := ([], Some (nonNilMultiError
                             (errors_Wrap (errors_New "out of bounds") "add sample")
                             (error_members None))) in
  Import W input 0 = Some (0, result) ∧
  ∃ new, Import (spy W) input (0, []) =
           Some ((0, CallAppender :: new ++
                       [CallAppend 0%N [("a", "b")] 5 1%N
                                   (0%N, Some (errors_New "out of bounds"));
                        CallClose None]), result) ∧
         Forall (λ c, is_CallAppend c = true) new ∧
         appended_timestamps new = series_timestamps [].
Proof.
  apply (Import_append_error (scripted (Some (errors_New "out of bounds")) None ([7%N], None) None)
           [] [] [("a", "b")] 5 1%N (errors_New "out of bounds") 0 0 0 0 0 0%N 0%N None);
    reflexivity.
Defined.

Section PipelineEnd.
Context {S : Type} (W : Writer S).

(** The loop with a log over an input that is passed entirely. *)
Lemma spy_consume_all p s0 s1 ref1 :
  consume W p 0%N s0 = Some (s1, ref1) →
  ∃ new, Import_loop (spy W) p 0%N (s0, [CallAppender]) = Some ((s1, CallAppender :: new), None) ∧
         Forall (λ c, is_CallAppend c = true) new ∧
         appended_timestamps new = series_timestamps p.
Proof.
  intros Hp.
  destruct (spy_consume W p 0%N s0 [CallAppender] s1 ref1 Hp) as (new & Hnew & Happ & Hts).
  exists new. split; [|done]. by apply (consume_all (spy W)) in Hnew.
Qed.

(** A run with a log, from what its body and close return. *)
Lemma spy_Import_unfold p s s0 s1 log2 r s2 cerr :
  w_Appender W s = Some s0 →
  Import_body (spy W) p (s0, [CallAppender]) = Some ((s1, log2), r) →
  w_Close W s1 = Some (s2, cerr) →
  Import (spy W) p (s, []) =
    Some ((s2, log2 ++ [CallClose cerr]),
          (r.1, multiError_Err (multiError_Add (multiError_Add NewMulti r.2) cerr))).
Proof.
  intros HA HB HC.
  apply (Import_unfold (spy W) p (s, []) (s0, [CallAppender]) (s1, log2)); [|done|].
  - simpl. by rewrite HA.
  - simpl. by rewrite HC.
Qed.

End PipelineEnd.

(** X5: when the input is passed entirely and commit fails, flush is not
    called: the run returns no identifier and the error of commit wrapped
    as "commit", combined with the result of close, and its calls are the
    appends, the commit and the close. *)
Theorem Import_commit_error {S : Type} (W : Writer S) (p : Parser) (err : error)
    (s s0 s1 s2 s3 : S) (ref1 : SeriesRef) (cerr : option error) :
  w_Appender W s = Some s0 →
  consume W p 0%N s0 = Some (s1, ref1) →
  a_Commit W s1 = Some (s2, Some err) →
  w_Close W s2 = Some (s3, cerr) →
  let result := ([], Some (nonNilMultiError (errors_Wrap err "commit") (error_members cerr))) in
  Import W p s = Some (s3, result) ∧
  ∃ new, Import (spy W) p (s, []) =
           Some ((s3, CallAppender :: new ++ [CallCommit (Some err); CallClose cerr]), result) ∧
         Forall (λ c, is_CallAppend c = true) new ∧
         appended_timestamps new = series_timestamps p.
Proof.
  intros HA Hp HCo HC result.
  destruct (spy_consume_all W p s0 s1 ref1 Hp) as (new & HL & Hnew & Hts).
  assert (HI : Import (spy W) p (s, []) =
               Some ((s3, CallAppender :: new ++ [CallCommit (Some err); CallClose cerr]),
                     result)).
  { rewrite (spy_Import_unfold W p s s0 s2 ((CallAppender :: new) ++ [CallCommit (Some err)])
               ([], Some (errors_Wrap err "commit")) s3 cerr HA); [| |done].
    - cbn [fst snd]. by rewrite combined_Wrap, <- app_assoc.
    - unfold Import_body. rewrite HL. simpl. by rewrite HCo. }
  split; [by apply spy_erase in HI|]. by exists new.
Qed.

Lemma Import_commit_error_witness :
  let W := scripted None (Some (errors_New "out of order")) ([7%N], None) None in
  let p := [StepEntry EntrySeries [("a", "b")] (Some 5%Z) 1%N] in
  let result := ([], Some (nonNilMultiError (errors_Wrap (errors_New "out of order") "commit")
                                              (error_members None))) in
  Import W p 0 = Some (1, result) ∧
  ∃ new, Import (spy W) p (0, []) =
           Some ((1, CallAppender :: new ++ [CallCommit (Some (errors_New "out of order"));
                                              CallClose None]), result) ∧
         Forall (λ c, is_CallAppend c = true) new ∧
         appended_timestamps new = series_timestamps p.
Proof.
  apply (Import_commit_error (scripted None (Some (errors_New "out of order")) ([7%N], None) None)
           [StepEntry EntrySeries [("a", "b")] (Some 5%Z) 1%N]
           (errors_New "out of order") 0 0 1 1 1 1%N None); reflexivity.
Defined.

(** X6: when the input is passed entirely, commit succeeds and flush
    fails, the run returns the error of flush wrapped as "flush", combined
    with the result of close, and no identifier, whatever identifiers
    flush returned beside its error. *)
Theorem Import_flush_error {S : Type} (W : Writer S) (p : Parser) (ids : list ULID)
    (err : error) (s s0 s1 s2 s3 s4 : S) (ref1 : SeriesRef) (cerr : option error) :
  w_Appender W s = Some s0 →
  consume W p 0%N s0 = Some (s1, ref1) →
  a_Commit W s1 = Some (s2, None) →
  w_Flush W s2 = Some (s3, (ids, Some err)) →
  w_Close W s3 = Some (s4, cerr) →
  let result := ([], Some (nonNilMultiError (errors_Wrap err "flush") (error_members cerr))) in
  Import W p s = Some (s4, result) ∧
  ∃ new, Import (spy W) p (s, []) =
           Some ((s4, CallAppender :: new ++ [CallCommit None; CallFlush (ids, Some err);
                                              CallClose cerr]), result) ∧
         Forall (λ c, is_CallAppend c = true) new ∧
         appended_timestamps new = series_timestamps p.
Proof.
  intros HA Hp HCo HF HC result.
  destruct (spy_consume_all W p s0 s1 ref1 Hp) as (new & HL & Hnew & Hts).
  assert (HI : Import (spy W) p (s, []) =
               Some ((s4, CallAppender :: new ++ [CallCommit None; CallFlush (ids, Some err);
                                                  CallClose cerr]), result)).
  { rewrite (spy_Import_unfold W p s s0 s3
               ((CallAppender :: new) ++ [CallCommit None; CallFlush (ids, Some err)])
               ([], Some (errors_Wrap err "flush")) s4 cerr HA); [| |done].
    - cbn [fst snd]. by rewrite combined_Wrap, <- app_assoc.
    - unfold Import_body. rewrite HL. simpl. rewrite HCo. simpl. rewrite HF. simpl.
      by rewrite <- !app_assoc. }
  split; [by apply spy_erase in HI|]. by exists new.
Qed.

Lemma Import_flush_error_witness :
  let W := scripted None None ([7%N], Some (errors_New "disk full")) None in
  let p := [StepEntry EntrySeries [("a", "b")] (Some 5%Z) 1%N] in
  let result := ([], Some (nonNilMultiError (errors_Wrap (errors_New "disk full") "flush")
                                              (error_members None))) in
  Import W p 0 = Some (1, result) ∧
  ∃ new, Import (spy W) p (0, []) =
           Some ((1, CallAppender :: new ++
                       [CallCommit None; CallFlush ([7%N], Some (errors_New "disk full"));
                        CallClose None]), result) ∧
         Forall (λ c, is_CallAppend c = true) new ∧
         appended_timestamps new = series_timestamps p.
Proof.
  apply (Import_flush_error (scripted None None ([7%N], Some (errors_New "disk full")) None)
           [StepEntry EntrySeries [("a", "b")] (Some 5%Z) 1%N] [7%N]
           (errors_New "disk full") 0 0 1 1 1 1 1%N None); reflexivity.
Defined.

(** X7: when the input is passed entirely and commit and flush succeed,
    every sample of the input was appended, in order, commit and flush
    were each called once, in that order, and the run returns the
    identifiers flush returned; its error is the result of close alone. *)
Theorem Import_success {S : Type} (W : Writer S) (p : Parser) (ids : list ULID)
    (s s0 s1 s2 s3 s4 : S) (ref1 : SeriesRef) (cerr : option error) :
  w_Appender W s = Some s0 →
  consume W p 0%N s0 = Some (s1, ref1) →
  a_Commit W s1 = Some (s2, None) →
  w_Flush W s2 = Some (s3, (ids, None)) →
  w_Close W s3 = Some (s4, cerr) →
  let result := (ids, multiError_Err (error_members cerr)) in
  Import W p s = Some (s4, result) ∧
  (result.2 = None ↔ cerr = None) ∧
  ∃ new, Import (spy W) p (s, []) =
           Some ((s4, CallAppender :: new ++ [CallCommit None; CallFlush (ids, None);
                                              CallClose cerr]), result) ∧
         Forall (λ c, is_CallAppend c = true) new ∧
         appended_timestamps new = series_timestamps p.
Proof.
  intros HA Hp HCo HF HC result.
  destruct (spy_consume_all W p s0 s1 ref1 Hp) as (new & HL & Hnew & Hts).
  assert (HI : Import (spy W) p (s, []) =
               Some ((s4, CallAppender :: new ++ [CallCommit None; CallFlush (ids, None);
                                                  CallClose cerr]), result)).
  { rewrite (spy_Import_unfold W p s s0 s3
               ((CallAppender :: new) ++ [CallCommit None; CallFlush (ids, None)])
               (ids, None) s4 cerr HA); [| |done].
    - simpl. by rewrite <- app_assoc.
    - unfold Import_body. rewrite HL. simpl. rewrite HCo. simpl. rewrite HF. simpl.
      by rewrite <- !app_assoc. }
  split; [by apply spy_erase in HI|].
  split; [|by exists new].
  unfold result. simpl. rewrite multiError_Err_None. apply error_members_nil.
Qed.

Lemma Import_success_witness :
  let W := scripted None None ([7%N], None) None in
  let p := [StepEntry EntrySeries [("a", "b")] (Some 5%Z) 1%N;
            StepEntry 3%Z [] None 0%N;
            StepEntry EntrySeries [("a", "b")] (Some 9%Z) 2%N] in
  let result := ([7%N], multiError_Err (error_members None)) in
  Import W p 0 = Some (2, result) ∧
  (result.2 = None ↔ (None : option error) = None) ∧
  ∃ new, Import (spy W) p (0, []) =
           Some ((2, CallAppender :: new ++ [CallCommit None; CallFlush ([7%N], None);
                                              CallClose None]), result) ∧
         Forall (λ c, is_CallAppend c = true) new ∧
         appended_timestamps new = series_timestamps p.
Proof.
  apply (Import_success (scripted None None ([7%N], None) None)
           [StepEntry EntrySeries [("a", "b")] (Some 5%Z) 1%N;
            StepEntry 3%Z [] None 0%N;
            StepEntry EntrySeries [("a", "b")] (Some 9%Z) 2%N] [7%N]
           0 0 2 2 2 2 2%N None); reflexivity.
Defined.

Section PipelineOrder.
Context {S : Type} (W : Writer S).

(** The calls of the loop: appends only, each given the reference the
    one before returned; if the loop is left by [break], all succeeded. *)
Lemma spy_loop_chained p : ∀ ref s log s' log' r,
  Import_loop (spy W) p ref (s, log) = Some ((s', log'), r) →
  ∃ new, log' = log ++ new ∧
         Forall (λ c, is_CallAppend c = true) new ∧
         chained ref new ∧
         (r = None → Forall (λ c, ∃ ref l t v ref', c = CallAppend ref l t v (ref', None)) new).
Proof.
  induction p as [|st p IH]; intros ref s log s' log' r H; simpl in *.
  - simplify_eq. exists []. by rewrite app_nil_r.
  - destruct st as [err|e l ts v].
    + assert (log' = log) as -> by (destruct err; by simplify_eq/=).
      exists []. by rewrite app_nil_r.
    + case_decide; [by eapply IH|].
      destruct ts as [t|].
      * destruct (a_Append W ref l t v s) as [[s1 [ref1 err]]|] eqn:HA; simplify_eq/=.
        destruct err as [err|]; simplify_eq/=.
        -- eexists [_]. split; [done|]. split; [by repeat constructor|].
           split; [done|]. done.
        -- apply IH in H as (new & -> & Hnew & Hch & Hok).
           eexists (_ :: new). rewrite <- app_assoc. split; [done|].
           split; [by constructor|]. split; [done|].
           intros Hr. constructor; [eauto 10|auto].
      * simplify_eq. exists []. by rewrite app_nil_r.
Qed.

End PipelineOrder.

(** X8: the calls of a run on a target that does not panic come in one
    order: the append session is opened; then appends only, each given the
    series reference the one before returned, beginning with 0; then
    nothing, or a commit that failed, or a successful commit followed by
    one flush; then one close.  Commit is called only if every append
    succeeded. *)
Theorem Import_call_order {S : Type} (W : Writer S) (I : S → Prop) (p : Parser) (s : S) :
  safe W I → I s →
  ∃ s' appends tail cerr r,
    Import (spy W) p (s, []) =
      Some ((s', CallAppender :: appends ++ tail ++ [CallClose cerr]), r) ∧
    Forall (λ c, is_CallAppend c = true) appends ∧
    chained 0%N appends ∧
    epilogue tail ∧
    (tail ≠ [] →
     Forall (λ c, ∃ ref l t v ref', c = CallAppend ref l t v (ref', None)) appends).
Proof.
  intros HW Hs.
  destruct (Import_safe (spy W) _ p (s, []) (spy_safe W I HW) Hs)
    as ([s0 l0] & [s1 l1] & [s2 l2] & r & cerr & HA & HB & HC & _).
  rewrite (Import_unfold (spy W) p _ _ _ _ _ cerr HA HB HC).
  simpl in HA, HC.
  destruct (w_Appender W s) as [s0'|] eqn:HA'; simplify_eq/=.
  destruct (w_Close W s1) as [[s2' cerr']|] eqn:HC'; simplify_eq/=.
  unfold Import_body in HB.
  destruct (Import_loop (spy W) p 0%N (s0, [CallAppender])) as [[[sa la] ra]|] eqn:HL;
    simplify_eq/=.
  apply spy_loop_chained in HL as (new & -> & Hnew & Hch & Hok).
  destruct ra as [e|]; simplify_eq/=.
  { exists s2, new, [], cerr. eexists. split; [done|]. split; [done|]. split; [done|].
    split; [constructor|done]. }
  specialize (Hok eq_refl).
  destruct (a_Commit W sa) as [[sb err]|] eqn:HCo; simplify_eq/=.
  destruct err as [e|]; simplify_eq/=.
  { exists s2, new, [CallCommit (Some e)], cerr. eexists.
    split; [by rewrite <- !app_assoc|]. split; [done|]. split; [done|].
    split; [constructor|done]. }
  destruct (w_Flush W sb) as [[sc [ids err]]|] eqn:HF; simplify_eq/=.
  destruct err as [e|]; simplify_eq/=.
  - exists s2, new, [CallCommit None; CallFlush (ids, Some e)], cerr. eexists.
    split; [by rewrite <- !app_assoc|]. split; [done|]. split; [done|].
    split; [constructor|done].
  - exists s2, new, [CallCommit None; CallFlush (ids, None)], cerr. eexists.
    split; [by rewrite <- !app_assoc|]. split; [done|]. split; [done|].
    split; [constructor|done].
Qed.

Lemma Import_call_order_witness :
  let W := scripted None None ([7%N], None) (Some (errors_New "busy")) in
  let p := [StepEntry EntrySeries [("a", "b")] (Some 5%Z) 1%N;
            StepEntry EntrySeries [("a", "b")] (Some 9%Z) 2%N] in
  ∃ s' appends tail cerr r,
    Import (spy W) p (0, []) =
      Some ((s', CallAppender :: appends ++ tail ++ [CallClose cerr]), r) ∧
    Forall (λ c, is_CallAppend c = true) appends ∧
    chained 0%N appends ∧
    epilogue tail ∧
    (tail ≠ [] →
     Forall (λ c, ∃ ref l t v ref', c = CallAppend ref l t v (ref', None)) appends).
Proof.
  apply (Import_call_order (scripted None None ([7%N], None) (Some (errors_New "busy")))
           (λ _, True)
           [StepEntry EntrySeries [("a", "b")] (Some 5%Z) 1%N;
            StepEntry EntrySeries [("a", "b")] (Some 9%Z) 2%N] 0).
  - split; intros; simpl; eauto.
  - exact Logic.I.
Defined.

(** * Further properties of the coordinator *)

Lemma rollbacks_of_zip h (hs : list Appender) rs :
  length rs = length hs → NoDup hs → headAppender h ∈ hs →
  rollbacks_of h (zip_with EvRollback hs rs) = 1.
Proof.
  apply (count_zip_once EvRollback). intros [err|h'] r; simpl.
  - split; [done|discriminate].
  - rewrite bool_decide_eq_true. split; [by intros ->|by intros [= ->]].
Qed.

(** X9: rollback follows the discipline of commit: on a coherent
    coordinator it is called on every stored handle exactly once, one
    handle after the other, also after a handle has failed; each head
    behind a handle is afterwards what the engine's rollback made of it,
    the result recorded for the handle is what that rollback returned, and
    no other head is touched; the error returned aggregates the errors of
    all the calls, and is nil exactly when every call returned nil. *)
Theorem MultiWriter_Rollback_every_handle `{E : Engine} (w : MultiWriter) (m : Machine) :
  coherent w m →
  ∃ m' entries results,
    let calls := zip_with EvRollback entries.*2 results in
    let err := multiError_Err (foldl multiError_Add NewMulti results) in
    MultiWriter_Rollback w m = Some (m', err) ∧
    entries ≡ₚ map_to_list (activeAppenders w) ∧
    length results = length entries ∧
    in_turn Appender_Rollback entries.*2 m results m' ∧
    Forall2 (λ ra res, ∃ h, ra.2 = headAppender h ∧
                            head_call headAppender_Rollback h m m' res) entries results ∧
    (∀ h, (∀ r, activeAppenders w !! r ≠ Some (headAppender h)) →
          heads m' !! h = heads m !! h) ∧
    trace m' = trace m ++ calls ∧
    (∀ r h, activeAppenders w !! r = Some (headAppender h) → rollbacks_of h calls = 1) ∧
    (err = None ↔ Forall (λ r, r = None) results) ∧
    error_members err = concat (error_members <$> results).
Proof.
  intros Hc.
  destruct (MultiWriter_Rollback_calls w m Hc)
    as (m' & entries & results & HC & Hp & Hrun & Htr & _ & Hframe & Hall).
  pose proof (in_turn_length _ _ _ _ _ Hrun) as Hlen. rewrite length_fmap in Hlen.
  exists m', entries, results. simpl.
  split; [done|]. split; [done|]. split; [done|]. split; [done|].
  split; [by apply handle_calls|].
  split; [intros h Hno; by apply Hframe, (handle_frame w)|].
  split; [done|].
  split; [|split; [apply aggregate_None|apply aggregate_members]].
  intros r h Ha. apply rollbacks_of_zip.
  - by rewrite length_fmap.
  - by eapply coherent_NoDup_handles.
  - apply list_elem_of_fmap. exists (r, headAppender h). split; [done|].
    rewrite Hp. by apply elem_of_map_to_list.
Qed.

Lemma MultiWriter_Rollback_every_handle_witness :
  let w := (Examples.after Examples.three_buckets Examples.commit_fails).2 in
  let m := (Examples.after Examples.three_buckets Examples.commit_fails).1 in
  ∃ m' entries results,
    let calls := zip_with EvRollback entries.*2 results in
    let err := multiError_Err (foldl multiError_Add NewMulti results) in
    MultiWriter_Rollback w m = Some (m', err) ∧
    entries ≡ₚ map_to_list (activeAppenders w) ∧
    length results = length entries ∧
    in_turn Appender_Rollback entries.*2 m results m' ∧
    Forall2 (λ ra res, ∃ h, ra.2 = headAppender h ∧
                            head_call headAppender_Rollback h m m' res) entries results ∧
    (∀ h, (∀ r, activeAppenders w !! r ≠ Some (headAppender h)) →
          heads m' !! h = heads m !! h) ∧
    trace m' = trace m ++ calls ∧
    (∀ r h, activeAppenders w !! r = Some (headAppender h) → rollbacks_of h calls = 1) ∧
    (err = None ↔ Forall (λ r, r = None) results) ∧
    error_members err = concat (error_members <$> results).
Proof.
  apply MultiWriter_Rollback_every_handle.
  apply reachable_coherent.
  apply (apply_ops_reachable Examples.three_buckets Examples.start Examples.commit_fails);
    [apply (reach_new "out" 10 [])|vm_compute; reflexivity].
Defined.

(** X10: close of a coherent coordinator is called on every stored builder
    exactly once, one builder after the other, also after a builder has
    failed to close; the head of each builder is afterwards what the
    engine's close made of it after the builder's temporary directory was
    removed, the result recorded for the builder is what that close
    returned, and no other head is touched; the error returned aggregates
    the errors of all the calls, and is nil exactly when every builder
    closed without error.  The builders stay stored. *)
Theorem MultiWriter_Close_every_builder `{E : Engine} (w : MultiWriter) (m : Machine) :
  coherent w m →
  ∃ m' entries results,
    let calls := zip_with EvClose entries.*2 results in
    let err := multiError_Err (foldl multiError_Add NewMulti results) in
    MultiWriter_Close w m = Some (m', err) ∧
    entries ≡ₚ map_to_list (blocks w) ∧
    length results = length entries ∧
    in_turn Writer_Close entries.*2 m results m' ∧
    Forall2 (λ rb res, ∃ h, tw_head rb.2 = Some h ∧
                            head_call (close_head rb.2) h m m' res) entries results ∧
    (∀ h, (∀ r b, blocks w !! r = Some b → tw_head b ≠ Some h) →
          heads m' !! h = heads m !! h) ∧
    trace m' = trace m ++ calls ∧
    (∀ r b, blocks w !! r = Some b → closes_of b calls = 1) ∧
    (err = None ↔ Forall (λ r, r = None) results) ∧
    error_members err = concat (error_members <$> results) ∧
    coherent w m'.
Proof.
  intros Hc.
  destruct (MultiWriter_Close_calls w m Hc)
    as (m' & entries & results & HC & Hp & Hrun & Htr & Hdom & Hframe & Hall).
  pose proof (in_turn_length _ _ _ _ _ Hrun) as Hlen. rewrite length_fmap in Hlen.
  exists m', entries, results. simpl.
  split; [done|]. split; [done|]. split; [done|]. split; [done|]. split; [done|].
  split; [intros h Hno; by apply Hframe, (builder_frame w)|].
  split; [done|].
  split; [|split; [apply aggregate_None|split; [apply aggregate_members|]]].
  - intros r b Hb. apply closes_of_zip.
    + by rewrite length_fmap.
    + by eapply coherent_NoDup.
    + apply list_elem_of_fmap. exists (r, b). split; [done|].
      rewrite Hp. by apply elem_of_map_to_list.
  - eapply coherent_heads; [exact Hc|]. by rewrite Hdom.
Qed.

Lemma MultiWriter_Close_every_builder_witness :
  let w := (Examples.after Examples.three_buckets Examples.close_fails).2 in
  let m := (Examples.after Examples.three_buckets Examples.close_fails).1 in
  ∃ m' entries results,
    let calls := zip_with EvClose entries.*2 results in
    let err := multiError_Err (foldl multiError_Add NewMulti results) in
    MultiWriter_Close w m = Some (m', err) ∧
    entries ≡ₚ map_to_list (blocks w) ∧
    length results = length entries ∧
    in_turn Writer_Close entries.*2 m results m' ∧
    Forall2 (λ rb res, ∃ h, tw_head rb.2 = Some h ∧
                            head_call (close_head rb.2) h m m' res) entries results ∧
    (∀ h, (∀ r b, blocks w !! r = Some b → tw_head b ≠ Some h) →
          heads m' !! h = heads m !! h) ∧
    trace m' = trace m ++ calls ∧
    (∀ r b, blocks w !! r = Some b → closes_of b calls = 1) ∧
    (err = None ↔ Forall (λ r, r = None) results) ∧
    error_members err = concat (error_members <$> results) ∧
    coherent w m'.
Proof.
  apply MultiWriter_Close_every_builder.
  apply reachable_coherent.
  apply (apply_ops_reachable Examples.three_buckets Examples.start Examples.close_fails);
    [apply (reach_new "out" 10 [])|vm_compute; reflexivity].
Defined.

Section Frames.
Context `{E : Engine}.

Lemma mret_Some {A} (a : A) (m m' : Machine) (a' : A) :
  (mret a : M A) m = Some (m', a') → m' = m ∧ a' = a.
Proof. unfold mret, M_ret, ret. intros; by simplify_eq. Qed.

Lemma onHead_frame {A} (f : Head → World → Head * World * A) h0 m m' a :
  onHead (Some h0) f m = Some (m', a) →
  trace m' = trace m ∧ dom (heads m') = dom (heads m) ∧
  ∀ h, h ≠ h0 → heads m' !! h = heads m !! h.
Proof.
  unfold onHead. destruct (heads m !! h0) as [hd|] eqn:Hhd; [|done].
  destruct (f hd (os m)) as [[hd' σ] a0]. intros; simplify_eq. simpl.
  split; [done|]. split; [apply dom_insert_lookup_L; eauto|].
  intros h Hne. by rewrite lookup_insert_ne.
Qed.

Lemma emit_frame e m m' u :
  emit e m = Some (m', u) → trace m' = trace m ++ [e] ∧ heads m' = heads m ∧ os m' = os m.
Proof. unfold emit. intros; by simplify_eq. Qed.

(** Creating a builder leaves every allocated head as it was. *)
Lemma NewTSDBWriter_frame d l m m' r :
  NewTSDBWriter d l m = Some (m', r) →
  ∀ h, h ∈ dom (heads m) → heads m' !! h = heads m !! h.
Proof.
  unfold NewTSDBWriter, initHead.
  rewrite (bind_eq _ _ _ _ _ (sys_spec _ m)).
  destruct (ioutil_TempDir (os_TempDir (os m)) "head" (os m)) as [σ1 [err|tmp]] eqn:HT; simpl.
  { intros [-> _]%mret_Some. done. }
  unfold mbind at 1, M_bind, bind at 1, newHead. simpl.
  destruct (tsdb_NewHead _ σ1) as [σ2 [err|hd]] eqn:HN; simpl.
  { intros [-> _]%mret_Some. done. }
  intros Hrun h Hh.
  assert (Hne : h ≠ fresh (dom (heads m))).
  { intros ->. by apply (is_fresh (dom (heads m))). }
  apply bind_Some in Hrun as (m1 & e & Hon & [-> _]%mret_Some).
  apply onHead_frame in Hon as (_ & _ & Hf). rewrite (Hf h Hne). simpl.
  by rewrite lookup_insert_ne.
Qed.

(** Routing leaves every head that was allocated as it was. *)
Lemma getOrCreate_frame w t m m' r :
  getOrCreate w t m = Some (m', r) →
  ∀ h, h ∈ dom (heads m) → heads m' !! h = heads m !! h.
Proof.
  unfold getOrCreate. intros H h Hh.
  destruct (rangeKey (sizeMillis w) t) as [hash|]; [|done].
  destruct (activeAppenders w !! hash) as [a0|].
  { apply mret_Some in H as [-> _]. done. }
  apply bind_Some in H as (m1 & [nw err] & HN & H).
  apply bind_Some in H as (m2 & [] & Hem & H).
  pose proof (NewTSDBWriter_frame _ _ _ _ _ HN h Hh) as H1.
  apply emit_frame in Hem as (_ & Hh2 & _).
  destruct (NewTSDBWriter_spec (mw_dir w) (mw_labels w) m) as (m1' & nw' & err' & HN' & Hext & Hfresh).
  rewrite HN in HN'. simplify_eq.
  destruct err' as [err|].
  { apply mret_Some in H as [-> _]. by rewrite Hh2. }
  destruct (Hfresh eq_refl) as (h0 & Hnw & Hnot & _).
  apply bind_Some in H as (m3 & a3 & HA & [-> _]%mret_Some).
  unfold TSDBWriter_Appender in HA. rewrite Hnw in HA.
  apply bind_Some in HA as (m4 & [] & Hon & [-> _]%mret_Some).
  apply onHead_frame in Hon as (_ & _ & Hf).
  rewrite Hf, Hh2; [done|]. intros ->. done.
Qed.

(** What routing returns for a range is what it stored for it. *)
Lemma getOrCreate_stored w t m hash m' w' h :
  rangeKey (sizeMillis w) t = Some hash →
  getOrCreate w t m = Some (m', (w', headAppender h)) →
  activeAppenders w' !! hash = Some (headAppender h) ∧ sizeMillis w' = sizeMillis w.
Proof.
  intros Hk H. unfold getOrCreate in H. rewrite Hk in H.
  destruct (activeAppenders w !! hash) as [a0|] eqn:Ha.
  { apply mret_Some in H as [-> ?]. by simplify_eq. }
  apply bind_Some in H as (m1 & [nw err] & HN & H).
  apply bind_Some in H as (m2 & [] & Hem & H).
  destruct err as [err|].
  { apply mret_Some in H as [-> ?]. by simplify_eq. }
  apply bind_Some in H as (m3 & a3 & HA & [-> ?]%mret_Some). simplify_eq. simpl.
  split; [apply lookup_insert_eq|done].
Qed.

(** Routing keeps what is stored, stores at most one builder more, and
    leaves directory, width and labels alone. *)
Lemma getOrCreate_grows w t m m' w' a :
  same_keys w → getOrCreate w t m = Some (m', (w', a)) →
  blocks w ⊆ blocks w' ∧ activeAppenders w ⊆ activeAppenders w' ∧
  size (blocks w') ≤ Datatypes.S (size (blocks w)) ∧
  mw_dir w' = mw_dir w ∧ sizeMillis w' = sizeMillis w ∧ mw_labels w' = mw_labels w.
Proof.
  intros Hkeys H. unfold getOrCreate in H.
  destruct (rangeKey (sizeMillis w) t) as [hash|]; [|done].
  destruct (activeAppenders w !! hash) as [a0|] eqn:Ha.
  { apply mret_Some in H as [-> ?]. simplify_eq. repeat split; try done. lia. }
  apply bind_Some in H as (m1 & [nw err] & HN & H).
  apply bind_Some in H as (m2 & [] & Hem & H).
  destruct err as [err|].
  { apply mret_Some in H as [-> ?]. simplify_eq. repeat split; try done. lia. }
  apply bind_Some in H as (m3 & a3 & HA & [-> ?]%mret_Some). simplify_eq. simpl.
  assert (Hb : blocks w !! hash = None).
  { apply not_elem_of_dom. rewrite Hkeys. by apply not_elem_of_dom. }
  split; [by apply insert_subseteq|]. split; [by apply insert_subseteq|].
  split; [by rewrite map_size_insert_None|done].
Qed.

End Frames.

(** X11: no operation of the coordinator removes or replaces what is
    stored, and none changes directory, bucket width or labels: from a
    reachable state, every builder and every handle present before an
    operation is present, under the same range, after it, and at most one
    builder is added. *)
Theorem MultiWriter_keeps_entries `{E : Engine} (o : Op) (w w' : MultiWriter)
    (m m' : Machine) :
  reachable w m → apply_op o w m = Some (m', w') →
  blocks w ⊆ blocks w' ∧ activeAppenders w ⊆ activeAppenders w' ∧
  size (blocks w') ≤ Datatypes.S (size (blocks w)) ∧
  mw_dir w' = mw_dir w ∧ sizeMillis w' = sizeMillis w ∧ mw_labels w' = mw_labels w.
Proof.
  intros Hr Hop. pose proof (coh_keys w m (reachable_coherent w m Hr)) as Hk.
  assert (Hsame : w' = w →
    blocks w ⊆ blocks w' ∧ activeAppenders w ⊆ activeAppenders w' ∧
    size (blocks w') ≤ Datatypes.S (size (blocks w)) ∧
    mw_dir w' = mw_dir w ∧ sizeMillis w' = sizeMillis w ∧ mw_labels w' = mw_labels w).
  { intros ->. repeat split; try done. lia. }
  destruct o as [ref l t v|ref l e| | | |]; simpl in Hop.
  - apply bind_Some in Hop as (m1 & [w1 res] & HA & [-> ->]%mret_Some).
    unfold MultiWriter_Append in HA.
    apply bind_Some in HA as (m2 & [w2 a] & HG & HA).
    apply bind_Some in HA as (m3 & res' & _ & [-> ?]%mret_Some). simplify_eq.
    by eapply getOrCreate_grows.
  - apply bind_Some in Hop as (m1 & [w1 res] & HA & [-> ->]%mret_Some).
    unfold MultiWriter_AppendExemplar in HA.
    apply bind_Some in HA as (m2 & [w2 a] & HG & HA).
    apply bind_Some in HA as (m3 & res' & _ & [-> ?]%mret_Some). simplify_eq.
    by eapply getOrCreate_grows.
  - apply bind_Some in Hop as (m1 & res & _ & [-> ->]%mret_Some). by apply Hsame.
  - apply bind_Some in Hop as (m1 & res & _ & [-> ->]%mret_Some). by apply Hsame.
  - apply bind_Some in Hop as (m1 & res & _ & [-> ->]%mret_Some). by apply Hsame.
  - apply bind_Some in Hop as (m1 & res & _ & [-> ->]%mret_Some). by apply Hsame.
Qed.

Lemma MultiWriter_keeps_entries_witness :
  let w := Examples.start in
  let m := Examples.commit_fails in
  let w' := (Examples.after [OpAppend 0%N Examples.up 5%Z 1%N] Examples.commit_fails).2 in
  blocks w ⊆ blocks w' ∧ activeAppenders w ⊆ activeAppenders w' ∧
  size (blocks w') ≤ Datatypes.S (size (blocks w)) ∧
  mw_dir w' = mw_dir w ∧ sizeMillis w' = sizeMillis w ∧ mw_labels w' = mw_labels w.
Proof.
  apply (MultiWriter_keeps_entries (OpAppend 0%N Examples.up 5%Z 1%N)
           Examples.start _ Examples.commit_fails
           (Examples.after [OpAppend 0%N Examples.up 5%Z 1%N] Examples.commit_fails).1).
  - apply (reach_new "out" 10 []).
  - vm_compute. reflexivity.
Defined.

(** X12: in every state reached from a new coordinator, under each range
    either nothing is stored, or a builder with an allocated head and, in
    the other map, the handle of that very head; and no head belongs to
    the builders of two ranges. *)
Theorem reachable_handles_match_builders `{E : Engine} (w : MultiWriter) (m : Machine) :
  reachable w m →
  (∀ r, (blocks w !! r = None ∧ activeAppenders w !! r = None) ∨
        (∃ b h, blocks w !! r = Some b ∧ tw_head b = Some h ∧ is_Some (heads m !! h) ∧
                activeAppenders w !! r = Some (headAppender h))) ∧
  (∀ r1 r2 b1 b2 h,
     blocks w !! r1 = Some b1 → blocks w !! r2 = Some b2 →
     tw_head b1 = Some h → tw_head b2 = Some h → r1 = r2).
Proof.
  intros Hr. pose proof (reachable_coherent w m Hr) as Hc. split.
  - intros r. destruct (blocks w !! r) as [b|] eqn:Hb.
    + right. destruct (coh_handle w m Hc r b Hb) as (h & ? & ? & ?). eauto 10.
    + left. split; [done|]. apply not_elem_of_dom. rewrite <- (coh_keys w m Hc).
      by apply not_elem_of_dom.
  - intros r1 r2 b1 b2 h Hb1 Hb2 Hh1 Hh2.
    apply (coh_distinct w m Hc r1 r2 b1 b2 Hb1 Hb2). congruence.
Qed.

Lemma reachable_handles_match_builders_witness :
  let w := (Examples.after Examples.three_buckets Examples.creation_fails).2 in
  let m := (Examples.after Examples.three_buckets Examples.creation_fails).1 in
  (∀ r, (blocks w !! r = None ∧ activeAppenders w !! r = None) ∨
        (∃ b h, blocks w !! r = Some b ∧ tw_head b = Some h ∧ is_Some (heads m !! h) ∧
                activeAppenders w !! r = Some (headAppender h))) ∧
  (∀ r1 r2 b1 b2 h,
     blocks w !! r1 = Some b1 → blocks w !! r2 = Some b2 →
     tw_head b1 = Some h → tw_head b2 = Some h → r1 = r2).
Proof.
  apply reachable_handles_match_builders.
  apply (apply_ops_reachable Examples.three_buckets Examples.start Examples.creation_fails);
    [apply (reach_new "out" 10 [])|vm_compute; reflexivity].
Defined.

(** X13: once routing has returned the handle of a head for a range,
    routing any timestamp of that range returns that handle again, without
    a creation attempt and without any change of coordinator or machine. *)
Theorem getOrCreate_reuses_handle `{E : Engine} (w w1 : MultiWriter) (m m1 : Machine)
    (t t' : Z) (hash : Range) (h : loc) :
  rangeKey (sizeMillis w) t = Some hash →
  rangeKey (sizeMillis w) t' = Some hash →
  getOrCreate w t m = Some (m1, (w1, headAppender h)) →
  getOrCreate w1 t' m1 = Some (m1, (w1, headAppender h)).
Proof.
  intros Hk Hk' HG.
  destruct (getOrCreate_stored w t m hash m1 w1 h Hk HG) as [Ha Hs].
  unfold getOrCreate. by rewrite Hs, Hk', Ha.
Qed.

Lemma getOrCreate_reuses_handle_witness :
  let s := Examples.after [OpAppend 0%N Examples.up 5%Z 1%N] Examples.commit_fails in
  getOrCreate s.2 9 s.1 = Some (s.1, (s.2, headAppender 0)).
Proof.
  apply (getOrCreate_reuses_handle
           (Examples.after [OpAppend 0%N Examples.up 5%Z 1%N] Examples.commit_fails).2 _
           (Examples.after [OpAppend 0%N Examples.up 5%Z 1%N] Examples.commit_fails).1 _
           5 9 (mkRange 0 10) 0).
  - reflexivity.
  - reflexivity.
  - vm_compute. reflexivity.
Defined.

Section AppendFacts.
Context `{E : Engine}.

(** A call of [Append] through any handle records the call and changes
    no head but the handle's own. *)
Lemma Appender_Append_frame a ref l t v m m' res :
  Appender_Append a ref l t v m = Some (m', res) →
  trace m' = trace m ++ [EvAppend a ref l t v res] ∧
  ∀ h, a ≠ headAppender h → heads m' !! h = heads m !! h.
Proof.
  unfold Appender_Append. intros H.
  apply bind_Some in H as (m1 & res1 & Hcall & H).
  apply bind_Some in H as (m2 & [] & Hem & [-> ->]%mret_Some).
  apply emit_frame in Hem as (Htr & Hh & _). rewrite Htr, Hh.
  destruct a as [err|h0].
  - apply mret_Some in Hcall as [-> ->]. done.
  - apply onHead_frame in Hcall as (Htr1 & _ & Hf). rewrite Htr1. split; [done|].
    intros h Hne. apply Hf. congruence.
Qed.

End AppendFacts.

(** X14: an append through a coherent coordinator changes no head but
    that of the builder of the sample's range: the head of every builder
    stored under another range is after the call what it was before. *)
Theorem MultiWriter_Append_touches_one_head `{E : Engine} (w w' : MultiWriter)
    (m m' : Machine) (ref : SeriesRef) (l : Labels) (t : Z) (v : float64)
    (res : SeriesRef * option error) (hash : Range) :
  coherent w m →
  rangeKey (sizeMillis w) t = Some hash →
  MultiWriter_Append w ref l t v m = Some (m', (w', res)) →
  ∀ r b h, r ≠ hash → blocks w !! r = Some b → tw_head b = Some h →
           heads m' !! h = heads m !! h.
Proof.
  intros Hc Hk HA r b h Hne Hb Hh.
  assert (Hw : sizeMillis w ≠ 0%Z).
  { intros Hz. rewrite Hz in Hk. done. }
  unfold MultiWriter_Append in HA.
  apply bind_Some in HA as (m1 & [w1 a] & HG & HA).
  apply bind_Some in HA as (m2 & res' & Happ & [-> Heq]%mret_Some).
  injection Heq as -> ->.
  destruct (coherent_builder w m r b Hc Hb) as (h' & Hh' & Hal).
  rewrite Hh in Hh'. injection Hh' as <-.
  rewrite <- (getOrCreate_frame w t m m1 _ HG h Hal).
  apply (Appender_Append_frame _ _ _ _ _ _ _ _ Happ).
  intros ->.
  destruct (getOrCreate_stored w t m hash m1 w1 h Hk HG) as [Hstored _].
  destruct (getOrCreate_spec w t m Hc Hw)
    as (m1' & w1' & a' & new & HG' & _ & Hc1 & _ & Hsub & _).
  rewrite HG in HG'. injection HG' as <- <- <-.
  assert (Hb1 : blocks w1 !! r = Some b) by (by eapply lookup_weaken).
  assert (hash ∈ dom (blocks w1)) as [b0 Hb0]%elem_of_dom.
  { rewrite (coh_keys _ _ Hc1). by apply elem_of_dom_2 in Hstored. }
  destruct (coh_handle _ _ Hc1 hash b0 Hb0) as (h0 & Hh0 & _ & Ha0).
  rewrite Hstored in Ha0. simplify_eq.
  apply Hne. apply (coh_distinct _ _ Hc1 r hash b b0 Hb1 Hb0). congruence.
Qed.

Lemma MultiWriter_Append_touches_one_head_witness :
  let s := Examples.after [OpAppend 0%N Examples.up 5%Z 1%N] Examples.commit_fails in
  let s' := Examples.after [OpAppend 0%N Examples.up 5%Z 1%N;
                            OpAppend 0%N Examples.up 15%Z 2%N] Examples.commit_fails in
  heads s'.1 !! (0 : loc) = heads s.1 !! (0 : loc).
Proof.
  apply (MultiWriter_Append_touches_one_head
           (Examples.after [OpAppend 0%N Examples.up 5%Z 1%N] Examples.commit_fails).2
           (Examples.after [OpAppend 0%N Examples.up 5%Z 1%N;
                            OpAppend 0%N Examples.up 15%Z 2%N] Examples.commit_fails).2
           (Examples.after [OpAppend 0%N Examples.up 5%Z 1%N] Examples.commit_fails).1
           (Examples.after [OpAppend 0%N Examples.up 5%Z 1%N;
                            OpAppend 0%N Examples.up 15%Z 2%N] Examples.commit_fails).1
           0%N Examples.up 15 2%N (1%N, None) (mkRange 10 20)) with
    (r := mkRange 0 10)
    (b := default (mkTSDBWriter "" [] None "")
            (blocks (Examples.after [OpAppend 0%N Examples.up 5%Z 1%N]
                       Examples.commit_fails).2 !! mkRange 0 10)).
  - apply reachable_coherent.
    apply (apply_ops_reachable [OpAppend 0%N Examples.up 5%Z 1%N]
             Examples.start Examples.commit_fails);
      [apply (reach_new "out" 10 [])|vm_compute; reflexivity].
  - reflexivity.
  - vm_compute. reflexivity.
  - discriminate.
  - vm_compute. reflexivity.
  - vm_compute. reflexivity.
Defined.

(** X15: on a coherent coordinator an append panics exactly when the
    bucket width is zero (the division of [rangeForTimestamp]); with any
    other width it returns. *)
Theorem MultiWriter_Append_panics_iff_zero_width `{E : Engine} (w : MultiWriter)
    (m : Machine) (ref : SeriesRef) (l : Labels) (t : Z) (v : float64) :
  coherent w m →
  (MultiWriter_Append w ref l t v m = None ↔ sizeMillis w = 0%Z).
Proof.
  intros Hc. split.
  - intros HN. destruct (decide (sizeMillis w = 0%Z)) as [|Hw]; [done|].
    destruct (MultiWriter_Append_spec w ref l t v m Hc Hw) as (? & ? & ? & ? & HA & _).
    congruence.
  - intros Hz. unfold MultiWriter_Append, mbind, M_bind, bind.
    by rewrite (getOrCreate_zero_width w t m Hz).
Qed.

Lemma MultiWriter_Append_panics_iff_zero_width_witness :
  (MultiWriter_Append (NewMultiWriter "out" 0 []) 0%N Examples.up 5 1%N (Ref.machine []) = None
   ↔ sizeMillis (NewMultiWriter "out" 0 []) = 0%Z) ∧
  (MultiWriter_Append Examples.start 0%N Examples.up 5 1%N (Ref.machine []) = None
   ↔ sizeMillis Examples.start = 0%Z).
Proof.
  split.
  - apply MultiWriter_Append_panics_iff_zero_width. apply coherent_new.
  - apply MultiWriter_Append_panics_iff_zero_width. apply coherent_new.
Defined.

(** * Further properties of the builder *)

(** X16: creating a builder never panics and records no call; the builder
    carries the directory and labels it was given; every head allocated
    before is left as it was; on success exactly one head is allocated,
    at a location not used before; and when the builder is returned
    without a head, no head was allocated and the error is that of the
    temporary directory or of [tsdb.NewHead], wrapped. *)
Theorem NewTSDBWriter_isolated `{E : Engine} (d : string) (l : Labels) (m : Machine) :
  ∃ m' nw err,
    NewTSDBWriter d l m = Some (m', (nw, err)) ∧
    trace m' = trace m ∧ tw_dir nw = d ∧ tw_labels nw = l ∧
    (∀ h, h ∈ dom (heads m) → heads m' !! h = heads m !! h) ∧
    (err = None →
       ∃ h, tw_head nw = Some h ∧ (h ∉ dom (heads m)) ∧
            dom (heads m') = {[h]} ∪ dom (heads m)) ∧
    (tw_head nw = None →
       heads m' = heads m ∧
       ∃ e, err = Some (errors_Wrap e "create temp dir") ∨
            err = Some (errors_Wrap e "tsdb.NewHead")).
Proof.
  destruct (NewTSDBWriter_spec d l m) as (m' & nw & err & HN & [Htr _] & _).
  exists m', nw, err. split; [done|]. split; [by rewrite Htr, app_nil_r|].
  pose proof (NewTSDBWriter_frame d l m m' _ HN) as Hframe.
  revert HN. unfold NewTSDBWriter, initHead.
  rewrite (bind_eq _ _ _ _ _ (sys_spec _ m)).
  destruct (ioutil_TempDir (os_TempDir (os m)) "head" (os m)) as [σ1 [e|tmp]] eqn:HT; simpl.
  { intros [-> Heq]%mret_Some. injection Heq as -> ->. simpl.
    split; [done|]. split; [done|]. split; [done|]. split; [done|]. eauto. }
  unfold mbind at 1, M_bind, bind at 1, newHead. simpl.
  destruct (tsdb_NewHead _ σ1) as [σ2 [e|hd]] eqn:HN; simpl.
  { intros [-> Heq]%mret_Some. injection Heq as -> ->. simpl.
    split; [done|]. split; [done|]. split; [done|]. split; [done|]. eauto. }
  intros Hrun.
  apply bind_Some in Hrun as (m1 & e & Hon & [-> Heq]%mret_Some).
  injection Heq as -> ->. simpl.
  apply onHead_frame in Hon as (_ & Hdom & _). simpl in Hdom.
  split; [done|]. split; [done|]. split; [done|]. split; [|done].
  intros _. exists (fresh (dom (heads m))). split; [done|].
  split; [apply is_fresh|]. by rewrite Hdom, dom_insert_L.
Qed.

(** X17: flush of a builder whose head has no series returns the
    empty-builder error and leaves the machine as it was.  Otherwise it
    takes four steps in this order -- create the compactor; write the head
    for the range from its minimum time to its maximum time plus one into
    the builder's directory; read the metadata of the block written; write
    it back, with the source "thanos-kit" and the builder's labels, to the
    block's directory -- and ends at the first step that fails, with no
    identifier and the error of that step wrapped with the step's name,
    the operating system being as that step left it.  Only when all four
    succeed does it return an identifier: the one the compactor returned. *)
Theorem TSDBWriter_Flush_one_block_or_error `{E : Engine} (b : TSDBWriter) (h : loc)
    (hd : Head) (m : Machine) :
  tw_head b = Some h → heads m !! h = Some hd →
  ∃ m' ids err,
    TSDBWriter_Flush b m = Some (m', (ids, err)) ∧
    ((Head_NumSeries hd = 0%Z ∧ m' = m ∧ ids = [] ∧ err = Some EmptyBuilderError)
     ∨
     (Head_NumSeries hd ≠ 0%Z ∧
      ∃ σ1 rc, tsdb_NewLeveledCompactor [DurToMillis_2h] (os m) = (σ1, rc) ∧
        match rc with
        | inl e =>
          os m' = σ1 ∧ ids = [] ∧ err = Some (errors_Wrap e "create leveled compactor")
        | inr c =>
          ∃ σ2 rw,
            Compactor_Write c (tw_dir b) hd (Head_MinTime hd)
              (Int64.add (Head_MaxTime hd) 1) σ1 = (σ2, rw) ∧
            match rw with
            | inl e => os m' = σ2 ∧ ids = [] ∧ err = Some (errors_Wrap e "compactor write")
            | inr id =>
              let blockDir := filepath_Join (tw_dir b) (ULID_String id) in
              ∃ σ3 rr,
                metadata_ReadFromDir blockDir σ2 = (σ3, rr) ∧
                match rr with
                | inl e => os m' = σ3 ∧ ids = [] ∧ err = Some (errors_Wrap e "metadata read")
                | inr meta =>
                  ∃ σ4 we,
                    Meta_WriteToDir
                      (mkMeta (meta_block meta) "thanos-kit" (Labels_Map (tw_labels b)))
                      blockDir σ3 = (σ4, we) ∧
                    os m' = σ4 ∧
                    match we with
                    | Some e => ids = [] ∧ err = Some (errors_Wrap e "metadata write")
                    | None => ids = [id] ∧ err = None
                    end
                end
            end
        end)).
Proof.
  intros Hb Hhd.
  destruct (decide (Head_NumSeries hd = 0%Z)) as [Hn|Hn].
  { rewrite (TSDBWriter_Flush_empty b h hd m Hb Hhd Hn).
    eexists _, _, _. split; [done|]. left. eauto. }
  unfold TSDBWriter_Flush. rewrite Hb.
  rewrite (bind_eq _ _ _ _ _ (readHead_spec Head_NumSeries h hd m Hhd)).
  rewrite (bind_eq _ _ _ _ _ (readHead_spec Head_NumSeries h hd m Hhd)).
  rewrite decide_False by done.
  rewrite (bind_eq _ _ _ _ _ (readHead_spec Head_MinTime h hd m Hhd)).
  rewrite (bind_eq _ _ _ _ _ (readHead_spec _ h hd m Hhd)).
  rewrite (bind_eq _ _ _ _ _ (sys_spec _ m)).
  destruct (tsdb_NewLeveledCompactor [DurToMillis_2h] (os m)) as [σ1 [err|c]] eqn:HNC; simpl.
  { eexists _, _, _. split; [done|]. simpl.
    right. split; [done|]. eexists _, _. split; [done|]. done. }
  erewrite bind_eq; [|by apply readHead_spec]. simpl.
  erewrite bind_eq; [|by apply sys_spec]. simpl.
  destruct (Compactor_Write c (tw_dir b) hd _ _ σ1) as [σ2 [err|id]] eqn:HW; simpl.
  { eexists _, _, _. split; [done|]. simpl.
    right. split; [done|]. eexists _, _. split; [done|]. eexists _, _. split; [done|]. done. }
  erewrite bind_eq; [|by apply sys_spec]. simpl.
  destruct (metadata_ReadFromDir _ σ2) as [σ3 [err|meta]] eqn:HR; simpl.
  { eexists _, _, _. split; [done|]. simpl.
    right. split; [done|]. eexists _, _. split; [done|]. eexists _, _. split; [done|].
    simpl. eexists _, _. split; [done|]. done. }
  erewrite bind_eq; [|by apply sys_spec]. simpl.
  destruct (Meta_WriteToDir _ _ σ3) as [σ4 [err|]] eqn:HM; simpl.
  { eexists _, _, _. split; [done|]. simpl.
    right. split; [done|]. eexists _, _. split; [done|]. eexists _, _. split; [done|].
    simpl. eexists _, _. split; [done|]. eexists _, _. split; [done|]. done. }
  eexists _, _, _. split; [done|]. simpl.
  right. split; [done|]. eexists _, _. split; [done|]. eexists _, _. split; [done|].
  simpl. eexists _, _. split; [done|]. eexists _, _. split; [done|]. done.
Qed.

Lemma TSDBWriter_Flush_one_block_or_error_witness :
  let s := Examples.after [OpAppend 0%N Examples.up 5%Z 1%N; OpCommit] (Ref.machine []) in
  let m := s.1 in
  let b := default (mkTSDBWriter "" [] None "") (blocks s.2 !! mkRange 0 10) in
  let hd := default (Ref.mkHead [] 0 0 Ref.healthy) (heads m !! (0 : loc)) in
  ∃ m' ids err,
    TSDBWriter_Flush b m = Some (m', (ids, err)) ∧
    ((Head_NumSeries hd = 0%Z ∧ m' = m ∧ ids = [] ∧ err = Some EmptyBuilderError)
     ∨
     (Head_NumSeries hd ≠ 0%Z ∧
      ∃ σ1 rc, tsdb_NewLeveledCompactor [DurToMillis_2h] (os m) = (σ1, rc) ∧
        match rc with
        | inl e =>
          os m' = σ1 ∧ ids = [] ∧ err = Some (errors_Wrap e "create leveled compactor")
        | inr c =>
          ∃ σ2 rw,
            Compactor_Write c (tw_dir b) hd (Head_MinTime hd)
              (Int64.add (Head_MaxTime hd) 1) σ1 = (σ2, rw) ∧
            match rw with
            | inl e => os m' = σ2 ∧ ids = [] ∧ err = Some (errors_Wrap e "compactor write")
            | inr id =>
              let blockDir := filepath_Join (tw_dir b) (ULID_String id) in
              ∃ σ3 rr,
                metadata_ReadFromDir blockDir σ2 = (σ3, rr) ∧
                match rr with
                | inl e => os m' = σ3 ∧ ids = [] ∧ err = Some (errors_Wrap e "metadata read")
                | inr meta =>
                  ∃ σ4 we,
                    Meta_WriteToDir
                      (mkMeta (meta_block meta) "thanos-kit" (Labels_Map (tw_labels b)))
                      blockDir σ3 = (σ4, we) ∧
                    os m' = σ4 ∧
                    match we with
                    | Some e => ids = [] ∧ err = Some (errors_Wrap e "metadata write")
                    | None => ids = [id] ∧ err = None
                    end
                end
            end
        end)).
Proof.
  pose (s := Examples.after [OpAppend 0%N Examples.up 5%Z 1%N; OpCommit] (Ref.machine [])).
  apply (TSDBWriter_Flush_one_block_or_error (E := Ref.engine)
           (default (mkTSDBWriter "" [] None "") (blocks s.2 !! mkRange 0 10)) 0
           (default (Ref.mkHead [] 0 0 Ref.healthy) (heads s.1 !! (0 : loc))) s.1).
  - vm_compute. reflexivity.
  - vm_compute. reflexivity.
Defined.

Section FlushCount.
Context `{E : Engine}.

(** A successful flush of a stored builder returns one identifier. *)
Lemma Writer_Flush_ok_one b h m m' ids :
  tw_head b = Some h → h ∈ dom (heads m) →
  Writer_Flush b m = Some (m', (ids, None)) →
  (∃ id, ids = [id]) ∧ dom (heads m') = dom (heads m).
Proof.
  intros Hb [hd Hhd]%elem_of_dom H. unfold Writer_Flush in H.
  apply bind_Some in H as (m1 & res & HF & H).
  apply bind_Some in H as (m2 & [] & Hem & [-> Heq]%mret_Some). subst res.
  apply emit_frame in Hem as (_ & Hh & _). rewrite Hh.
  destruct (decide (Head_NumSeries hd = 0%Z)) as [Hn|Hn].
  { rewrite (TSDBWriter_Flush_empty b h hd m Hb Hhd Hn) in HF. by simplify_eq. }
  destruct (TSDBWriter_Flush_nonempty b h hd m Hb Hhd Hn)
    as (m1' & ids' & err & HF' & Hheads & _ & Hshape).
  rewrite HF in HF'. simplify_eq. rewrite Hheads.
  destruct Hshape as [[_ ?]|(_ & ? & ? & ?)]; [done|discriminate].
Qed.

Lemma flushEach_count entries : ∀ ids m m' ids',
  Forall (λ rb, ∃ h, tw_head rb.2 = Some h ∧ h ∈ dom (heads m)) entries →
  flushEach entries ids m = Some (m', (ids', None)) →
  length ids' = length ids + length entries.
Proof.
  induction entries as [|[r b] entries IH]; intros ids m m' ids' Hlive H; simpl in H.
  - apply mret_Some in H as [_ ?]. simplify_eq. simpl. lia.
  - inversion Hlive as [|?? (h & Hb & Hh) Hrest]; simpl in *; subst.
    apply bind_Some in H as (m1 & [id err] & HF & H).
    destruct err as [err|].
    { apply mret_Some in H as [_ ?]. simplify_eq. }
    destruct (Writer_Flush_ok_one b h m m1 id Hb Hh HF) as [[i ->] Hdom].
    apply IH in H.
    + rewrite H, length_app. simpl. lia.
    + eapply Forall_impl; [exact Hrest|]. intros [r' b'] (h' & ? & ?).
      exists h'. by rewrite Hdom.
Qed.

Lemma creations_app tr1 tr2 : creations (tr1 ++ tr2) = creations tr1 + creations tr2.
Proof. unfold creations. by rewrite List.filter_app, length_app. Qed.

Lemma creations_none tr :
  Forall (λ e, ∀ nw, e ≠ EvNewTSDBWriter (nw, None)) tr → creations tr = 0.
Proof.
  unfold creations. induction 1 as [|e tr He _ IH]; simpl; [done|].
  destruct e as [[nw [err|]]| | | | | |]; simpl; try done. by destruct (He nw).
Qed.

(** Routing records one successful creation exactly when it stores one
    builder more. *)
Lemma getOrCreate_creations w t m m' w' a :
  same_keys w → getOrCreate w t m = Some (m', (w', a)) →
  creations (trace m') + size (blocks w) = creations (trace m) + size (blocks w').
Proof.
  intros Hkeys H. unfold getOrCreate in H.
  destruct (rangeKey (sizeMillis w) t) as [hash|]; [|done].
  destruct (activeAppenders w !! hash) as [a0|] eqn:Ha.
  { apply mret_Some in H as [-> ?]. by simplify_eq. }
  apply bind_Some in H as (m1 & [nw err] & HN & H).
  apply bind_Some in H as (m2 & [] & Hem & H).
  destruct (NewTSDBWriter_spec (mw_dir w) (mw_labels w) m) as (m1' & nw' & err' & HN' & [Htr _] & _).
  rewrite HN in HN'. simplify_eq. rewrite app_nil_r in Htr.
  apply emit_frame in Hem as (Htr2 & _ & _).
  destruct err' as [err|].
  { apply mret_Some in H as [-> ?]. simplify_eq.
    rewrite Htr2, creations_app, Htr. simpl. unfold creations at 2. simpl. lia. }
  apply bind_Some in H as (m3 & a3 & HA & [-> ?]%mret_Some). simplify_eq. simpl.
  assert (Hb : blocks w !! hash = None).
  { apply not_elem_of_dom. rewrite Hkeys. by apply not_elem_of_dom. }
  rewrite map_size_insert_None by done.
  assert (trace m3 = trace m2) as ->.
  { unfold TSDBWriter_Appender in HA. destruct (tw_head nw') as [h|]; [|done].
    apply bind_Some in HA as (m4 & [] & Hon & [-> _]%mret_Some).
    by apply onHead_frame in Hon as (? & _). }
  rewrite Htr2, creations_app, Htr. unfold creations at 2. simpl. lia.
Qed.

Lemma Appender_call_creations {A} (c : M A) (mk : A → Event) m m' res :
  (∀ m0 m1 r, c m0 = Some (m1, r) → trace m1 = trace m0) →
  (∀ r nw, mk r ≠ EvNewTSDBWriter (nw, None)) →
  (res ← c; _ ← emit (mk res); mret res) m = Some (m', res) →
  creations (trace m') = creations (trace m).
Proof.
  intros Hc Hmk H.
  apply bind_Some in H as (m1 & res1 & Hcall & H).
  apply bind_Some in H as (m2 & [] & Hem & [-> ->]%mret_Some).
  apply emit_frame in Hem as (Htr & _ & _).
  rewrite Htr, creations_app, (Hc _ _ _ Hcall), (creations_none [_]); [lia|].
  repeat constructor. intros nw. apply Hmk.
Qed.

Lemma handle_trace {A} (a : Appender) (f : Head → World → Head * World * A)
    (dflt : error → A) m0 m1 r :
  match a with
  | errAppender err => mret (dflt err)
  | headAppender h => onHead (Some h) f
  end m0 = Some (m1, r) → trace m1 = trace m0.
Proof.
  destruct a as [err|h].
  - by intros [-> _]%mret_Some.
  - by intros (? & _)%onHead_frame.
Qed.

(** A flush that fails returns no identifier. *)
Lemma flushEach_failed entries : ∀ ids m m' ids' err,
  flushEach entries ids m = Some (m', (ids', Some err)) → ids' = [].
Proof.
  induction entries as [|[r b] entries IH]; intros ids m m' ids' err H; simpl in H.
  - apply mret_Some in H as [_ ?]. simplify_eq.
  - apply bind_Some in H as (m1 & [id [e|]] & HF & H).
    + apply mret_Some in H as [_ ?]. by simplify_eq.
    + by eapply IH.
Qed.

Lemma MultiWriter_Flush_count w m m' ids :
  coherent w m → MultiWriter_Flush w m = Some (m', (ids, None)) →
  length ids = size (blocks w).
Proof.
  intros Hc H. unfold MultiWriter_Flush, rangeOver in H.
  apply bind_Some in H as (m1 & entries & Hr & H).
  assert (Hp : entries ≡ₚ map_to_list (blocks w)).
  { simplify_eq. apply map_range_perm. }
  assert (m1 = m) as -> by congruence.
  apply flushEach_count in H; [|by apply (coherent_live_builders w)].
  rewrite H. simpl. by rewrite Hp, length_map_to_list.
Qed.

(** Flush of a stored builder leaves the heads alone, and fails on a head
    without series. *)
Lemma Writer_Flush_heads b h hd m m' res :
  tw_head b = Some h → heads m !! h = Some hd →
  Writer_Flush b m = Some (m', res) →
  heads m' = heads m ∧
  (Head_NumSeries hd = 0%Z → res = ([], Some EmptyBuilderError)).
Proof.
  intros Hb Hhd H. unfold Writer_Flush in H.
  apply bind_Some in H as (m1 & res1 & HF & H).
  apply bind_Some in H as (m2 & [] & Hem & [-> Heq]%mret_Some). subst res1.
  apply emit_frame in Hem as (_ & Hh & _). rewrite Hh.
  destruct (decide (Head_NumSeries hd = 0%Z)) as [Hn|Hn].
  - rewrite (TSDBWriter_Flush_empty b h hd m Hb Hhd Hn) in HF. by simplify_eq.
  - destruct (TSDBWriter_Flush_nonempty b h hd m Hb Hhd Hn)
      as (m1' & ids' & err & HF' & Hheads & _).
    rewrite HF in HF'. by simplify_eq.
Qed.

Lemma flushEach_empty_member entries : ∀ ids m m' res,
  Forall (λ rb, ∃ h, tw_head rb.2 = Some h ∧ h ∈ dom (heads m)) entries →
  flushEach entries ids m = Some (m', res) →
  heads m' = heads m ∧
  ∀ r b h hd, (r, b) ∈ entries → tw_head b = Some h → heads m !! h = Some hd →
              Head_NumSeries hd = 0%Z → ∃ err, res = ([], Some err).
Proof.
  induction entries as [|[r0 b0] entries IH]; intros ids m m' res Hlive H; simpl in H.
  - apply mret_Some in H as [-> _]. split; [done|].
    intros r b h hd Hin. by apply elem_of_nil in Hin.
  - inversion Hlive as [|?? (h0 & Hb0 & [hd0 Hhd0]%elem_of_dom) Hrest]; simpl in *; subst.
    apply bind_Some in H as (m1 & [id err] & HF & H).
    destruct (Writer_Flush_heads b0 h0 hd0 m m1 _ Hb0 Hhd0 HF) as [Hheads Hempty].
    destruct err as [err|].
    { apply mret_Some in H as [-> ->]. split; [done|]. eauto. }
    apply IH in H as [Hheads' Hrec].
    2:{ eapply Forall_impl; [exact Hrest|]. intros [r' b'] (h' & ? & ?).
        exists h'. by rewrite Hheads. }
    split; [congruence|].
    intros r b h hd [Heq|Hin]%elem_of_cons Hb Hhd Hn.
    + simplify_eq. by specialize (Hempty Hn).
    + eapply (Hrec r b h hd); [done|done| |done]. by rewrite Hheads.
Qed.

(** Calls that record no successful creation leave the count alone. *)
Lemma quiet_creations m m' new :
  extends m m' new →
  Forall (λ e, ∀ nw, e ≠ EvNewTSDBWriter (nw, None)) new →
  creations (trace m') = creations (trace m).
Proof.
  intros [-> _] Hq. rewrite creations_app, (creations_none new) by done. lia.
Qed.

(** Every operation records as many successful creations as it stores
    builders. *)
Lemma apply_op_creations o w m w' m' :
  coherent w m → apply_op o w m = Some (m', w') →
  creations (trace m') + size (blocks w) = creations (trace m) + size (blocks w').
Proof.
  intros Hc H. destruct o as [ref l t v|ref l e| | | |]; simpl in H.
  - apply bind_Some in H as (m1 & [w1 res] & HA & [-> ->]%mret_Some).
    unfold MultiWriter_Append in HA.
    apply bind_Some in HA as (m2 & [w2 a] & HG & HA).
    apply bind_Some in HA as (m3 & res' & HA & [-> Heq]%mret_Some). simplify_eq.
    pose proof (getOrCreate_creations _ _ _ _ _ _ (coh_keys _ _ Hc) HG) as Hg.
    unfold Appender_Append in HA.
    apply Appender_call_creations in HA; [lia| |done].
    intros m0 m4 r0. apply (handle_trace a _ (λ err, (0%N, Some err))).
  - apply bind_Some in H as (m1 & [w1 res] & HA & [-> ->]%mret_Some).
    unfold MultiWriter_AppendExemplar in HA.
    apply bind_Some in HA as (m2 & [w2 a] & HG & HA).
    apply bind_Some in HA as (m3 & res' & HA & [-> Heq]%mret_Some). simplify_eq.
    pose proof (getOrCreate_creations _ _ _ _ _ _ (coh_keys _ _ Hc) HG) as Hg.
    unfold Appender_AppendExemplar in HA.
    apply Appender_call_creations in HA; [lia| |done].
    intros m0 m4 r0. apply (handle_trace a _ (λ err, (0%N, Some err))).
  - apply bind_Some in H as (m1 & res & HA & [-> ->]%mret_Some).
    destruct (MultiWriter_Commit_spec w m Hc) as (m2 & entries & results & HC & _ & _ & Hext).
    rewrite HA in HC. simplify_eq.
    rewrite (quiet_creations _ _ _ Hext); [done|]. by apply Forall_zip_with_ev.
  - apply bind_Some in H as (m1 & res & HA & [-> ->]%mret_Some).
    destruct (MultiWriter_Rollback_spec w m Hc) as (m2 & entries & results & HC & _ & _ & Hext).
    rewrite HA in HC. simplify_eq.
    rewrite (quiet_creations _ _ _ Hext); [done|]. by apply Forall_zip_with_ev.
  - apply bind_Some in H as (m1 & res & HA & [-> ->]%mret_Some).
    destruct (MultiWriter_Flush_spec w m Hc) as (m2 & entries & res2 & HC & _ & Hcases).
    rewrite HA in HC. simplify_eq.
    destruct Hcases as [(idss & _ & Hext & _)|(d & f & r & idss & i & err & _ & _ & Hext & _)];
      rewrite (quiet_creations _ _ _ Hext); try done.
    + by apply Forall_zip_with_ev.
    + apply Forall_app. split; [by apply Forall_zip_with_ev|]. by repeat constructor.
  - apply bind_Some in H as (m1 & res & HA & [-> ->]%mret_Some).
    destruct (MultiWriter_Close_spec w m Hc) as (m2 & entries & results & HC & _ & _ & Hext).
    rewrite HA in HC. simplify_eq.
    rewrite (quiet_creations _ _ _ Hext); [done|]. by apply Forall_zip_with_ev.
Qed.

(** Ranging over an empty map visits nothing. *)
Lemma rangeOver_empty {A} (mp : gmap Range A) m :
  mp = ∅ → rangeOver mp m = Some (m, []).
Proof.
  intros ->. unfold rangeOver. f_equal. f_equal.
  apply Permutation_nil_r. rewrite map_range_perm. by rewrite map_to_list_empty.
Qed.

Lemma run_inv {A B} (c : M (A * B)) m m' a b :
  run c m = Some ((a, m'), b) → c m = Some (m', (a, b)).
Proof. unfold run. destruct (c m) as [[m1 [a1 b1]]|]; intros; by simplify_eq/=. Qed.

Lemma run_keep_inv {B} (c : M B) (w w' : MultiWriter) m m' b :
  run (res ← c; mret (w, res)) m = Some ((w', m'), b) → w' = w ∧ c m = Some (m', b).
Proof.
  intros H%run_inv. apply bind_Some in H as (m1 & b1 & Hc & [-> Heq]%mret_Some).
  by simplify_eq.
Qed.

Lemma ready_loop p ref s s' r :
  ready s → Import_loop MultiWriter_Writer p ref s = Some (s', r) → ready s'.
Proof.
  apply (Import_loop_inv MultiWriter_Writer ready).
  intros ref' l t v s0 s1 res Hs HA.
  destruct (safe_Append _ _ MultiWriter_Writer_safe ref' l t v s0 Hs)
    as (s2 & res2 & HA2 & Hs2).
  congruence.
Qed.

End FlushCount.

Lemma drop_skipped_all p : Forall (λ st, skipped st = true) p → drop_skipped p = [].
Proof.
  unfold drop_skipped. induction 1 as [|st p Hst _ IH]; simpl; [done|]. by rewrite Hst.
Qed.

Lemma Import_loop_all_skipped {S} (W : Writer S) p ref s :
  Forall (λ st, skipped st = true) p → Import_loop W p ref s = Some (s, None).
Proof.
  intros Hp. by rewrite Import_loop_drop_skipped, drop_skipped_all.
Qed.

(** What a run that returned went through. *)
Lemma Import_inv {S} (W : Writer S) p s s' ids err :
  Import W p s = Some (s', (ids, err)) →
  ∃ s0 s1 berr cerr,
    w_Appender W s = Some s0 ∧ Import_body W p s0 = Some (s1, (ids, berr)) ∧
    w_Close W s1 = Some (s', cerr) ∧
    err = multiError_Err (multiError_Add (multiError_Add NewMulti berr) cerr).
Proof.
  unfold Import. intros H.
  destruct (w_Appender W s) as [s0|]; simplify_eq/=.
  destruct (Import_body W p s0) as [[s1 [ids1 berr]]|] eqn:HB; simplify_eq/=.
  destruct (w_Close W s1) as [[s2 cerr]|] eqn:HC; simplify_eq/=.
  eauto 10.
Qed.

(** A call on a head that keeps the number of series. *)
Lemma onHead_NumSeries `{E : Engine} {A} (f : Head → World → Head * World * A) h hd m :
  (∀ hd σ, Head_NumSeries (projT (f hd σ)) = Head_NumSeries hd) →
  heads m !! h = Some hd →
  ∃ m' a hd', onHead (Some h) f m = Some (m', a) ∧ trace m' = trace m ∧
              heads m' !! h = Some hd' ∧ Head_NumSeries hd' = Head_NumSeries hd.
Proof.
  intros Hf Hhd. rewrite (onHead_spec f h hd m Hhd).
  eexists _, _, _. split; [done|]. simpl. split; [done|].
  split; [apply lookup_insert_eq|]. apply (Hf hd (os m)).
Qed.

(** Division truncated toward zero by a positive divisor. *)
Lemma quot_facts w t :
  (0 < w)%Z →
  (t = t `quot` w * w + t `rem` w)%Z ∧
  (0 ≤ t → 0 ≤ t `rem` w < w ∧ 0 ≤ t `quot` w ≤ t)%Z ∧
  (t ≤ 0 → - w < t `rem` w ≤ 0 ∧ t ≤ t `quot` w ≤ 0)%Z.
Proof.
  intros Hw. pose proof (Z.quot_rem' t w) as Hqr.
  split; [lia|]. split; intros Ht.
  - pose proof (Z.rem_bound_pos_pos t w Hw Ht). split; [done|]. nia.
  - pose proof (Z.rem_bound_pos_neg t w Hw Ht). split; [done|]. nia.
Qed.

(** For every timestamp whose range does not overflow, the code computes
    the range from the quotient truncated toward zero. *)
Lemma rangeKey_quot w t :
  (0 < w ≤ Int64.max_int)%Z → Int64.in_range t →
  (0 ≤ t → t `quot` w * w + w ≤ Int64.max_int)%Z →
  rangeKey w t = Some {| Start := (t `quot` w * w)%Z; End := (t `quot` w * w + w)%Z |}.
Proof.
  intros Hw Ht Hmax. unfold rangeKey, rangeForTimestamp, Int64.quo.
  rewrite decide_False by lia. simpl.
  destruct (quot_facts w t ltac:(lia)) as (Hqr & Hpos & Hneg).
  unfold Int64.in_range, Int64.min_int, Int64.max_int in *.
  unfold Int64.add, Int64.mul, Int64.sub.
  assert (- 2 ^ 63 ≤ t `quot` w ≤ 2 ^ 63 - 1)%Z by lia.
  assert (- 2 ^ 63 ≤ t `quot` w * w ≤ 2 ^ 63 - 1)%Z by lia.
  assert (- 2 ^ 63 ≤ t `quot` w * w + w ≤ 2 ^ 63 - 1)%Z by lia.
  rewrite (wrap_id (t `quot` w)) by (by apply in_range_bounds).
  rewrite (wrap_id (t `quot` w * w)) by (by apply in_range_bounds).
  rewrite (wrap_id (t `quot` w * w + w)) by (by apply in_range_bounds).
  rewrite wrap_id by (apply in_range_bounds; lia).
  do 2 f_equal. lia.
Qed.

(** X18: a flush of a coherent coordinator that returns without error
    returns exactly one identifier for each stored builder; a flush that
    returns an error returns no identifier, also when builders were
    flushed before the one that failed. *)
Theorem MultiWriter_Flush_block_count `{E : Engine} (w : MultiWriter) (m m' : Machine)
    (ids : list ULID) (err : option error) :
  coherent w m →
  MultiWriter_Flush w m = Some (m', (ids, err)) →
  (err = None → length ids = size (blocks w)) ∧
  (err ≠ None → ids = []).
Proof.
  intros Hc H. split.
  - intros ->. by apply (MultiWriter_Flush_count w m m').
  - intros Hne. destruct err as [e|]; [|done].
    unfold MultiWriter_Flush in H. apply bind_Some in H as (m1 & entries & _ & H).
    by eapply flushEach_failed.
Qed.

Lemma MultiWriter_Flush_block_count_witness :
  let s := Examples.after Examples.three_buckets Examples.commit_fails in
  let r := default (s.1, ([], None)) (MultiWriter_Flush s.2 s.1) in
  (r.2.2 = None → length r.2.1 = size (blocks s.2)) ∧
  (r.2.2 ≠ None → r.2.1 = []).
Proof.
  apply (MultiWriter_Flush_block_count
           (Examples.after Examples.three_buckets Examples.commit_fails).2
           (Examples.after Examples.three_buckets Examples.commit_fails).1
           (default ((Examples.after Examples.three_buckets Examples.commit_fails).1, ([], None))
              (MultiWriter_Flush (Examples.after Examples.three_buckets Examples.commit_fails).2
                 (Examples.after Examples.three_buckets Examples.commit_fails).1)).1).
  - apply reachable_coherent.
    apply (apply_ops_reachable Examples.three_buckets Examples.start Examples.commit_fails);
      [apply (reach_new "out" 10 [])|vm_compute; reflexivity].
  - vm_compute. reflexivity.
Defined.

(** X19: one stored builder whose head has no series makes the flush of
    a coherent coordinator fail: it returns an error and no identifier,
    whatever the other builders hold, and leaves every head as it was. *)
Theorem MultiWriter_Flush_fails_on_empty_builder `{E : Engine} (w : MultiWriter)
    (m : Machine) (r : Range) (b : TSDBWriter) (h : loc) (hd : Head) :
  coherent w m →
  blocks w !! r = Some b → tw_head b = Some h → heads m !! h = Some hd →
  Head_NumSeries hd = 0%Z →
  ∃ m' err, MultiWriter_Flush w m = Some (m', ([], Some err)) ∧ heads m' = heads m.
Proof.
  intros Hc Hr Hb Hhd Hn.
  destruct (MultiWriter_Flush_spec w m Hc) as (m' & entries & res & HF & Hp & _).
  pose proof HF as HF'. unfold MultiWriter_Flush, rangeOver in HF'.
  apply bind_Some in HF' as (m1 & entries' & Hro & HL).
  assert (m1 = m ∧ entries' ≡ₚ map_to_list (blocks w)) as [-> Hp'].
  { simplify_eq. split; [done|apply map_range_perm]. }
  apply flushEach_empty_member in HL as [Hheads Hfail];
    [|by apply (coherent_live_builders w)].
  destruct (Hfail r b h hd) as [err ->]; try done.
  { rewrite Hp'. by apply elem_of_map_to_list. }
  by exists m', err.
Qed.

Lemma MultiWriter_Flush_fails_on_empty_builder_witness :
  let s := Examples.after [OpAppendExemplar 0%N Examples.up (mkExemplar [] 1%N 5%Z true)]
             (Ref.machine []) in
  ∃ m' err, MultiWriter_Flush s.2 s.1 = Some (m', ([], Some err)) ∧ heads m' = heads s.1.
Proof.
  pose (s := Examples.after [OpAppendExemplar 0%N Examples.up (mkExemplar [] 1%N 5%Z true)]
             (Ref.machine [])).
  apply (MultiWriter_Flush_fails_on_empty_builder (E := Ref.engine) s.2 s.1
           (mkRange 0 10)
           (default (mkTSDBWriter "" [] None "") (blocks s.2 !! mkRange 0 10))
           0
           (default (Ref.mkHead [] 0 0 Ref.healthy) (heads s.1 !! 0))).
  - apply reachable_coherent.
    apply (apply_ops_reachable
             [OpAppendExemplar 0%N Examples.up (mkExemplar [] 1%N 5%Z true)]
             Examples.start (Ref.machine []));
      [apply (reach_new "out" 10 [])|vm_compute; reflexivity].
  - vm_compute. reflexivity.
  - vm_compute. reflexivity.
  - vm_compute. reflexivity.
  - vm_compute. reflexivity.
Defined.

(** X20: in every state reached from a new coordinator on a machine with
    an empty log, the number of stored builders is the number of creations
    that succeeded, whatever was appended, committed, rolled back, flushed
    or closed since: a builder is stored for each successful creation, and
    only then. *)
Theorem reachable_creations `{E : Engine} (w : MultiWriter) (m : Machine) :
  reachable w m → creations (trace m) = size (blocks w).
Proof.
  induction 1 as [dir size lbls σ|o w m w' m' Hr IH Hop].
  - done.
  - pose proof (apply_op_creations o w m w' m' (reachable_coherent w m Hr) Hop). lia.
Qed.

Lemma reachable_creations_witness :
  creations (trace (Examples.after Examples.three_buckets Examples.creation_fails).1)
  = size (blocks (Examples.after Examples.three_buckets Examples.creation_fails).2).
Proof.
  apply reachable_creations.
  apply (apply_ops_reachable Examples.three_buckets Examples.start Examples.creation_fails);
    [apply (reach_new "out" 10 [])|vm_compute; reflexivity].
Defined.

(** X21: a run of the pipeline on a coherent coordinator of non-zero
    width returns either no identifier or exactly one identifier for each
    builder the coordinator holds at the end; when the run returns no
    error, it is the latter. *)
Theorem Import_one_block_per_builder `{E : Engine} (p : Parser) (w w' : MultiWriter)
    (m m' : Machine) (ids : list ULID) (err : option error) :
  coherent w m → sizeMillis w ≠ 0%Z →
  Import MultiWriter_Writer p (w, m) = Some ((w', m'), (ids, err)) →
  (ids = [] ∨ length ids = size (blocks w')) ∧
  (err = None → length ids = size (blocks w')).
Proof.
  intros Hc Hw H.
  apply Import_inv in H as (s0 & [w1 m1] & berr & cerr & HA & HB & HC & ->).
  simpl in HA. simplify_eq.
  apply run_keep_inv in HC as [-> HC].
  assert (Hok : berr = None → length ids = size (blocks w1)).
  { intros ->. apply Import_body_success in HB as ([w2 m2] & [w3 m3] & HL & HCo & HF).
    assert (Hr2 : ready (w2, m2)).
    { apply (ready_loop p 0%N (w, m) (w2, m2) None); [by split|done]. }
    apply run_keep_inv in HCo as [-> HCo].
    apply run_keep_inv in HF as [-> HF].
    destruct (safe_Commit _ _ MultiWriter_Writer_safe (w2, m2) Hr2)
      as ([w4 m4] & res & HCo' & Hr4).
    simpl in HCo'. apply run_keep_inv in HCo' as [-> HCo']. simplify_eq.
    destruct Hr4 as [Hc4 _]. by eapply MultiWriter_Flush_count. }
  split.
  - destruct berr as [e|]; [left; by eapply Import_body_error|right; by apply Hok].
  - intros [-> _]%combined_None. by apply Hok.
Qed.

Lemma Import_one_block_per_builder_witness :
  let r := default ((Examples.hourly, Ref.machine []), ([], None))
             (Import MultiWriter_Writer
                [StepEntry 2%Z Examples.up (Some 1000%Z) 1%N;
                 StepEntry 2%Z Examples.up (Some 3700000%Z) 2%N]
                (Examples.hourly, Ref.machine [])) in
  (r.2.1 = [] ∨ length r.2.1 = size (blocks r.1.1)) ∧
  (r.2.2 = None → length r.2.1 = size (blocks r.1.1)).
Proof.
  apply (Import_one_block_per_builder (E := Ref.engine)
           [StepEntry 2%Z Examples.up (Some 1000%Z) 1%N;
            StepEntry 2%Z Examples.up (Some 3700000%Z) 2%N]
           Examples.hourly _ (Ref.machine [])
           (default ((Examples.hourly, Ref.machine []), ([], None))
             (Import MultiWriter_Writer
                [StepEntry 2%Z Examples.up (Some 1000%Z) 1%N;
                 StepEntry 2%Z Examples.up (Some 3700000%Z) 2%N]
                (Examples.hourly, Ref.machine []))).1.2).
  - apply coherent_new.
  - vm_compute. discriminate.
  - vm_compute. reflexivity.
Defined.

(** X22: a run on a coordinator that stores nothing, over an input
    without series entries, succeeds with no identifier and a nil error:
    commit, flush and close range over empty maps, so that the engine is
    never called and coordinator and machine are left as they were; this
    holds for every width, zero included. *)
Theorem Import_empty_coordinator `{E : Engine} (p : Parser) (w : MultiWriter) (m : Machine) :
  blocks w = ∅ → activeAppenders w = ∅ →
  Forall (λ st, skipped st = true) p →
  Import MultiWriter_Writer p (w, m) = Some ((w, m), ([], None)).
Proof.
  intros Hb Ha Hp.
  rewrite (Import_unfold MultiWriter_Writer p (w, m) (w, m) (w, m) (w, m) ([], None) None).
  - done.
  - done.
  - unfold Import_body. rewrite Import_loop_all_skipped by done. simpl.
    unfold MultiWriter_Commit, MultiWriter_Flush.
    rewrite (run_eq _ m m w None).
    2:{ rewrite (bind_eq _ _ _ _ _ (bind_eq _ _ _ _ _ (rangeOver_empty _ m Ha))). done. }
    simpl.
    rewrite (run_eq _ m m w ([], None)); [done|].
    by rewrite (bind_eq _ _ _ _ _ (bind_eq _ _ _ _ _ (rangeOver_empty _ m Hb))).
  - simpl. unfold MultiWriter_Close. apply run_eq.
    by rewrite (bind_eq _ _ _ _ _ (bind_eq _ _ _ _ _ (rangeOver_empty _ m Hb))).
Qed.

Lemma Import_empty_coordinator_witness :
  Import MultiWriter_Writer [StepEntry 1%Z [] None 0%N] (Examples.hourly, Ref.machine [])
  = Some ((Examples.hourly, Ref.machine []), ([], None)).
Proof.
  apply (Import_empty_coordinator (E := Ref.engine) [StepEntry 1%Z [] None 0%N]
           Examples.hourly (Ref.machine [])).
  - reflexivity.
  - reflexivity.
  - repeat constructor.
Defined.

(** X23: a run on a single builder that was created without error, over
    an input without series entries, never succeeds.  Under the head's
    contract the run opens the session on the builder's head, commits it,
    and closes the builder on the machine the commit left, flush having
    changed nothing; it returns no identifier and an error: the error of
    that commit wrapped as "commit" if it failed, else the empty-builder
    error wrapped as "flush", combined with what that close returned. *)
Theorem Import_single_builder_no_series `{E : Engine} {contract : HeadContract}
    (dir : string) (lbls : Labels) (m0 m1 : Machine) (b : TSDBWriter) (p : Parser) :
  NewTSDBWriter dir lbls m0 = Some (m1, (b, None)) →
  Forall (λ st, skipped st = true) p →
  ∃ h ma mc m2 cres cerr,
    tw_head b = Some h ∧
    onHead (Some h) Head_Appender m1 = Some (ma, tt) ∧
    onHead (Some h) headAppender_Commit ma = Some (mc, cres) ∧
    TSDBWriter_Close b mc = Some (m2, cerr) ∧
    Import TSDBWriter_Writer p (b, m1) =
      Some ((b, m2),
            ([], Some (nonNilMultiError
                         match cres with
                         | Some e => errors_Wrap e "commit"
                         | None => errors_Wrap EmptyBuilderError "flush"
                         end
                         (error_members cerr)))).
Proof.
  intros HN Hp.
  destruct (NewTSDBWriter_no_series dir lbls m0 m1 b HN) as (h & hd & Hb & Hhd & Hzero).
  destruct (onHead_NumSeries Head_Appender h hd m1 NumSeries_Appender Hhd)
    as (ma & [] & hda & Hopen & Htra & Hhda & Hna).
  destruct (onHead_NumSeries headAppender_Commit h hda ma NumSeries_Commit Hhda)
    as (mc & cres & hdc & Hcommit & Htrc & Hhdc & Hnc).
  assert (HF : TSDBWriter_Flush b mc = Some (mc, ([], Some EmptyBuilderError))).
  { apply (TSDBWriter_Flush_empty b h hdc mc Hb Hhdc). congruence. }
  destruct (TSDBWriter_Close_spec b h mc Hb ltac:(by apply elem_of_dom))
    as (m2 & cerr & HC & _).
  assert (HA : w_Appender TSDBWriter_Writer (b, m1) = Some (b, ma)).
  { simpl. unfold TSDBWriter_Appender. rewrite Hb.
    rewrite (run_eq _ m1 ma b (headAppender h)); [done|].
    by rewrite (bind_eq _ _ _ _ _ (bind_eq _ _ _ _ _ Hopen)). }
  assert (HCl : w_Close TSDBWriter_Writer (b, mc) = Some ((b, m2), cerr)).
  { simpl. apply run_eq. by rewrite (bind_eq _ _ _ _ _ HC). }
  assert (HCo : a_Commit TSDBWriter_Writer (b, ma) = Some ((b, mc), cres)).
  { simpl. rewrite Hb. apply run_eq. by rewrite (bind_eq _ _ _ _ _ Hcommit). }
  exists h, ma, mc, m2, cres, cerr.
  split; [done|]. split; [done|]. split; [done|]. split; [done|].
  destruct cres as [e|].
  - rewrite (Import_unfold TSDBWriter_Writer p (b, m1) (b, ma) (b, mc) (b, m2)
               ([], Some (errors_Wrap e "commit")) cerr HA); [|clear HA|done].
    + cbn [fst snd]. by rewrite combined_Wrap.
    + unfold Import_body. rewrite Import_loop_all_skipped by done.
      cbn [mbind option_bind]. by rewrite HCo.
  - rewrite (Import_unfold TSDBWriter_Writer p (b, m1) (b, ma) (b, mc) (b, m2)
               ([], Some (errors_Wrap EmptyBuilderError "flush")) cerr HA); [|clear HA|done].
    + cbn [fst snd]. by rewrite combined_Wrap.
    + unfold Import_body. rewrite Import_loop_all_skipped by done.
      cbn [mbind option_bind]. rewrite HCo. cbn [mbind option_bind].
      assert (HFl : w_Flush TSDBWriter_Writer (b, mc)
                    = Some ((b, mc), ([], Some EmptyBuilderError))).
      { simpl. apply run_eq. by rewrite (bind_eq _ _ _ _ _ HF). }
      by rewrite HFl.
Qed.

Lemma Import_single_builder_no_series_witness :
  ∃ h ma mc m2 cres cerr,
    tw_head Examples.single.1 = Some h ∧
    onHead (Some h) Head_Appender Examples.single.2 = Some (ma, tt) ∧
    onHead (Some h) headAppender_Commit ma = Some (mc, cres) ∧
    TSDBWriter_Close Examples.single.1 mc = Some (m2, cerr) ∧
    Import TSDBWriter_Writer [StepEntry 1%Z [] None 0%N] Examples.single =
      Some ((Examples.single.1, m2),
            ([], Some (nonNilMultiError
                         match cres with
                         | Some e => errors_Wrap e "commit"
                         | None => errors_Wrap EmptyBuilderError "flush"
                         end
                         (error_members cerr)))).
Proof.
  apply (Import_single_builder_no_series (E := Ref.engine) (contract := Ref_contract)
           "out" [] (Ref.machine []) Examples.single.2 Examples.single.1
           [StepEntry 1%Z [] None 0%N]).
  - vm_compute. reflexivity.
  - repeat constructor.
Defined.

(** X24: for a positive width and any timestamp of int64 whose range does
    not overflow, the range of [getOrCreate] starts at the multiple of the
    width next to the timestamp in the direction of zero and is one width
    long; its end is above the timestamp.  A negative timestamp is not
    above the start of its range, so that the range contains the timestamp
    exactly when the timestamp is non-negative or a multiple of the
    width. *)
Theorem rangeKey_truncates (w t : Z) :
  (0 < w ≤ Int64.max_int)%Z → Int64.in_range t →
  (0 ≤ t → t `quot` w * w + w ≤ Int64.max_int)%Z →
  ∃ r, rangeKey w t = Some r ∧
       Start r = (t - t `rem` w)%Z ∧ End r = (Start r + w)%Z ∧
       (t < End r)%Z ∧
       (t < 0 → t ≤ Start r ≤ 0)%Z ∧
       (bucket_of w t r ↔ (0 ≤ t ∨ t `rem` w = 0)%Z).
Proof.
  intros Hw Ht Hmax. eexists. split; [by apply rangeKey_quot|]. simpl.
  destruct (quot_facts w t ltac:(lia)) as (Hqr & Hpos & Hneg).
  unfold bucket_of; simpl.
  split; [lia|]. split; [done|]. split; [lia|]. split; [lia|]. lia.
Qed.

Lemma rangeKey_truncates_witness :
  ∃ r, rangeKey 10 (-11) = Some r ∧
       Start r = (-11 - (-11) `rem` 10)%Z ∧ End r = (Start r + 10)%Z ∧
       (-11 < End r)%Z ∧
       (-11 < 0 → -11 ≤ Start r ≤ 0)%Z ∧
       (bucket_of 10 (-11) r ↔ (0 ≤ -11 ∨ (-11) `rem` 10 = 0)%Z).
Proof.
  apply (rangeKey_truncates 10 (-11)); vm_compute; intuition congruence.
Defined.

(** X25: for a positive width, the ranges of two timestamps of int64
    that do not overflow are equal exactly when the quotients truncated
    toward zero agree, and are disjoint otherwise; the start of the range
    does not decrease with the timestamp; and every timestamp strictly
    between minus the width and the width gets the range from zero to the
    width. *)
Theorem rangeKey_partition (w t t' : Z) (r r' : Range) :
  (0 < w ≤ Int64.max_int)%Z → Int64.in_range t → Int64.in_range t' →
  (0 ≤ t → t `quot` w * w + w ≤ Int64.max_int)%Z →
  (0 ≤ t' → t' `quot` w * w + w ≤ Int64.max_int)%Z →
  rangeKey w t = Some r → rangeKey w t' = Some r' →
  (r = r' ↔ (t `quot` w = t' `quot` w)%Z) ∧
  (r ≠ r' → (End r ≤ Start r' ∨ End r' ≤ Start r)%Z) ∧
  (t ≤ t' → Start r ≤ Start r')%Z ∧
  ((- w < t < w)%Z → r = {| Start := 0; End := w |}).
Proof.
  intros Hw Ht Ht' Hm Hm' Hr Hr'.
  rewrite rangeKey_quot in Hr by done. rewrite rangeKey_quot in Hr' by done.
  simplify_eq. simpl.
  destruct (quot_facts w t ltac:(lia)) as (Hqr & Hpos & Hneg).
  destruct (quot_facts w t' ltac:(lia)) as (Hqr' & Hpos' & Hneg').
  assert (Hiff : mkRange (t `quot` w * w) (t `quot` w * w + w)
                 = mkRange (t' `quot` w * w) (t' `quot` w * w + w)
                 ↔ (t `quot` w = t' `quot` w)%Z).
  { split; [|by intros ->]. intros Heq. injection Heq as Heq _. nia. }
  split; [exact Hiff|]. split; [|split].
  - intros Hne. assert (t `quot` w ≠ t' `quot` w)%Z by (by rewrite <- Hiff). nia.
  - intros Hle. pose proof (Z.quot_le_mono t t' w ltac:(lia) Hle). nia.
  - intros Hsmall. assert (t `quot` w = 0)%Z as -> by nia. f_equal.
Qed.

Lemma rangeKey_partition_witness :
  let r := {| Start := 0; End := 10 |} in
  let r' := {| Start := 10; End := 20 |} in
  (r = r' ↔ ((-5) `quot` 10 = 15 `quot` 10)%Z) ∧
  (r ≠ r' → (End r ≤ Start r' ∨ End r' ≤ Start r)%Z) ∧
  (-5 ≤ 15 → Start r ≤ Start r')%Z ∧
  ((- 10 < -5 < 10)%Z → r = {| Start := 0; End := 10 |}).
Proof.
  apply (rangeKey_partition 10 (-5) 15 {| Start := 0; End := 10 |} {| Start := 10; End := 20 |});
    vm_compute; intuition congruence.
Defined.
